(** * machineboss: evaluated transducers, parameters and base-calling indices

    A shallow embedding of [src/eval.cpp], [src/params.cpp], [src/machine.h]
    and [src/nano/caller.h].  C++ control flow is written as folds over the
    containers the loops walk; exceptions and failed assertions are values of
    [result]; the messages handed to the logger are collected in a list.

    Containers with an iteration order ([std::map], [std::multimap]) are
    association lists kept sorted by key; [std::vector] is [list] with
    stdpp's lookup and a checked update; [map<string,double>] of the
    parameter binding is a [gmap]. *)

From Stdlib Require Import ZArith List String Bool Lia Reals Lra Permutation Sorted.
From stdpp Require Import base option list gmap strings pretty.

Set Default Proof Using "Type".
Set Warnings "-register-all".
Open Scope string_scope.
Open Scope list_scope.

(** ** Failures *)

(** What a call can die of.  [AssertionFailed] is [Assert] of [util.h],
    [OutOfRange] is [std::map::at] or a checked vector index,
    [SchemaViolation] is [MachineSchema::validateOrDie], [WeightFailure] is
    raised inside [WeightAlgebra::eval], and [LibraryAbort] is an external
    numerical routine whose own error handler ended the run. *)
Inductive error : Type :=
| AssertionFailed (msg : string)
| OutOfRange
| SchemaViolation (schema : string)
| TypeError
| WeightFailure (msg : string)
| LibraryAbort (code : Z).

Inductive result (A : Type) : Type :=
| Ok (a : A)
| Fatal (e : error).
Arguments Ok {A} a.
Arguments Fatal {A} e.

Definition rbind {A B} (r : result A) (k : A -> result B) : result B :=
  match r with
  | Ok a => k a
  | Fatal e => Fatal e
  end.

#[global] Instance result_bind : MBind result := fun A B k r => rbind r k.
#[global] Instance result_ret : MRet result := fun A a => Ok a.

(** [for (x : l) body] where [body] may throw: the accumulator is threaded
    left to right and the first failure ends the loop. *)
Fixpoint foldM {A B} (f : B -> A -> result B) (l : list A) (b : B) : result B :=
  match l with
  | [] => Ok b
  | a :: l' => b' ← f b a; foldM f l' b'
  end.

Definition is_ok {A} (r : result A) : bool :=
  match r with Ok _ => true | Fatal _ => false end.

(** ** Doubles *)

(** The arithmetic the code performs on [double], with the [libm] functions
    it calls.  The results below hold for every such arithmetic; those
    about matrix inverses read the doubles of the two matrices as real
    numbers, and the sample machines are evaluated in [ideal], arithmetic
    without rounding. *)
Record Numerics : Type := {
  double : Type;
  d_zero : double;                       (* 0. *)
  d_one : double;                        (* 1 *)
  d_threshold : double;                  (* 1.01 *)
  d_add : double -> double -> double;    (* += *)
  d_sub : double -> double -> double;    (* -= *)
  d_gt : double -> double -> bool;       (* > *)
  d_exp : double -> double;              (* exp *)
  d_log : double -> double;              (* log *)
  d_of_Z : Z -> double                   (* static_cast<double> of an integer *)
}.

(** ** nano/caller.h: state indices of the base-calling machine *)

Module BaseCalling.
Local Open Scope Z_scope.

Definition int_min : Z := - 2 ^ 31.
Definition int_max : Z := 2 ^ 31 - 1.
Definition ull_modulus : Z := 2 ^ 64.

(** [int] arithmetic, two's complement on 32 bits. *)
Definition wrap_int (z : Z) : Z := (z + 2 ^ 31) mod 2 ^ 32 - 2 ^ 31.
(** Conversion to, and arithmetic in, [unsigned long long]. *)
Definition wrap_ull (z : Z) : Z := z mod ull_modulus.

Definition int_add (a b : Z) : Z := wrap_int (a + b).
Definition int_mul (a b : Z) : Z := wrap_int (a * b).
Definition ull_add (a b : Z) : Z := wrap_ull (a + b).

Definition fits_int (z : Z) : Prop := int_min <= z <= int_max.
Definition fits_ull (z : Z) : Prop := 0 <= z < ull_modulus.

(** [struct BaseCallingMachine]: the two [int] members the index functions
    read ([Machine], its base, plays no part in them). *)
Record BaseCallingMachine : Type := {
  components : Z;
  nKmers : Z
}.

(** [1 + component * nKmers + kmer]: the product and the first sum are [int]
    operations, the second sum converts the [int] to [unsigned long long]
    ([Kmer] and [StateIndex]) and adds there. *)
Definition kmerEmit (m : BaseCallingMachine) (kmer component : Z) : Z :=
  ull_add (wrap_ull (int_add 1 (int_mul component (nKmers m)))) kmer.

Definition kmerEnd (m : BaseCallingMachine) (kmer : Z) : Z :=
  ull_add (wrap_ull (int_add 1 (int_mul (components m) (nKmers m)))) kmer.

Definition kmerStart (m : BaseCallingMachine) (kmer : Z) : Z :=
  ull_add (wrap_ull (int_add 1 (int_mul (int_add (components m) 1) (nKmers m)))) kmer.

(** The members are counts, and the largest [int] the three functions
    compute, [1 + (components + 1) * nKmers], does not overflow. *)
Definition layout_fits (m : BaseCallingMachine) : Prop :=
  0 <= components m /\ 0 <= nKmers m /\ fits_int (1 + (components m + 1) * nKmers m).

(** The arguments the machine is built for: a k-mer below [nKmers], a
    component below [components]. *)
Definition valid_kmer (m : BaseCallingMachine) (kmer : Z) : Prop := 0 <= kmer < nKmers m.
Definition valid_component (m : BaseCallingMachine) (component : Z) : Prop :=
  0 <= component < components m.

End BaseCalling.

(** ** Index and symbol types *)

(** [StateIndex], the tokens and [TransIndex] are unsigned integers that
    only count states, symbols and transitions held in memory; they are
    natural numbers here.  Symbols are strings, the empty string being the
    empty symbol. *)
Abbreviation StateIndex := nat.
Abbreviation InputToken := nat.
Abbreviation OutputToken := nat.
Abbreviation TransIndex := nat.
Abbreviation InputSymbol := string.
Abbreviation OutputSymbol := string.

(** ** Evaluation order *)

(** [a[k] = e]: before C++17 the two operands of an assignment are
    unsequenced, so a compiler may evaluate the subscript, which creates
    the map entry, before or after [e]; since C++17 [e] comes first. *)
Inductive AssignmentOrder : Type :=
| ValueFirst
| TargetFirst.

(** ** jsonio.h and json.hpp: JSON values *)

Section Model.
Context {N : Numerics}.

(** [nlohmann::json].  A number keeps the representation it was parsed into;
    an object is a [std::map<string,json>], listed in key order. *)
Inductive json : Type :=
| JNull
| JBool (b : bool)
| JInt (z : Z)
| JUint (z : Z)
| JFloat (d : double N)
| JString (s : string)
| JArray (l : list json)
| JObject (l : list (string * json)).

Definition json_is_number (j : json) : bool :=
  match j with
  | JInt _ | JUint _ | JFloat _ => true
  | _ => false
  end.

(** [j.get<double>()]: the three number representations convert, every other
    type throws. *)
Definition json_get_double (j : json) : result (double N) :=
  match j with
  | JInt z | JUint z => Ok (d_of_Z N z)
  | JFloat d => Ok d
  | _ => Fatal TypeError
  end.

(** [for (iter = j.begin(); iter != j.end(); ++iter) ... iter.key() ...]:
    the entries the loop visits; [key()] throws on anything but an object,
    and [null] and the empty array have nothing to visit. *)
Definition json_items (j : json) : result (list (string * json)) :=
  match j with
  | JObject l => Ok l
  | JNull | JArray [] => Ok []
  | _ => Fatal TypeError
  end.

(** Modelled from the spec: the parameter schema behind
    [MachineSchema::validateOrDie ("params", ...)] of [schema.h], "an object
    whose values are real numbers". *)
Definition params_schema (j : json) : bool :=
  match j with
  | JObject l => forallb (fun kv => json_is_number (snd kv)) l
  | _ => false
  end.

(** Key [k] is bound to the number [d] in the JSON object [pj]. *)
Definition json_binds (pj : json) (k : string) (d : double N) : Prop :=
  exists l v, pj = JObject l /\ (k, v) ∈ l /\ json_get_double v = Ok d.

(** Keys of a [std::map] are pairwise distinct. *)
Definition json_object_keys_distinct (j : json) : Prop :=
  match j with
  | JObject l => NoDup (map fst l)
  | _ => True
  end.

(** ** params.cpp *)

Record Params : Type := {
  param : gmap string (double N)
}.

Section ReadJson.
(** [MachineSchema::validateOrDie] is declared in [schema.h]; the schema
    check it runs is a parameter here, and the call dies when it fails. *)
Variable schema_valid : string -> json -> bool.

Definition validateOrDie (schema : string) (j : json) : result unit :=
  if schema_valid schema j then Ok () else Fatal (SchemaViolation schema).

(** The order in which the two operands of the assignment are evaluated. *)
Variable order : AssignmentOrder.

(** [param[iter.key()]] evaluated while [get<double>()] is still to throw:
    [operator[]] has created the entry, with value 0, unless the key was
    bound already. *)
Definition slot_created (k : string) (p : gmap string (double N)) : gmap string (double N) :=
  match p !! k with
  | Some _ => p
  | None => <[k := d_zero N]> p
  end.

(** The loop of [Params::readJson]: [param[iter.key()] = iter.value().get<double>()].
    A throw leaves the entries written so far, and with them the entry of
    the offending key when the left operand was evaluated first. *)
Fixpoint readJson_loop (items : list (string * json)) (p : gmap string (double N))
  : gmap string (double N) * result unit :=
  match items with
  | [] => (p, Ok ())
  | (k, v) :: rest =>
      match json_get_double v with
      | Ok d => readJson_loop rest (<[k := d]> p)
      | Fatal e =>
          (match order with
           | ValueFirst => p
           | TargetFirst => slot_created k p
           end, Fatal e)
      end
  end.

(** [void Params::readJson (const json& pj)]: the object after the call, and
    how the call ended. *)
Definition readJson (pj : json) (this : Params) : Params * result unit :=
  match validateOrDie "params" pj with
  | Fatal e => (this, Fatal e)
  | Ok _ =>
      let cleared : gmap string (double N) := ∅ in
      match json_items pj with
      | Fatal e => ({| param := cleared |}, Fatal e)
      | Ok items =>
          let '(p, r) := readJson_loop items cleared in ({| param := p |}, r)
      end
  end.

End ReadJson.

(** ** machine.h *)

(** What [eval.cpp] uses of [weight.h] and [params.h], neither of which is
    among the sources: the expression type with its conversion from
    [double], the binding [eval] reads, and [WeightAlgebra::eval], which may
    throw. *)
Record WeightAlgebra : Type := {
  WeightExpr : Type;
  ParamDefs : Type;
  defs : Params -> ParamDefs;
  weight_of_double : double N -> WeightExpr;
  eval : WeightExpr -> ParamDefs -> result (double N)
}.

Context {W : WeightAlgebra}.

Definition StateName : Type := json.

Record MachineTransition : Type := {
  t_in : InputSymbol;
  t_out : OutputSymbol;
  dest : StateIndex;
  weight : WeightExpr W
}.

Local Abbreviation TransList := (list MachineTransition).

Record MachineState : Type := {
  ms_name : StateName;
  ms_trans : TransList
}.

Record Machine : Type := {
  state : list MachineState
}.

Definition symbol_empty (s : string) : bool := if decide (s = "") then true else false.

Definition inputEmpty (t : MachineTransition) : bool := symbol_empty (t_in t).
Definition outputEmpty (t : MachineTransition) : bool := symbol_empty (t_out t).
(** [isSilent]: [inputEmpty() && outputEmpty()]. *)
Definition isSilent (t : MachineTransition) : bool := inputEmpty t && outputEmpty t.

Definition nStates (m : Machine) : StateIndex := length (state m).

Definition allTransitions (m : Machine) : list MachineTransition :=
  flat_map ms_trans (state m).

(** Modelled from the spec: [Machine::inputAlphabet] and
    [Machine::outputAlphabet] of [machine.cpp], which "enumerate distinct
    non-empty labels in first-seen order". *)
Definition add_symbol (acc : list string) (s : string) : list string :=
  if symbol_empty s then acc
  else if decide (s ∈ acc) then acc else acc ++ [s].

Definition inputAlphabet (m : Machine) : list InputSymbol :=
  fold_left add_symbol (map t_in (allTransitions m)) [].

Definition outputAlphabet (m : Machine) : list OutputSymbol :=
  fold_left add_symbol (map t_out (allTransitions m)) [].

(** Modelled from the spec: [Machine::isAdvancingMachine] of [machine.cpp],
    by its comment in [machine.h], "no silent i->j transitions where j<i". *)
Definition state_advances (i : StateIndex) (ms : MachineState) : bool :=
  forallb (fun t => negb (isSilent t && (dest t <? i)%nat)) (ms_trans ms).

Definition isAdvancingMachine (m : Machine) : bool :=
  forallb (fun '(i, ms) => state_advances i ms) (zip (seq 0 (nStates m)) (state m)).

(** ** eval.h: ordered containers, tokenizers, evaluated states *)

(** [std::map<nat,V>] as the list of its entries in ascending key order. *)
Section OrderedMap.
Context {V : Type}.

Fixpoint omap_find (k : nat) (m : list (nat * V)) : option V :=
  match m with
  | [] => None
  | (k', v) :: m' => if decide (k' = k) then Some v else omap_find k m'
  end.

(** [m[k] = f (m[k])], where [m[k]] is first created as [dflt] when the key
    is new. *)
Fixpoint omap_update (k : nat) (f : V -> V) (dflt : V) (m : list (nat * V))
  : list (nat * V) :=
  match m with
  | [] => [(k, f dflt)]
  | (k', v) :: m' =>
      if decide (k < k') then (k, f dflt) :: m
      else if decide (k = k') then (k', f v) :: m'
      else (k', v) :: omap_update k f dflt m'
  end.

(** [std::multimap<nat,V>::insert]: the new entry goes after the entries
    whose key is not greater. *)
Fixpoint mmap_insert (k : nat) (v : V) (m : list (nat * V)) : list (nat * V) :=
  match m with
  | [] => [(k, v)]
  | (k', v') :: m' =>
      if decide (k < k') then (k, v) :: m else (k', v') :: mmap_insert k v m'
  end.

End OrderedMap.

(** [vec[i] = f (vec[i])] on a checked vector ([vguard]). *)
Definition vec_update {A} (i : nat) (f : A -> A) (l : list A) : result (list A) :=
  match l !! i with
  | Some x => Ok (<[i := f x]> l)
  | None => Fatal OutOfRange
  end.

Definition vec_at {A} (i : nat) (l : list A) : result A :=
  match l !! i with
  | Some x => Ok x
  | None => Fatal OutOfRange
  end.


(** Modelled from the spec: [Tokenizer] of [eval.h], "a mapping from symbol
    to a small positive integer token; the inverse mapping; and a reserved
    empty token (value 0)", tokens being assigned in alphabet order. *)
Record Tokenizer : Type := {
  tok2sym : list string;
  sym2tok : gmap string nat
}.

Definition index_symbols (syms : list string) : gmap string nat :=
  fold_left (fun m '(tok, sym) => <[sym := tok]> m) (zip (seq 0 (length syms)) syms) ∅.

Definition Tokenizer_new (alphabet : list string) : Tokenizer :=
  let t2s := "" :: alphabet in
  {| tok2sym := t2s; sym2tok := index_symbols t2s |}.

Definition emptyToken : nat := 0.

(** [sym2tok.at (sym)] *)
Definition sym2tok_at (tk : Tokenizer) (sym : string) : result nat :=
  match sym2tok tk !! sym with
  | Some t => Ok t
  | None => Fatal OutOfRange
  end.

(** [tok2sym[tok]] *)
Definition tok2sym_at (tk : Tokenizer) (tok : nat) : result string :=
  vec_at tok (tok2sym tk).

(** [typedef double LogWeight] *)
Local Abbreviation LogWeight := (double N).

Record Trans : Type := {
  logWeight : LogWeight;
  transIndex : TransIndex
}.

(** Modelled from the spec: the container types of [EvaluatedMachineState]
    in [eval.h].  Edges with the same labels and neighbour are kept apart
    ("ties disambiguated by transIndex"), so the innermost map is a
    multimap. *)
Local Abbreviation StateTransMap := (list (StateIndex * Trans)).
Local Abbreviation OutStateTransMap := (list (OutputToken * StateTransMap)).
Local Abbreviation InOutStateTransMap := (list (InputToken * OutStateTransMap)).

Record EvaluatedMachineState : Type := {
  ems_name : StateName;
  ems_nTransitions : TransIndex;
  ems_transOffset : TransIndex;
  incoming : InOutStateTransMap;
  outgoing : InOutStateTransMap
}.

Record EvaluatedMachine : Type := {
  inputTokenizer : Tokenizer;
  outputTokenizer : Tokenizer;
  em_state : list EvaluatedMachineState;
  em_nTransitions : TransIndex
}.

(** A default-constructed [EvaluatedMachineState]. *)
Definition EvaluatedMachineState_new : EvaluatedMachineState :=
  {| ems_name := JNull; ems_nTransitions := 0; ems_transOffset := 0;
     incoming := []; outgoing := [] |}.

(** [map[i][o].insert (value_type (key, t))] *)
Definition trans_insert (i : InputToken) (o : OutputToken) (key : StateIndex) (t : Trans)
    (m : InOutStateTransMap) : InOutStateTransMap :=
  omap_update i (omap_update o (mmap_insert key t) []) [] m.

Definition set_name (n : StateName) (e : EvaluatedMachineState) : EvaluatedMachineState :=
  {| ems_name := n; ems_nTransitions := ems_nTransitions e;
     ems_transOffset := ems_transOffset e; incoming := incoming e; outgoing := outgoing e |}.

Definition set_counts (n off : TransIndex) (e : EvaluatedMachineState) : EvaluatedMachineState :=
  {| ems_name := ems_name e; ems_nTransitions := n; ems_transOffset := off;
     incoming := incoming e; outgoing := outgoing e |}.

Definition add_outgoing (i : InputToken) (o : OutputToken) (d : StateIndex) (t : Trans)
    (e : EvaluatedMachineState) : EvaluatedMachineState :=
  {| ems_name := ems_name e; ems_nTransitions := ems_nTransitions e;
     ems_transOffset := ems_transOffset e; incoming := incoming e;
     outgoing := trans_insert i o d t (outgoing e) |}.

Definition add_incoming (i : InputToken) (o : OutputToken) (s : StateIndex) (t : Trans)
    (e : EvaluatedMachineState) : EvaluatedMachineState :=
  {| ems_name := ems_name e; ems_nTransitions := ems_nTransitions e;
     ems_transOffset := ems_transOffset e;
     incoming := trans_insert i o s t (incoming e); outgoing := outgoing e |}.

(** ** eval.cpp: construction *)

(** [params ? log (WeightAlgebra::eval (trans.weight, params->defs)) : 0.] *)
Definition trans_logWeight (params : option Params) (t : MachineTransition)
  : result LogWeight :=
  match params with
  | Some p => v ← eval W (weight t) (defs W p); mret (d_log N v)
  | None => mret (d_zero N)
  end.

(** The body of the inner loop of [init], for one transition of state [s];
    the accumulator is the state vector and the local counter [ti]. *)
Definition init_trans (params : option Params) (inTok outTok : Tokenizer) (s : StateIndex)
    (acc : list EvaluatedMachineState * TransIndex) (trans : MachineTransition)
  : result (list EvaluatedMachineState * TransIndex) :=
  let '(st, ti) := acc in
  let d := dest trans in
  i ← sym2tok_at inTok (t_in trans);
  o ← sym2tok_at outTok (t_out trans);
  lw ← trans_logWeight params trans;
  let t := {| logWeight := lw; transIndex := ti |} in
  st ← vec_update s (add_outgoing i o d t) st;
  st ← vec_update d (add_incoming i o s t) st;
  mret (st, S ti).

(** The body of the outer loop of [init], for state [s] of the machine; the
    accumulator is the state vector and the running total [tiCum]. *)
Definition init_state (params : option Params) (inTok outTok : Tokenizer)
    (acc : list EvaluatedMachineState * TransIndex) (s_ms : StateIndex * MachineState)
  : result (list EvaluatedMachineState * TransIndex) :=
  let '(st, tiCum) := acc in
  let '(s, ms) := s_ms in
  st ← vec_update s (set_name (ms_name ms)) st;
  '(st, ti) ← foldM (init_trans params inTok outTok s) (ms_trans ms) (st, 0);
  st ← vec_update s (set_counts ti tiCum) st;
  mret (st, tiCum + ti).

(** [EvaluatedMachine::init (machine, params)], run on
    the members the constructor has initialised. *)
Definition init (machine : Machine) (params : option Params)
    (inTok outTok : Tokenizer) (st0 : list EvaluatedMachineState)
  : result EvaluatedMachine :=
  if isAdvancingMachine machine then
    '(st, tiCum) ← foldM (init_state params inTok outTok)
                      (zip (seq 0 (length st0)) (state machine)) (st0, 0);
    mret {| inputTokenizer := inTok; outputTokenizer := outTok;
            em_state := st; em_nTransitions := tiCum |}
  else Fatal (AssertionFailed "Machine is not topologically sorted").

(** The two constructors: [Some params] is
    [EvaluatedMachine (machine, params)], [None] is [EvaluatedMachine (machine)]. *)
Definition EvaluatedMachine_new (machine : Machine) (params : option Params)
  : result EvaluatedMachine :=
  init machine params
       (Tokenizer_new (inputAlphabet machine))
       (Tokenizer_new (outputAlphabet machine))
       (replicate (nStates machine) EvaluatedMachineState_new).

Definition em_nStates (em : EvaluatedMachine) : StateIndex := length (em_state em).

(** ** eval.cpp: explicitMachine *)

Definition explicit_trans (em : EvaluatedMachine) (i : InputToken) (o : OutputToken)
    (s_t : StateIndex * Trans) : result MachineTransition :=
  isym ← tok2sym_at (inputTokenizer em) i;
  osym ← tok2sym_at (outputTokenizer em) o;
  mret {| t_in := isym; t_out := osym; dest := fst s_t;
          weight := weight_of_double W (d_exp N (logWeight (snd s_t))) |}.

(** The three nested loops over [ems.outgoing], appending to [ms.trans]. *)
Definition explicit_out (em : EvaluatedMachine) (i : InputToken) (acc : TransList)
    (o_stm : OutputToken * StateTransMap) : result TransList :=
  foldM (fun acc s_t => t ← explicit_trans em i (fst o_stm) s_t; mret (acc ++ [t]))
        (snd o_stm) acc.

Definition explicit_in (em : EvaluatedMachine) (acc : TransList)
    (i_ostm : InputToken * OutStateTransMap) : result TransList :=
  foldM (explicit_out em (fst i_ostm)) (snd i_ostm) acc.

Definition explicit_state (em : EvaluatedMachine) (ems : EvaluatedMachineState)
  : result MachineState :=
  tr ← foldM (explicit_in em) (outgoing ems) [];
  mret {| ms_name := ems_name ems; ms_trans := tr |}.

(** [Machine EvaluatedMachine::explicitMachine() const] *)
Definition explicitMachine (em : EvaluatedMachine) : result Machine :=
  st ← foldM (fun acc ems => ms ← explicit_state em ems; mret (acc ++ [ms]))
            (em_state em) [];
  mret {| state := st |}.

(** ** eval.cpp: sumInTrans *)

(** The two GSL routines [sumInTrans] calls, with what they write through
    their output arguments and the status they return.  A routine whose
    error handler ends the run instead of returning is [Fatal]. *)
Record Gsl : Type := {
  gsl_permutation : Type;
  gsl_linalg_LU_decomp :
    list (list (double N)) -> result (list (list (double N)) * gsl_permutation * Z * Z);
  gsl_linalg_LU_invert :
    list (list (double N)) -> gsl_permutation -> result (list (list (double N)) * Z)
}.

Context {G : Gsl}.

(** [LogThisAt (level, "Warning: when eliminating absorbing transitions,
    pExit[src] = value")]: what is handed to the logger. *)
Inductive LogEvent : Type :=
| Warning_pExit (level : nat) (src : StateIndex) (value : double N).

Local Abbreviation Matrix := (list (list (double N))).

(** [m[i][j] = f (m[i][j])] on checked vectors. *)
Definition mat_update (i j : nat) (f : double N -> double N) (m : Matrix) : result Matrix :=
  row ← vec_at i m;
  row' ← vec_update j f row;
  mret (<[i := row']> m).

(** [m[i][j]], read as [d_zero] outside the matrix (used in statements only). *)
Definition mat_get (m : Matrix) (i j : nat) : double N :=
  default (d_zero N) (row ← m !! i; row !! j).

(** [oneMinusNullTrans[src][s_t.first] -= p; pExit[src] += p;] *)
Definition null_trans_step (src : StateIndex) (acc : Matrix * list (double N))
    (s_t : StateIndex * Trans) : result (Matrix * list (double N)) :=
  let '(m, pExit) := acc in
  let p := d_exp N (logWeight (snd s_t)) in
  m ← mat_update src (fst s_t) (fun x => d_sub N x p) m;
  pExit ← vec_update src (fun x => d_add N x p) pExit;
  mret (m, pExit).

(** The body of the innermost loop: the update, then the test against
    [SuspiciouslyLargeProbabilityWarningThreshold]. *)
Definition sumInTrans_trans (src : StateIndex)
    (acc : Matrix * list (double N) * list LogEvent) (s_t : StateIndex * Trans)
  : result (Matrix * list (double N) * list LogEvent) :=
  let '(m, pExit, log) := acc in
  '(m, pExit) ← null_trans_step src (m, pExit) s_t;
  pe ← vec_at src pExit;
  mret (m, pExit,
        if d_gt N pe (d_threshold N) then log ++ [Warning_pExit 6 src pe] else log).

(** [for (in_ost : state[src].outgoing) if (ost.count (nullToken)) for (s_t : ost.at (nullToken)) ...] *)
Definition sumInTrans_in (src : StateIndex)
    (acc : Matrix * list (double N) * list LogEvent)
    (in_ost : InputToken * OutStateTransMap)
  : result (Matrix * list (double N) * list LogEvent) :=
  match omap_find emptyToken (snd in_ost) with
  | Some stm => foldM (sumInTrans_trans src) stm acc
  | None => Ok acc
  end.

(** The body of the loop over [src]. *)
Definition sumInTrans_src (em : EvaluatedMachine)
    (acc : Matrix * list (double N) * list LogEvent) (src : StateIndex)
  : result (Matrix * list (double N) * list LogEvent) :=
  let '(m, pExit, log) := acc in
  m ← mat_update src src (fun _ => d_one N) m;
  ems ← vec_at src (em_state em);
  foldM (sumInTrans_in src) (outgoing ems) (m, pExit, log).

(** Lines 132 to 147: the matrix [oneMinusNullTrans], the vector [pExit]
    and the warnings issued on the way. *)
Definition oneMinusNullTrans (em : EvaluatedMachine)
  : result (Matrix * list (double N) * list LogEvent) :=
  let n := em_nStates em in
  foldM (sumInTrans_src em) (seq 0 n)
        (replicate n (replicate n (d_zero N)), replicate n (d_zero N), []).

(** Modelled from the spec: [log_matrix] of [logsumexp.h], "L = log(G)
    element-wise". *)
Definition log_matrix (m : Matrix) : list (list LogWeight) :=
  map (map (d_log N)) m.

(** Lines 149 to 163.  The conversions between [vguard<vguard<double> >]
    and [gsl_matrix] copy entry by entry and are left implicit; both
    statuses are dropped, as in the source. *)
Definition invert_and_log (m : Matrix) : result (list (list LogWeight)) :=
  '(lu, perm, signum, status) ← gsl_linalg_LU_decomp G m;
  '(inverse, status') ← gsl_linalg_LU_invert G lu perm;
  mret (log_matrix inverse).

(** [vguard<vguard<LogWeight> > EvaluatedMachine::sumInTrans() const]: the
    warnings issued, and the value returned or the failure. *)
Definition sumInTrans (em : EvaluatedMachine)
  : list LogEvent * result (list (list LogWeight)) :=
  match oneMinusNullTrans em with
  | Fatal e => ([], Fatal e)
  | Ok (m, _, log) => (log, invert_and_log m)
  end.

(** The same computation with the threshold test left out: what
    [sumInTrans] "would compute for those weights without the warning". *)
Definition silent_in (src : StateIndex) (acc : Matrix * list (double N))
    (in_ost : InputToken * OutStateTransMap) : result (Matrix * list (double N)) :=
  match omap_find emptyToken (snd in_ost) with
  | Some stm => foldM (null_trans_step src) stm acc
  | None => Ok acc
  end.

Definition silent_src (em : EvaluatedMachine) (acc : Matrix * list (double N))
    (src : StateIndex) : result (Matrix * list (double N)) :=
  let '(m, pExit) := acc in
  m ← mat_update src src (fun _ => d_one N) m;
  ems ← vec_at src (em_state em);
  foldM (silent_in src) (outgoing ems) (m, pExit).

Definition silent_oneMinusNullTrans (em : EvaluatedMachine)
  : result (Matrix * list (double N)) :=
  let n := em_nStates em in
  foldM (silent_src em) (seq 0 n)
        (replicate n (replicate n (d_zero N)), replicate n (d_zero N)).

Definition sumInTrans_silent (em : EvaluatedMachine) : result (list (list LogWeight)) :=
  '(m, _) ← silent_oneMinusNullTrans em; invert_and_log m.

(** ** Vocabulary for the statements *)

(** The output-empty transitions leaving a state, in the order [sumInTrans]
    visits them: by input token, then as the multimap lists them. *)
Definition nullTransitions (ems : EvaluatedMachineState) : list (StateIndex * Trans) :=
  flat_map (fun in_ost => default [] (omap_find emptyToken (snd in_ost))) (outgoing ems).

(** [exp (logWeight)] of the output-empty transitions from a state to [d]. *)
Definition nullWeights (ems : EvaluatedMachineState) (d : StateIndex) : list (double N) :=
  map (fun s_t => d_exp N (logWeight (snd s_t)))
      (filter (fun s_t => fst s_t = d) (nullTransitions ems)).

(** An edge as the evaluated machine stores it: input token, output token,
    neighbour, and the [Trans] record. *)
Local Abbreviation Entry := (InputToken * OutputToken * StateIndex * Trans)%type.

Definition entry_key (e : Entry) : nat * nat * nat := (fst (fst (fst e)), snd (fst (fst e)), snd (fst e)).
Definition entry_trans (e : Entry) : Trans := snd e.

(** The entries of a nested map in iteration order: by input token, by
    output token, then as the multimap lists them. *)
Definition iomap_entries (m : InOutStateTransMap) : list Entry :=
  flat_map (fun i_ostm =>
    flat_map (fun o_stm => map (fun s_t => (fst i_ostm, fst o_stm, fst s_t, snd s_t)) (snd o_stm))
             (snd i_ostm)) m.

(** All the transitions out of a state with their tokens, in the order
    [explicitMachine] visits them. *)
Definition outgoingEntries (ems : EvaluatedMachineState) : list Entry :=
  iomap_entries (outgoing ems).

Definition incomingEntries (ems : EvaluatedMachineState) : list Entry :=
  iomap_entries (incoming ems).

(** Lexicographic order on (input token, output token, neighbour). *)
Definition key_ltb (a b : nat * nat * nat) : bool :=
  let '(i, o, k) := a in
  let '(i', o', k') := b in
  if decide (i < i') then true
  else if decide (i' < i) then false
  else if decide (o < o') then true
  else if decide (o' < o) then false
  else if decide (k < k') then true else false.

Definition key_le (a b : nat * nat * nat) : Prop := key_ltb b a = false.

(** The order [explicitMachine] lists entries in. *)
Definition entry_le (e x : Entry) : Prop := key_le (entry_key e) (entry_key x).

(** Insertion that keeps equal keys in arrival order: [e] goes before the
    first entry whose key is greater. *)
Fixpoint lex_insert (e : Entry) (l : list Entry) : list Entry :=
  match l with
  | [] => [e]
  | x :: l' => if key_ltb (entry_key e) (entry_key x) then e :: l else x :: lex_insert e l'
  end.

(** A nested map as [trans_insert] keeps it: keys ascend strictly at both
    levels. *)
Definition iomap_wf (m : InOutStateTransMap) : Prop :=
  StronglySorted lt (map fst m) /\
  Forall (fun i_ostm => StronglySorted lt (map fst (snd i_ostm))) m.

(** [trans_insert] of an entry, and of a list of entries in order. *)
Definition insert_entry (m : InOutStateTransMap) (e : Entry) : InOutStateTransMap :=
  trans_insert (fst (fst (fst e))) (snd (fst (fst e))) (snd (fst e)) (snd e) m.

Definition insert_entries (es : list Entry) (m : InOutStateTransMap) : InOutStateTransMap :=
  fold_left insert_entry es m.

(** Insertion sort by [lex_insert]. *)
Definition lex_sort (es : list Entry) : list Entry :=
  fold_left (fun l e => lex_insert e l) es [].

(** What [init] computes for the transition numbered [ti] of a state. *)
Definition evaluated_trans (params : option Params) (inTok outTok : Tokenizer)
    (ti : TransIndex) (t : MachineTransition) : result Entry :=
  i ← sym2tok_at inTok (t_in t);
  o ← sym2tok_at outTok (t_out t);
  lw ← trans_logWeight params t;
  mret (i, o, dest t, {| logWeight := lw; transIndex := ti |}).

Fixpoint evaluated_list (params : option Params) (inTok outTok : Tokenizer)
    (ti : TransIndex) (trl : TransList) : result (list Entry) :=
  match trl with
  | [] => Ok []
  | t :: rest =>
      e ← evaluated_trans params inTok outTok ti t;
      es ← evaluated_list params inTok outTok (S ti) rest;
      mret (e :: es)
  end.

Definition entry_dest (e : Entry) : StateIndex := snd (fst e).

(** The entry that mirrors [e], an edge out of [s], in the incoming map of
    its destination. *)
Definition mirror_entry (s : StateIndex) (e : Entry) : Entry :=
  (fst (fst (fst e)), snd (fst (fst e)), s, snd e).

(** The two insertions [init] makes for the entry [e] of state [s]. *)
Definition store_entry (s : StateIndex) (st : list EvaluatedMachineState) (e : Entry)
  : list EvaluatedMachineState :=
  alter (add_incoming (fst (fst (fst e))) (snd (fst (fst e))) s (snd e)) (entry_dest e)
        (alter (add_outgoing (fst (fst (fst e))) (snd (fst (fst e))) (entry_dest e) (snd e)) s st).

(** State [k] after the entries [es] of state [s] have been stored. *)
Definition after_entries (s k : StateIndex) (es : list Entry) (ems : EvaluatedMachineState)
  : EvaluatedMachineState :=
  {| ems_name := ems_name ems;
     ems_nTransitions := ems_nTransitions ems;
     ems_transOffset := ems_transOffset ems;
     incoming := insert_entries (map (mirror_entry s) (filter (fun e => entry_dest e = k) es))
                                (incoming ems);
     outgoing := if decide (k = s) then insert_entries es (outgoing ems) else outgoing ems |}.

(** State [k] after the iteration of the outer loop for state [s], whose
    transitions evaluate to [es], entered with the running total [c]. *)
Definition after_state (s k : StateIndex) (ms : MachineState) (c : TransIndex)
    (es : list Entry) (ems : EvaluatedMachineState) : EvaluatedMachineState :=
  if decide (k = s)
  then set_counts (length (ms_trans ms)) c (after_entries s k es (set_name (ms_name ms) ems))
  else after_entries s k es ems.

(** State [k] after the iterations for the states [mss], numbered from [a]. *)
Fixpoint after_states (a : StateIndex) (c : TransIndex) (mss : list MachineState)
    (ess : list (list Entry)) (k : StateIndex) (ems : EvaluatedMachineState)
  : EvaluatedMachineState :=
  match mss, ess with
  | ms :: mss', es :: ess' =>
      after_states (S a) (c + length (ms_trans ms)) mss' ess' k (after_state a k ms c es ems)
  | _, _ => ems
  end.

(** The number of transitions of the states before [s]. *)
Definition transitions_before (m : Machine) (s : StateIndex) : nat :=
  length (flat_map ms_trans (take s (state m))).

(** The order of the reconstruction in full: by key, and by [transIndex]
    among entries with the same key. *)
Definition entry_lt (a b : Entry) : Prop :=
  key_ltb (entry_key a) (entry_key b) = true \/
  (entry_key a = entry_key b /\
   transIndex (entry_trans a) < transIndex (entry_trans b)).

(** What [explicitMachine] appends for an entry. *)
Definition entry_transition (em : EvaluatedMachine) (e : Entry) : result MachineTransition :=
  explicit_trans em (fst (fst (fst e))) (snd (fst (fst e))) (snd (fst e), snd e).

(** The transition [t] with the literal [exp (lw)] for its weight. *)
Definition with_weight (t : MachineTransition) (lw : double N) : MachineTransition :=
  {| t_in := t_in t; t_out := t_out t; dest := dest t;
     weight := weight_of_double W (d_exp N lw) |}.

Definition sum_doubles (l : list (double N)) : double N :=
  fold_left (d_add N) l (d_zero N).

(** [pExit[src]] when [sumInTrans] is done with the state: the weights of
    its output-empty transitions, added up in iteration order. *)
Definition exitProbability (ems : EvaluatedMachineState) : double N :=
  sum_doubles (map (fun s_t => d_exp N (logWeight (snd s_t))) (nullTransitions ems)).

(** The identity matrix, and entry [(s, d)] of [oneMinusNullTrans] when the
    loops are done: the identity's entry with the weights of the
    output-empty transitions from [s] to [d] taken off one by one. *)
Definition identity_entry (s d : StateIndex) : double N :=
  if decide (s = d) then d_one N else d_zero N.

Definition oneMinusNull_entry (ems : EvaluatedMachineState) (s d : StateIndex) : double N :=
  fold_left (d_sub N) (nullWeights ems d) (identity_entry s d).

(** An [n] by [n] matrix. *)
Definition matrix_shape (n : nat) (m : Matrix) : Prop :=
  length m = n /\ Forall (fun row => length row = n) m.

(** The invariant of the class: maps in key order, neighbours that are
    states. *)
Definition em_wf (em : EvaluatedMachine) : Prop :=
  forall s ems, em_state em !! s = Some ems ->
    iomap_wf (outgoing ems) /\
    Forall (fun e => entry_dest e < em_nStates em) (outgoingEntries ems).

(** The states the loop visits are states whose output-empty transitions
    lead to states. *)
Definition null_dests_in_range (em : EvaluatedMachine) : Prop :=
  forall s ems, em_state em !! s = Some ems ->
    Forall (fun s_t => fst s_t < em_nStates em) (nullTransitions ems).

(** The update of the innermost loop of [sumInTrans] and the iteration for
    [src], on vectors known to be long enough. *)
Definition null_step (src : StateIndex) (acc : Matrix * list (double N))
    (s_t : StateIndex * Trans) : Matrix * list (double N) :=
  let p := d_exp N (logWeight (snd s_t)) in
  (alter (alter (fun x => d_sub N x p) (fst s_t)) src (fst acc),
   alter (fun x => d_add N x p) src (snd acc)).

Definition null_src (em : EvaluatedMachine) (acc : Matrix * list (double N))
    (src : StateIndex) : Matrix * list (double N) :=
  fold_left (null_step src)
    (default [] (nullTransitions <$> em_state em !! src))
    (alter (alter (fun _ => d_one N) src) src (fst acc), snd acc).

(** Whenever an entry of [pExit] is above the threshold, the log holds the
    warning for it. *)
Definition warned (p : list (double N)) (log : list LogEvent) : Prop :=
  forall s pe, p !! s = Some pe -> d_gt N pe (d_threshold N) = true ->
    Warning_pExit 6 s pe ∈ log.

(** Both GSL routines return, whatever status they report, and [g] is what
    [gsl_linalg_LU_invert] leaves in its output matrix. *)
Definition gsl_returns (m g : Matrix) : Prop :=
  exists lu perm signum status status',
    gsl_linalg_LU_decomp G m = Ok (lu, perm, signum, status) /\
    gsl_linalg_LU_invert G lu perm = Ok (g, status').

(** Dropping the log from an outcome. *)
Definition without_log {A B} (r : result (A * B)) : result A :=
  match r with
  | Ok x => Ok (fst x)
  | Fatal e => Fatal e
  end.

(** What a successful construction has built, state by state: [ess] lists,
    for each state of the machine, its transitions as [init] evaluated
    them. *)
Definition built_from (machine : Machine) (params : option Params)
    (em : EvaluatedMachine) (ess : list (list Entry)) : Prop :=
  Forall2 (fun ms es =>
      evaluated_list params (inputTokenizer em) (outputTokenizer em) 0 (ms_trans ms) = Ok es)
    (state machine) ess /\
  Forall (Forall (fun e => entry_dest e < nStates machine)) ess /\
  forall s ms es, state machine !! s = Some ms -> ess !! s = Some es ->
    exists ems, em_state em !! s = Some ems /\
      ems_name ems = ms_name ms /\
      ems_nTransitions ems = length (ms_trans ms) /\
      ems_transOffset ems = transitions_before machine s /\
      outgoing ems = insert_entries es [] /\
      iomap_wf (incoming ems) /\
      forall x, x ∈ incomingEntries ems <->
        exists j es' e, ess !! j = Some es' /\ e ∈ es' /\ entry_dest e = s /\
                        x = mirror_entry j e.

(** What [init] asks of a transition: labels its tokenizers know, a
    destination among the [n] states, and, under a parameter binding, a
    weight that [WeightAlgebra::eval] evaluates. *)
Definition trans_evaluable (params : option Params) (inTok outTok : Tokenizer) (n : nat)
    (t : MachineTransition) : Prop :=
  is_Some (sym2tok inTok !! t_in t) /\
  is_Some (sym2tok outTok !! t_out t) /\
  dest t < n /\
  match params with
  | Some p => is_ok (eval W (weight t) (defs W p)) = true
  | None => True
  end.

(** The entry [e] with 0 for its [logWeight], as the constructor without
    parameters stores it. *)
Definition unweighted (e : Entry) : Entry :=
  (fst e, {| logWeight := d_zero N; transIndex := transIndex (snd e) |}).

(** The values [pExit[src]] takes as the weights [ws] are added to it one
    by one. *)
Fixpoint running_sums (acc : double N) (ws : list (double N)) : list (double N) :=
  match ws with
  | [] => []
  | w :: ws' => let a := d_add N acc w in a :: running_sums a ws'
  end.

(** The warnings [sumInTrans] issues while it visits state [s]: one for each
    output-empty transition after which the sum is above the threshold. *)
Definition state_warnings (s : StateIndex) (ems : EvaluatedMachineState) : list LogEvent :=
  map (Warning_pExit 6 s)
      (filter (fun v => d_gt N v (d_threshold N) = true)
              (running_sums (d_zero N)
                 (map (fun s_t => d_exp N (logWeight (snd s_t))) (nullTransitions ems)))).

(** The identity matrix of order [n]. *)
Definition identity_matrix (n : nat) : Matrix :=
  map (fun i => map (fun j => identity_entry i j) (seq 0 n)) (seq 0 n).

(** ** eval.cpp: stateNameJson *)

Definition json_is_null (j : json) : bool :=
  match j with
  | JNull => true
  | _ => false
  end.

Section StateNames.
(** [json::dump] of [json.hpp], the serializer, is a parameter. *)
Variable dump : json -> string.

(** [state[s].name.is_null() ? to_string (s) : state[s].name.dump()], where
    [to_string] writes the index in decimal. *)
Definition stateNameJson (em : EvaluatedMachine) (s : StateIndex) : result string :=
  ems ← vec_at s (em_state em);
  if json_is_null (ems_name ems) then mret (pretty s) else mret (dump (ems_name ems)).

End StateNames.

(** ** eval.cpp: startState, endState *)

(** [Assert (nStates() > 0, "EvaluatedMachine has no states"); return 0;] *)
Definition startState (em : EvaluatedMachine) : result StateIndex :=
  if decide (0 < em_nStates em) then Ok 0
  else Fatal (AssertionFailed "EvaluatedMachine has no states").

(** [Assert (nStates() > 0, "EvaluatedMachine has no states"); return nStates() - 1;] *)
Definition endState (em : EvaluatedMachine) : result StateIndex :=
  if decide (0 < em_nStates em) then Ok (em_nStates em - 1)
  else Fatal (AssertionFailed "EvaluatedMachine has no states").

End Model.

Arguments json : clear implicits.
Arguments Params : clear implicits.
Arguments WeightAlgebra : clear implicits.
Arguments Gsl : clear implicits.
Arguments gsl_returns {N} G m g.
Arguments Machine {N} W.
Arguments MachineState {N} W.
Arguments MachineTransition {N} W.
Arguments EvaluatedMachine : clear implicits.
Arguments EvaluatedMachineState : clear implicits.
Arguments Trans : clear implicits.
Arguments LogEvent : clear implicits.

(** The container types of [eval.h] and [machine.h], for the statements
    below. *)
Abbreviation TransList W := (list (MachineTransition W)).
Abbreviation StateTransMap N := (list (StateIndex * Trans N)).
Abbreviation OutStateTransMap N := (list (OutputToken * StateTransMap N)).
Abbreviation InOutStateTransMap N := (list (InputToken * OutStateTransMap N)).
Abbreviation Matrix N := (list (list (double N))).
Abbreviation Entry N := (InputToken * OutputToken * StateIndex * Trans N)%type.
Arguments entry_key {N} e : simpl never.
Arguments key_ltb a b : simpl never.

(** ** Arithmetic without rounding *)

(** [double] read as a real number or one of the three special values, with
    exact sums and differences and the values C fixes for [exp] and [log]
    at and outside the ends of their domains. *)
Module Ideal.
Local Open Scope R_scope.

Inductive xreal : Type :=
| Fin (r : R)
| PInf
| NInf
| NaN.

Definition xneg (x : xreal) : xreal :=
  match x with
  | Fin r => Fin (- r)
  | PInf => NInf
  | NInf => PInf
  | NaN => NaN
  end.

Definition xadd (x y : xreal) : xreal :=
  match x, y with
  | NaN, _ | _, NaN => NaN
  | Fin a, Fin b => Fin (a + b)
  | PInf, NInf | NInf, PInf => NaN
  | PInf, _ | _, PInf => PInf
  | NInf, _ | _, NInf => NInf
  end.

Definition xsub (x y : xreal) : xreal := xadd x (xneg y).

Definition Rgtb (a b : R) : bool := if Rgt_dec a b then true else false.

Definition xgt (x y : xreal) : bool :=
  match x, y with
  | NaN, _ | _, NaN => false
  | Fin a, Fin b => Rgtb a b
  | PInf, PInf | NInf, NInf => false
  | PInf, _ | _, NInf => true
  | _, PInf | NInf, _ => false
  end.

(** [x >= y], as the comparison the claims make on results. *)
Definition xge (x y : xreal) : bool :=
  match x, y with
  | NaN, _ | _, NaN => false
  | Fin a, Fin b => if Rge_dec a b then true else false
  | PInf, _ | _, NInf => true
  | _, PInf | NInf, _ => false
  end.

Definition xexp (x : xreal) : xreal :=
  match x with
  | Fin r => Fin (exp r)
  | PInf => PInf
  | NInf => Fin 0
  | NaN => NaN
  end.

Definition xlog (x : xreal) : xreal :=
  match x with
  | Fin r => if Rlt_dec 0 r then Fin (ln r)
             else if Req_dec_T r 0 then NInf else NaN
  | PInf => PInf
  | NInf | NaN => NaN
  end.

Definition ideal : Numerics :=
  {| double := xreal;
     d_zero := Fin 0;
     d_one := Fin 1;
     d_threshold := Fin (101 / 100);
     d_add := xadd;
     d_sub := xsub;
     d_gt := xgt;
     d_exp := xexp;
     d_log := xlog;
     d_of_Z := fun z => Fin (IZR z) |}.

(** [xreal] is read as [double ideal] wherever a [double] is expected. *)
Canonical Structure ideal.

(** Real matrices behind matrices of finite doubles. *)
Definition finite_matrix (n : nat) (a : nat -> nat -> R) (m : Matrix ideal) : Prop :=
  length m = n /\
  forall i, (i < n)%nat ->
    exists row, m !! i = Some row /\ length row = n /\
      forall j, (j < n)%nat -> row !! j = Some (Fin (a i j)).

Fixpoint Rsum (f : nat -> R) (n : nat) : R :=
  match n with
  | O => 0
  | S k => Rsum f k + f k
  end.

Definition kronecker (i j : nat) : R := if decide (i = j) then 1 else 0.

(** [g] is a two-sided inverse of [m]: both are finite and their real
    products are the identity. *)
Definition is_inverse (m g : Matrix ideal) : Prop :=
  exists (a b : nat -> nat -> R),
    finite_matrix (length m) a m /\ finite_matrix (length m) b g /\
    (forall i j, (i < length m)%nat -> (j < length m)%nat ->
       Rsum (fun k => a i k * b k j) (length m) = kronecker i j) /\
    (forall i j, (i < length m)%nat -> (j < length m)%nat ->
       Rsum (fun k => b i k * a k j) (length m) = kronecker i j).

(** A stand-in for GSL on matrices of order one, with the error handler
    GSL installs by default: [[a]] is its own LU factor and its inverse is
    [[1/a]], the quotient C computes; a zero pivot raises [GSL_EDOM], and
    the handler ends the run.  Matrices of other orders are outside the
    stand-in, which ends the run on them too. *)
Definition GSL_SUCCESS : Z := 0.
Definition GSL_EDOM : Z := 1.
Definition GSL_EBADLEN : Z := 19.

(** [1 / x] in C: the reciprocal of a non-zero real, and of the special
    values. *)
Definition xinv (x : xreal) : xreal :=
  match x with
  | Fin a => Fin (/ a)
  | PInf | NInf => Fin 0
  | NaN => NaN
  end.

Definition scalar_LU_invert (lu : Matrix ideal) (perm : unit)
  : result (Matrix ideal * Z) :=
  match lu with
  | [[Fin a]] => if Req_dec_T a 0 then Fatal (LibraryAbort GSL_EDOM)
                 else Ok ([[Fin (/ a)]], GSL_SUCCESS)
  | [[x]] => Ok ([[xinv x]], GSL_SUCCESS)
  | _ => Fatal (LibraryAbort GSL_EBADLEN)
  end.

Definition scalar_gsl : Gsl ideal :=
  {| gsl_permutation := unit;
     gsl_linalg_LU_decomp := fun m => Ok (m, tt, 1%Z, GSL_SUCCESS);
     gsl_linalg_LU_invert := scalar_LU_invert |}.

(** The real a finite double stands for; the special values stand for
    none. *)
Definition ideal_real (x : xreal) : option R :=
  match x with
  | Fin r => Some r
  | _ => None
  end.

(** A stand-in for GSL on one matrix: whatever it is given, its
    [gsl_linalg_LU_invert] writes [g] and reports success. *)
Definition constant_gsl (g : Matrix ideal) : Gsl ideal :=
  {| gsl_permutation := unit;
     gsl_linalg_LU_decomp := fun m => Ok (m, tt, 1%Z, GSL_SUCCESS);
     gsl_linalg_LU_invert := fun _ _ => Ok (g, GSL_SUCCESS) |}.

(** A fragment of the weight algebra: constants and references to named
    parameters, looked up in the binding. *)
Inductive leaf_expr : Type :=
| Lit (x : xreal)
| Ref (name : string).

Definition leaf_eval (e : leaf_expr) (defs : gmap string xreal) : result xreal :=
  match e with
  | Lit x => Ok x
  | Ref name =>
      match defs !! name with
      | Some x => Ok x
      | None => Fatal (WeightFailure name)
      end
  end.

Definition leaf_weights : WeightAlgebra ideal :=
  {| WeightExpr := leaf_expr;
     ParamDefs := gmap string xreal;
     defs := fun p : Params ideal => param p;
     weight_of_double := Lit;
     eval := leaf_eval |}.

Canonical Structure leaf_weights.

End Ideal.

(** ** Doubles read as real numbers *)

(** [b] is a two-sided inverse of [a], both of order [n]. *)
Definition inverse_reals (n : nat) (a b : nat -> nat -> R) : Prop :=
  (forall i j, i < n -> j < n ->
     Ideal.Rsum (fun k => a i k * b k j)%R n = Ideal.kronecker i j) /\
  (forall i j, i < n -> j < n ->
     Ideal.Rsum (fun k => b i k * a k j)%R n = Ideal.kronecker i j).

(** The total weight of the paths from [s] to [d] of at most [k] steps
    among [n] states, a step from [i] to [j] weighing [nu i j] and a path
    the product of its steps: the empty path when [s = d], and every first
    step followed by a path of at most [k - 1] steps. *)
Fixpoint path_sum (n : nat) (nu : nat -> nat -> R) (k : nat) (s d : nat) : R :=
  match k with
  | O => Ideal.kronecker s d
  | S k' => (Ideal.kronecker s d
             + Ideal.Rsum (fun j => nu s j * path_sum n nu k' j d) n)%R
  end.

(** The total weights of the paths of all lengths exist, and are [T]. *)
Definition paths_converge (n : nat) (nu T : nat -> nat -> R) : Prop :=
  forall s d, s < n -> d < n -> Un_cv (fun k => path_sum n nu k s d) (T s d).

Section Readings.
Context {N : Numerics}.
(** The real value of a finite double; infinities and NaN have none. *)
Variable real_of : double N -> option R.

(** The matrix [m], of order [n], holds finite doubles whose values are
    the entries of [a]. *)
Definition reads_as (n : nat) (a : nat -> nat -> R) (m : Matrix N) : Prop :=
  length m = n /\
  forall i, i < n ->
    exists row, m !! i = Some row /\ length row = n /\
      forall j, j < n -> exists x, row !! j = Some x /\ real_of x = Some (a i j).

(** What the statements about signs ask of the arithmetic: 0 and 1 are the
    doubles they are; taking [exp (lw)] off a double gives no more than
    the double, and a finite result only from a finite double; [log] of 1
    is 0, and [log] of a double that is at least 1 is a double that is at
    least 0. *)
Definition monotone_reading : Prop :=
  real_of (d_zero N) = Some 0%R /\
  real_of (d_one N) = Some 1%R /\
  (forall x lw r, real_of (d_sub N x (d_exp N lw)) = Some r ->
     exists rx, real_of x = Some rx /\ (r <= rx)%R) /\
  (forall x, real_of x = Some 1%R -> real_of (d_log N x) = Some 0%R) /\
  (forall x r, real_of x = Some r -> (1 <= r)%R ->
     exists r', real_of (d_log N x) = Some r' /\ (0 <= r')%R).



End Readings.

(** ** Sample inputs *)

Module Examples.
Import Ideal.
Local Open Scope R_scope.

(** [{"p": 0.25}], [{"p": "x"}] and a binding [{"q": 1}]. *)
Definition quarter_object : json ideal := JObject [("p", JFloat (Fin (1 / 4)))].
Definition string_object : json ideal := JObject [("p", JString "x")].
Definition prior_params : Params ideal := {| param := {["q" := Fin 1]} |}.

(** Two states, the second with a silent transition back to the first. *)
Definition backward_machine : Machine leaf_weights :=
  {| state := [ {| ms_name := JNull; ms_trans := [] |};
                {| ms_name := JNull;
                   ms_trans := [ {| t_in := ""; t_out := ""; dest := 0;
                                    weight := Lit (Fin 1) |} ] |} ] |}.

(** One transition, reading [a] with weight [p], and the binding
    [{"p": 0.25}]. *)
Definition quarter_trans : MachineTransition leaf_weights :=
  {| t_in := "a"; t_out := ""; dest := 1; weight := Ref "p" |}.

Definition quarter_state : MachineState leaf_weights :=
  {| ms_name := JString "start"; ms_trans := [quarter_trans] |}.

Definition quarter_machine : Machine leaf_weights :=
  {| state := [ quarter_state; {| ms_name := JString "end"; ms_trans := [] |} ] |}.

Definition quarter_params : Params ideal := {| param := {["p" := Fin (1 / 4)]} |}.

(** A state that first emits [A] and then steps silently, both to the end
    state. *)
Definition swap_state : MachineState leaf_weights :=
  {| ms_name := JString "start";
     ms_trans := [ {| t_in := ""; t_out := "A"; dest := 1; weight := Lit (Fin 1) |};
                   {| t_in := ""; t_out := ""; dest := 1; weight := Lit (Fin 1) |} ] |}.

Definition swap_machine : Machine leaf_weights :=
  {| state := [ swap_state; {| ms_name := JString "end"; ms_trans := [] |} ] |}.

(** One state with an output-empty transition to itself, of weight one
    when no parameters are given, and the machine evaluated. *)
Definition unit_loop_machine : Machine leaf_weights :=
  {| state := [ {| ms_name := JNull;
                   ms_trans := [ {| t_in := "a"; t_out := ""; dest := 0;
                                    weight := Lit (Fin 1) |} ] |} ] |}.

Definition unit_loop_em : EvaluatedMachine ideal :=
  {| inputTokenizer := Tokenizer_new ["a"];
     outputTokenizer := Tokenizer_new [];
     em_state :=
       [ {| ems_name := JNull; ems_nTransitions := 1; ems_transOffset := 0;
            incoming := [(1%nat, [(0%nat, [(0%nat, {| logWeight := Fin 0; transIndex := 0 |})])])];
            outgoing := [(1%nat, [(0%nat, [(0%nat, {| logWeight := Fin 0; transIndex := 0 |})])])] |} ];
     em_nTransitions := 1 |}.

(** One state with two output-empty transitions to itself, each of weight
    one when no parameters are given, and the machine evaluated. *)
Definition double_loop_machine : Machine leaf_weights :=
  {| state := [ {| ms_name := JNull;
                   ms_trans := [ {| t_in := "a"; t_out := ""; dest := 0;
                                    weight := Lit (Fin 1) |};
                                 {| t_in := "b"; t_out := ""; dest := 0;
                                    weight := Lit (Fin 1) |} ] |} ] |}.

Definition double_loop_em : EvaluatedMachine ideal :=
  {| inputTokenizer := Tokenizer_new ["a"; "b"];
     outputTokenizer := Tokenizer_new [];
     em_state :=
       [ {| ems_name := JNull; ems_nTransitions := 2; ems_transOffset := 0;
            incoming := [(1%nat, [(0%nat, [(0%nat, {| logWeight := Fin 0; transIndex := 0 |})])]);
                         (2%nat, [(0%nat, [(0%nat, {| logWeight := Fin 0; transIndex := 1 |})])])];
            outgoing := [(1%nat, [(0%nat, [(0%nat, {| logWeight := Fin 0; transIndex := 0 |})])]);
                         (2%nat, [(0%nat, [(0%nat, {| logWeight := Fin 0; transIndex := 1 |})])])] |} ];
     em_nTransitions := 2 |}.

(** One state whose only transition, to itself, writes [A], and the machine
    evaluated. *)
Definition emitting_machine : Machine leaf_weights :=
  {| state := [ {| ms_name := JNull;
                   ms_trans := [ {| t_in := ""; t_out := "A"; dest := 0;
                                    weight := Lit (Fin 1) |} ] |} ] |}.

Definition emitting_em : EvaluatedMachine ideal :=
  {| inputTokenizer := Tokenizer_new [];
     outputTokenizer := Tokenizer_new ["A"];
     em_state :=
       [ {| ems_name := JNull; ems_nTransitions := 1; ems_transOffset := 0;
            incoming := [(0%nat, [(1%nat, [(0%nat, {| logWeight := Fin 0; transIndex := 0 |})])])];
            outgoing := [(0%nat, [(1%nat, [(0%nat, {| logWeight := Fin 0; transIndex := 0 |})])])] |} ];
     em_nTransitions := 1 |}.

(** One state with an output-empty transition to itself of weight [p], to
    be evaluated under [{"p": 0.25}], and the machine evaluated. *)
Definition quarter_loop_machine : Machine leaf_weights :=
  {| state := [ {| ms_name := JNull;
                   ms_trans := [ {| t_in := "a"; t_out := ""; dest := 0;
                                    weight := Ref "p" |} ] |} ] |}.

Definition quarter_loop_em : EvaluatedMachine ideal :=
  {| inputTokenizer := Tokenizer_new ["a"];
     outputTokenizer := Tokenizer_new [];
     em_state :=
       [ {| ems_name := JNull; ems_nTransitions := 1; ems_transOffset := 0;
            incoming := [(1%nat, [(0%nat, [(0%nat,
                          {| logWeight := xlog (Fin (1 / 4)); transIndex := 0 |})])])];
            outgoing := [(1%nat, [(0%nat, [(0%nat,
                          {| logWeight := xlog (Fin (1 / 4)); transIndex := 0 |})])])] |} ];
     em_nTransitions := 1 |}.

(** The machine that emits [A] and then steps silently, evaluated; the
    matrix [sumInTrans] builds for it, and the inverse of that matrix. *)
Definition swap_em : EvaluatedMachine ideal :=
  {| inputTokenizer := Tokenizer_new [];
     outputTokenizer := Tokenizer_new ["A"];
     em_state :=
       [ {| ems_name := JString "start"; ems_nTransitions := 2; ems_transOffset := 0;
            incoming := [];
            outgoing := [(0%nat, [(0%nat, [(1%nat,
                            {| logWeight := Fin 0; transIndex := 1 |})]);
                                  (1%nat, [(1%nat,
                            {| logWeight := Fin 0; transIndex := 0 |})])])] |};
         {| ems_name := JString "end"; ems_nTransitions := 0; ems_transOffset := 2;
            incoming := [(0%nat, [(0%nat, [(0%nat,
                            {| logWeight := Fin 0; transIndex := 1 |})]);
                                  (1%nat, [(0%nat,
                            {| logWeight := Fin 0; transIndex := 0 |})])])];
            outgoing := [] |} ];
     em_nTransitions := 2 |}.

Definition swap_matrix : Matrix ideal :=
  [[Fin 1; Fin (0 + - exp 0)]; [Fin 0; Fin 1]].

Definition swap_inverse : Matrix ideal :=
  [[Fin 1; Fin (exp 0)]; [Fin 0; Fin 1]].

(** An evaluated machine with the output-empty transition of
    [unit_loop_em] and nothing else in common with it. *)
Definition relabelled_loop_em : EvaluatedMachine ideal :=
  {| inputTokenizer := Tokenizer_new ["x"; "y"];
     outputTokenizer := Tokenizer_new ["z"];
     em_state :=
       [ {| ems_name := JString "loop"; ems_nTransitions := 5; ems_transOffset := 3;
            incoming := [];
            outgoing := [(2%nat, [(0%nat, [(0%nat,
                            {| logWeight := Fin 0; transIndex := 4 |})])])] |} ];
     em_nTransitions := 9 |}.

(** What [explicitMachine] returns for [quarter_loop_em]. *)
Definition quarter_loop_explicit_trans : MachineTransition leaf_weights :=
  {| t_in := "a"; t_out := ""; dest := 0; weight := Lit (xexp (xlog (Fin (1 / 4)))) |}.

Definition quarter_loop_explicit : Machine leaf_weights :=
  {| state := [ {| ms_name := JNull; ms_trans := [quarter_loop_explicit_trans] |} ] |}.

End Examples.

(** * Results *)

(** ** nano/caller.h *)

Section BaseCallingFacts.
Import BaseCalling.
Local Open Scope Z_scope.

Lemma wrap_int_fits z : fits_int z -> wrap_int z = z.
Proof.
  unfold fits_int, wrap_int, int_min, int_max. intros Hz.
  rewrite Z.mod_small; lia.
Qed.

Lemma wrap_ull_fits z : fits_ull z -> wrap_ull z = z.
Proof. unfold fits_ull, wrap_ull. intros Hz. apply Z.mod_small; lia. Qed.

(** The shape shared by the three index functions: an [int] computed
    without overflow, converted and added to the k-mer. *)
Lemma index_sum_exact (i kmer : Z) :
  fits_int i -> fits_ull kmer -> fits_ull (1 + i + kmer) -> fits_int (1 + i) ->
  ull_add (wrap_ull (int_add 1 (wrap_int i))) kmer = 1 + i + kmer.
Proof.
  intros Hi Hk Hsum H1. unfold int_add, ull_add.
  rewrite (wrap_int_fits i Hi), (wrap_int_fits (1 + i) H1).
  unfold wrap_ull. rewrite Zplus_mod_idemp_l.
  apply Z.mod_small. exact Hsum.
Qed.

(** C9.  Whenever the [int] sub-expressions do not overflow and the result
    is a [StateIndex], the three index functions return exactly
    [1 + component * nKmers + kmer], [1 + components * nKmers + kmer] and
    [1 + (components + 1) * nKmers + kmer]. *)
Theorem kmer_indices_exact (m : BaseCallingMachine) (kmer component : Z) :
  fits_ull kmer ->
  (fits_int (component * nKmers m) -> fits_int (1 + component * nKmers m) ->
   fits_ull (1 + component * nKmers m + kmer) ->
   kmerEmit m kmer component = 1 + component * nKmers m + kmer) /\
  (fits_int (components m * nKmers m) -> fits_int (1 + components m * nKmers m) ->
   fits_ull (1 + components m * nKmers m + kmer) ->
   kmerEnd m kmer = 1 + components m * nKmers m + kmer) /\
  (fits_int (components m + 1) -> fits_int ((components m + 1) * nKmers m) ->
   fits_int (1 + (components m + 1) * nKmers m) ->
   fits_ull (1 + (components m + 1) * nKmers m + kmer) ->
   kmerStart m kmer = 1 + (components m + 1) * nKmers m + kmer).
Proof.
  intros Hk. unfold kmerEmit, kmerEnd, kmerStart, int_mul. repeat split.
  - intros. apply index_sum_exact; assumption.
  - intros. apply index_sum_exact; assumption.
  - intros Hc Hp H1 Hs. unfold int_add at 2.
    rewrite (wrap_int_fits _ Hc). apply index_sum_exact; assumption.
Qed.

(** Three components over 64 k-mers: k-mer 5 emits from component 1 at
    state 70, ends at state 198 and starts at state 262. *)
Lemma kmer_indices_exact_witness :
  kmerEmit {| components := 3; nKmers := 64 |} 5 1 = 70 /\
  kmerEnd {| components := 3; nKmers := 64 |} 5 = 198 /\
  kmerStart {| components := 3; nKmers := 64 |} 5 = 262.
Proof.
  assert (Hk : fits_ull 5) by (unfold fits_ull, ull_modulus; lia).
  destruct (kmer_indices_exact {| components := 3; nKmers := 64 |} 5 1 Hk)
    as (He & Hn & Hs).
  split; [|split].
  - apply He; unfold fits_int, fits_ull, int_min, int_max, ull_modulus; simpl; lia.
  - apply Hn; unfold fits_int, fits_ull, int_min, int_max, ull_modulus; simpl; lia.
  - apply Hs; unfold fits_int, fits_ull, int_min, int_max, ull_modulus; simpl; lia.
Defined.

End BaseCallingFacts.

(** ** params.cpp *)

Section ParamsFacts.
Context {N : Numerics}.
Implicit Types (l : list (string * json N)) (q : gmap string (double N)).

Lemma params_schema_object (pj : json N) :
  params_schema pj = true ->
  exists l, pj = JObject l /\ Forall (fun kv => json_is_number (snd kv) = true) l.
Proof.
  destruct pj; simpl; try discriminate. intros H.
  eexists; split; [reflexivity|].
  apply Forall_forall. intros kv Hin.
  rewrite forallb_forall in H. apply H. apply list_elem_of_In. exact Hin.
Qed.

Lemma json_number_get_double (v : json N) :
  json_is_number v = true -> exists d, json_get_double v = Ok d.
Proof. destruct v; simpl; try discriminate; eauto. Qed.

(** The loop over an object of numbers never throws; afterwards a key of
    the object is bound to its value and every other key is as before. *)
Lemma readJson_loop_numbers (order : AssignmentOrder) l q :
  Forall (fun kv => json_is_number (snd kv) = true) l ->
  NoDup (map fst l) ->
  exists q', readJson_loop order l q = (q', Ok ()) /\
    forall k d, q' !! k = Some d <->
      (exists v, (k, v) ∈ l /\ json_get_double v = Ok d) \/
      ((k ∉ map fst l) /\ q !! k = Some d).
Proof.
  revert q. induction l as [|[k0 v0] l IH]; intros q Hnum Hnd.
  - exists q. split; [reflexivity|]. intros k d. split.
    + intros Hq. right. split; [|exact Hq]. simpl. apply not_elem_of_nil.
    + intros [(v & Hin & _)|[_ Hq]]; [|exact Hq].
      exfalso. eapply not_elem_of_nil. exact Hin.
  - apply Forall_cons in Hnum as [Hv0 Hnum]. simpl in Hv0.
    apply NoDup_cons in Hnd as [Hk0 Hnd].
    destruct (json_number_get_double v0 Hv0) as [d0 Hd0].
    destruct (IH (<[k0 := d0]> q) Hnum Hnd) as (q' & Hrun & Hq').
    exists q'. split.
    + simpl. rewrite Hd0. exact Hrun.
    + intros k d. rewrite Hq'. simpl. split.
      * intros [(v & Hin & Hv)|[Hnot Hq]].
        -- left. exists v. split; [apply elem_of_cons; right; exact Hin|exact Hv].
        -- destruct (decide (k = k0)) as [->|Hne].
           ++ rewrite lookup_insert_eq in Hq. injection Hq as <-.
              left. exists v0. split; [apply elem_of_cons; left; reflexivity|exact Hd0].
           ++ rewrite lookup_insert_ne in Hq by congruence.
              right. split; [|exact Hq].
              intros Hin. apply elem_of_cons in Hin as [Heq|Hin]; [congruence|].
              exact (Hnot Hin).
      * intros [(v & Hin & Hv)|[Hnot Hq]].
        -- apply elem_of_cons in Hin as [Heq|Hin].
           ++ injection Heq as -> ->. right. split; [exact Hk0|].
              rewrite lookup_insert_eq. congruence.
           ++ left. exists v. split; [exact Hin|exact Hv].
        -- right. split.
           ++ intros Hin. apply Hnot. apply elem_of_cons. right. exact Hin.
           ++ rewrite lookup_insert_ne; [exact Hq|].
              intros ->. apply Hnot. apply elem_of_cons. left. reflexivity.
Qed.

(** C10.  [readJson] validates before it clears: when the schema check
    fails the object keeps its bindings and the call dies with the schema
    violation; when it passes (the check admitting only objects of
    numbers, whose keys are distinct) the call returns and the bindings
    afterwards are exactly those of the JSON object.  Both hold in either
    order of evaluation of the assignment. *)
Theorem readJson_validates_before_clearing
    (schema_valid : string -> json N -> bool) (order : AssignmentOrder)
    (pj : json N) (this : Params N) :
  (forall j, schema_valid "params" j = true -> params_schema j = true) ->
  json_object_keys_distinct pj ->
  if schema_valid "params" pj
  then exists after, readJson schema_valid order pj this = (after, Ok ()) /\
         forall k d, param after !! k = Some d <-> json_binds pj k d
  else readJson schema_valid order pj this = (this, Fatal (SchemaViolation "params")).
Proof.
  intros Hschema Hkeys. unfold readJson, validateOrDie.
  destruct (schema_valid "params" pj) eqn:Hvalid; [|reflexivity].
  destruct (params_schema_object pj (Hschema pj Hvalid)) as (l & -> & Hnum).
  simpl in Hkeys. simpl.
  destruct (readJson_loop_numbers order l ∅ Hnum Hkeys) as (q' & Hrun & Hq').
  rewrite Hrun. eexists. split; [reflexivity|].
  intros k d. simpl. rewrite Hq'. unfold json_binds. split.
  - intros [(v & Hin & Hv)|[_ Hq]].
    + exists l, v. auto.
    + rewrite lookup_empty in Hq. discriminate.
  - intros (l' & v & Heq & Hin & Hv). injection Heq as <-. left. eauto.
Qed.

End ParamsFacts.

(** A binding [{"q": 1}] reads [{"p": 0.25}] and holds just that; it reads
    [{"p": "x"}], which the schema rejects, and is left as it was. *)
Lemma readJson_validates_before_clearing_witness :
  (exists after,
     readJson (fun _ => params_schema) TargetFirst Examples.quarter_object Examples.prior_params
       = (after, Ok ()) /\
     forall k d, param after !! k = Some d <-> json_binds Examples.quarter_object k d) /\
  readJson (fun _ => params_schema) TargetFirst Examples.string_object Examples.prior_params
  = (Examples.prior_params, Fatal (SchemaViolation "params")).
Proof.
  split.
  - apply (readJson_validates_before_clearing
             (fun _ => params_schema) TargetFirst Examples.quarter_object Examples.prior_params).
    + intros j Hj. exact Hj.
    + simpl. apply NoDup_singleton.
  - apply (readJson_validates_before_clearing
             (fun _ => params_schema) TargetFirst Examples.string_object Examples.prior_params).
    + intros j Hj. exact Hj.
    + simpl. apply NoDup_singleton.
Defined.

(** ** Ordered containers *)

Section ContainerFacts.
Context {N : Numerics}.
Implicit Types (e x : Entry N) (l : list (Entry N)) (T : Trans N).

Lemma key_ltb_spec (a b : nat * nat * nat) :
  key_ltb a b = true <->
  (a.1.1 < b.1.1 \/ (a.1.1 = b.1.1 /\ (a.1.2 < b.1.2 \/ (a.1.2 = b.1.2 /\ a.2 < b.2)))).
Proof.
  destruct a as [[i o] k], b as [[i' o'] k']. simpl. unfold key_ltb.
  repeat case_decide; split; intros; try discriminate; try lia; reflexivity.
Qed.

Lemma key_ltb_false (a b : nat * nat * nat) :
  key_ltb a b = false <->
  (b.1.1 < a.1.1 \/ (a.1.1 = b.1.1 /\ (b.1.2 < a.1.2 \/ (a.1.2 = b.1.2 /\ b.2 <= a.2)))).
Proof.
  destruct a as [[i o] k], b as [[i' o'] k']. simpl. unfold key_ltb.
  repeat case_decide; split; intros; try discriminate; try lia; reflexivity.
Qed.

Lemma lex_insert_all_gt e l :
  Forall (fun x => key_ltb (entry_key e) (entry_key x) = true) l ->
  lex_insert e l = e :: l.
Proof. destruct l as [|x l]; [reflexivity|]. intros H. inversion H; subst. simpl. by rewrite H2. Qed.

Lemma lex_insert_app_gt e l1 l2 :
  Forall (fun x => key_ltb (entry_key e) (entry_key x) = true) l2 ->
  lex_insert e (l1 ++ l2) = lex_insert e l1 ++ l2.
Proof.
  intros H. induction l1 as [|x l1 IH]; simpl.
  - by apply lex_insert_all_gt.
  - destruct (key_ltb _ _); [reflexivity|]. by rewrite IH.
Qed.

Lemma lex_insert_app_le e l1 l2 :
  Forall (fun x => key_ltb (entry_key e) (entry_key x) = false) l1 ->
  lex_insert e (l1 ++ l2) = l1 ++ lex_insert e l2.
Proof.
  induction l1 as [|x l1 IH]; intros H; [reflexivity|].
  inversion H; subst. simpl. rewrite H2. by rewrite IH.
Qed.

Lemma lex_insert_perm e l : Permutation (lex_insert e l) (e :: l).
Proof.
  induction l as [|x l IH]; simpl; [reflexivity|].
  destruct (key_ltb _ _); [reflexivity|].
  rewrite IH. apply perm_swap.
Qed.

Lemma key_le_total (a b : nat * nat * nat) : key_ltb a b = true -> key_le a b.
Proof.
  unfold key_le. rewrite key_ltb_spec, key_ltb_false. lia.
Qed.

Lemma key_le_trans (a b c : nat * nat * nat) : key_le a b -> key_le b c -> key_le a c.
Proof. unfold key_le. rewrite !key_ltb_false. lia. Qed.

Lemma lex_insert_sorted e l :
  StronglySorted entry_le l -> StronglySorted entry_le (lex_insert e l).
Proof.
  induction 1 as [|x l Hl IH Hx]; simpl.
  - repeat constructor.
  - destruct (key_ltb (entry_key e) (entry_key x)) eqn:Hlt.
    + constructor; [by constructor|].
      assert (Hex : entry_le e x) by (by apply key_le_total).
      constructor; [exact Hex|].
      eapply Forall_impl; [exact Hx|]. intros y Hy. eapply key_le_trans; eauto.
    + constructor; [exact IH|].
      eapply Permutation_Forall; [symmetry; apply lex_insert_perm|].
      constructor; [exact Hlt|exact Hx].
Qed.

(** Strictly ascending keys, the invariant of [std::map]. *)
Lemma omap_update_keys {V} (k : nat) (f : V -> V) (dflt : V) (m : list (nat * V)) :
  StronglySorted lt (map fst m) ->
  StronglySorted lt (map fst (omap_update k f dflt m)) /\
  forall k', k' ∈ map fst (omap_update k f dflt m) -> k' = k \/ k' ∈ map fst m.
Proof.
  induction m as [|[k0 v0] m IH]; simpl; intros Hs.
  - split; [repeat constructor|]. intros k' Hk'. left. by apply list_elem_of_singleton in Hk'.
  - inversion Hs as [|? ? Hm Hall]; subst.
    destruct (decide (k < k0)) as [Hlt|Hge]; [|destruct (decide (k = k0)) as [->|Hne]]; simpl.
    + split.
      * constructor; [exact Hs|]. constructor; [exact Hlt|].
        eapply Forall_impl; [exact Hall|]. simpl. intros; lia.
      * intros k' Hk'. apply elem_of_cons in Hk' as [->|Hk']; auto.
    + split; [exact Hs|]. intros k' Hk'. right. exact Hk'.
    + destruct (IH Hm) as [IHs IHk]. split.
      * constructor; [exact IHs|]. apply Forall_forall. intros k' Hk'.
        destruct (IHk k' Hk') as [->|Hin]; [lia|].
        rewrite Forall_forall in Hall. by apply Hall.
      * intros k' Hk'. apply elem_of_cons in Hk' as [->|Hk'].
        -- right. apply elem_of_cons. by left.
        -- destruct (IHk k' Hk') as [->|Hin]; [by left|].
           right. apply elem_of_cons. by right.
Qed.

Lemma omap_update_Forall {V} (P : nat * V -> Prop) (k : nat) (f : V -> V) (dflt : V)
    (m : list (nat * V)) :
  Forall P m -> P (k, f dflt) -> (forall v, P (k, v) -> P (k, f v)) ->
  Forall P (omap_update k f dflt m).
Proof.
  intros Hm Hd Hf. induction Hm as [|[k0 v0] m H0 Hm IH]; simpl.
  - by repeat constructor.
  - destruct (decide (k < k0)); [by repeat constructor|].
    destruct (decide (k = k0)) as [->|]; constructor; auto.
Qed.

(** Updating one key of a sorted map inserts into its flattening, when the
    flattening of each value is ordered as the keys are. *)
Lemma flat_map_omap_update {V} (g : nat * V -> list (Entry N)) (k : nat) (f : V -> V)
    (dflt : V) (m : list (nat * V)) e :
  StronglySorted lt (map fst m) ->
  (forall k' v x, x ∈ g (k', v) -> k' < k -> key_ltb (entry_key e) (entry_key x) = false) ->
  (forall k' v x, x ∈ g (k', v) -> k < k' -> key_ltb (entry_key e) (entry_key x) = true) ->
  (forall v, (k, v) ∈ m -> g (k, f v) = lex_insert e (g (k, v))) ->
  g (k, f dflt) = [e] ->
  flat_map g (omap_update k f dflt m) = lex_insert e (flat_map g m).
Proof.
  intros Hs Hlt Hgt Hf Hd. induction m as [|[k0 v0] m IH]; simpl.
  - by rewrite Hd.
  - inversion Hs as [|? ? Hm Hall]; subst.
    assert (Hafter : k <= k0 ->
      Forall (fun x => key_ltb (entry_key e) (entry_key x) = true) (flat_map g m)).
    { intros Hle. apply Forall_forall. intros x Hx.
      apply list_elem_of_In, in_flat_map in Hx as ([k1 v1] & Hin & Hx).
      apply (Hgt k1 v1 x); [by apply list_elem_of_In|].
      rewrite Forall_forall in Hall.
      assert (k0 < k1); [|lia].
      apply Hall. apply list_elem_of_In, in_map_iff. exists (k1, v1). auto. }
    destruct (decide (k < k0)) as [Hk|Hk]; [|destruct (decide (k = k0)) as [->|Hne]]; simpl.
    + rewrite Hd. simpl. symmetry. apply lex_insert_all_gt.
      apply Forall_app. split; [|apply Hafter; lia].
      apply Forall_forall. intros x Hx. by apply (Hgt k0 v0 x).
    + rewrite Hf by (apply elem_of_cons; by left).
      symmetry. apply lex_insert_app_gt. apply Hafter. lia.
    + rewrite IH; [|exact Hm|].
      * symmetry. apply lex_insert_app_le.
        apply Forall_forall. intros x Hx. apply (Hlt k0 v0 x Hx). lia.
      * intros v Hv. apply Hf. apply elem_of_cons. by right.
Qed.

Lemma map_mmap_insert (i o k : nat) T (stm : StateTransMap N) :
  map (fun s_t : nat * Trans N => (i, o, fst s_t, snd s_t)) (mmap_insert k T stm)
  = lex_insert (i, o, k, T) (map (fun s_t => (i, o, fst s_t, snd s_t)) stm).
Proof.
  induction stm as [|[k0 T0] stm IH]; simpl; [reflexivity|].
  assert (Hkey : key_ltb (entry_key (i, o, k, T)) (entry_key (i, o, k0, T0))
                 = bool_decide (k < k0)).
  { unfold entry_key. simpl. apply eq_true_iff_eq. rewrite key_ltb_spec. simpl.
    rewrite bool_decide_eq_true. lia. }
  rewrite Hkey. destruct (decide (k < k0)) as [Hlt|Hge].
  - by rewrite bool_decide_eq_true_2.
  - rewrite bool_decide_eq_false_2 by done. simpl. by rewrite IH.
Qed.

Lemma iomap_entries_trans_insert (i o k : nat) T (m : InOutStateTransMap N) :
  iomap_wf m ->
  iomap_entries (trans_insert i o k T m) = lex_insert (i, o, k, T) (iomap_entries m)
  /\ iomap_wf (trans_insert i o k T m).
Proof.
  intros [Hkeys Hinner]. split.
  - unfold iomap_entries, trans_insert.
    apply flat_map_omap_update with (e := (i, o, k, T)); [exact Hkeys| | | |].
    + intros i' ost x Hx Hlt.
      apply list_elem_of_In, in_flat_map in Hx as ([o' stm] & _ & Hx).
      apply in_map_iff in Hx as ([k' T'] & <- & _).
      apply key_ltb_false. unfold entry_key. simpl. lia.
    + intros i' ost x Hx Hlt.
      apply list_elem_of_In, in_flat_map in Hx as ([o' stm] & _ & Hx).
      apply in_map_iff in Hx as ([k' T'] & <- & _).
      apply key_ltb_spec. unfold entry_key. simpl. lia.
    + intros ost Hin. simpl.
      rewrite Forall_forall in Hinner. specialize (Hinner _ Hin). simpl in Hinner.
      apply flat_map_omap_update with (e := (i, o, k, T)); [exact Hinner| | | |].
      * intros o' stm x Hx Hlt. simpl in Hx.
        apply list_elem_of_In, in_map_iff in Hx as ([k' T'] & <- & _).
        apply key_ltb_false. unfold entry_key. simpl. lia.
      * intros o' stm x Hx Hlt. simpl in Hx.
        apply list_elem_of_In, in_map_iff in Hx as ([k' T'] & <- & _).
        apply key_ltb_spec. unfold entry_key. simpl. lia.
      * intros stm _. simpl. apply map_mmap_insert.
      * reflexivity.
    + reflexivity.
  - unfold trans_insert. split.
    + by apply omap_update_keys.
    + apply omap_update_Forall; [exact Hinner| |].
      * simpl. repeat constructor.
      * simpl. intros ost Host. by apply omap_update_keys.
Qed.

Lemma iomap_entries_insert_entries (es : list (Entry N)) (m : InOutStateTransMap N) :
  iomap_wf m ->
  iomap_entries (insert_entries es m)
  = fold_left (fun l e => lex_insert e l) es (iomap_entries m)
  /\ iomap_wf (insert_entries es m).
Proof.
  revert m. induction es as [|[[[i o] k] T] es IH]; intros m Hwf; simpl; [done|].
  destruct (iomap_entries_trans_insert i o k T m Hwf) as [Heq Hwf'].
  unfold insert_entry. simpl.
  destruct (IH _ Hwf') as [IHeq IHwf]. rewrite IHeq, Heq. done.
Qed.

Lemma iomap_wf_nil : iomap_wf ([] : InOutStateTransMap N).
Proof. split; constructor. Qed.

Lemma fold_lex_insert_perm (es l : list (Entry N)) :
  Permutation (fold_left (fun l e => lex_insert e l) es l) (l ++ es).
Proof.
  revert l. induction es as [|e es IH]; intros l; simpl.
  - by rewrite app_nil_r.
  - rewrite IH, lex_insert_perm. simpl. apply Permutation_middle.
Qed.

Lemma fold_lex_insert_sorted (es l : list (Entry N)) :
  StronglySorted entry_le l ->
  StronglySorted entry_le (fold_left (fun l e => lex_insert e l) es l).
Proof.
  revert l. induction es as [|e es IH]; intros l Hl; simpl; [done|].
  apply IH. by apply lex_insert_sorted.
Qed.

(** What a state's nested map lists after the entries [es] went in, one
    after the other, starting from the empty map: [es] sorted by (input
    token, output token, neighbour). *)
Lemma iomap_entries_from_empty (es : list (Entry N)) :
  iomap_entries (insert_entries es []) = lex_sort es
  /\ Permutation (lex_sort es) es
  /\ StronglySorted entry_le (lex_sort es)
  /\ iomap_wf (insert_entries es []).
Proof.
  destruct (iomap_entries_insert_entries es [] iomap_wf_nil) as [Heq Hwf].
  split; [exact Heq|]. split; [|split; [|exact Hwf]].
  - unfold lex_sort. by rewrite fold_lex_insert_perm.
  - apply fold_lex_insert_sorted. constructor.
Qed.

(** In a sorted map the entry for a key, if any, is what [find] returns. *)
Lemma omap_find_sorted {V} (k : nat) (m : list (nat * V)) :
  StronglySorted lt (map fst m) ->
  forall v, omap_find k m = Some v <-> (k, v) ∈ m.
Proof.
  induction m as [|[k0 v0] m IH]; simpl; intros Hs v.
  - split; [discriminate|]. intros H. by apply not_elem_of_nil in H.
  - inversion Hs as [|? ? Hm Hall]; subst.
    destruct (decide (k0 = k)) as [->|Hne].
    + split.
      * intros [= ->]. apply elem_of_cons. by left.
      * intros Hin. apply elem_of_cons in Hin as [[= ->]|Hin]; [done|].
        rewrite Forall_forall in Hall.
        assert (k < k); [|lia]. apply Hall.
        apply list_elem_of_fmap. exists (k, v). done.
    + rewrite (IH Hm). split.
      * intros Hin. apply elem_of_cons. by right.
      * intros Hin. apply elem_of_cons in Hin as [[= -> ->]|Hin]; [done|done].
Qed.

End ContainerFacts.

(** ** The result monad and checked vectors *)

Section ResultFacts.

Lemma bind_Ok {A B} (r : result A) (k : A -> result B) (b : B) :
  (r ≫= k) = Ok b <-> exists a, r = Ok a /\ k a = Ok b.
Proof.
  destruct r as [a|e]; simpl; split.
  - intros H. exists a. done.
  - intros (a' & [= <-] & H). done.
  - discriminate.
  - intros (a' & [=] & _).
Qed.

Lemma foldM_cons {A B} (f : B -> A -> result B) (a : A) (l : list A) (b r : B) :
  foldM f (a :: l) b = Ok r <-> exists b', f b a = Ok b' /\ foldM f l b' = Ok r.
Proof. simpl. apply bind_Ok. Qed.

Lemma foldM_app {A B} (f : B -> A -> result B) (l1 l2 : list A) (b : B) :
  foldM f (l1 ++ l2) b = (foldM f l1 b ≫= foldM f l2).
Proof.
  revert b. induction l1 as [|a l1 IH]; intros b; simpl; [done|].
  destruct (f b a) as [b'|e]; simpl; [apply IH|done].
Qed.

Lemma vec_update_Ok {A} (i : nat) (f : A -> A) (l l' : list A) :
  vec_update i f l = Ok l' <-> i < length l /\ l' = alter f i l.
Proof.
  unfold vec_update. destruct (l !! i) as [x|] eqn:Hx.
  - assert (Heq : <[i := f x]> l = alter f i l).
    { apply list_eq. intros j. destruct (decide (i = j)) as [<-|Hne].
      - rewrite list_lookup_alter_eq, Hx, list_lookup_insert_eq; [done|].
        by eapply lookup_lt_Some.
      - by rewrite list_lookup_alter_ne, list_lookup_insert_ne. }
    rewrite Heq. split.
    + intros [= <-]. split; [by eapply lookup_lt_Some|done].
    + by intros [_ ->].
  - split; [discriminate|]. intros [Hlt _].
    apply lookup_ge_None_1 in Hx. lia.
Qed.

Lemma Ok_inj {A} (a b : A) : Ok a = Ok b -> a = b.
Proof. by intros [= ->]. Qed.

Lemma vec_at_Ok {A} (i : nat) (l : list A) (x : A) :
  vec_at i l = Ok x <-> l !! i = Some x.
Proof. unfold vec_at. destruct (l !! i); split; congruence. Qed.

End ResultFacts.

(** Splits a successful monadic sequence into its steps. *)
Ltac inv_ok H :=
  repeat match type of H with
  | (_ ≫= _) = Ok _ =>
      let a := fresh "a" in let Ha := fresh "Hstep" in
      apply bind_Ok in H as (a & Ha & H)
  | mret _ = Ok _ => apply Ok_inj in H
  | Ok _ = Ok _ => apply Ok_inj in H
  end.

(** ** Construction *)

Section InitFacts.
Context {N : Numerics} {W : WeightAlgebra N}.
Implicit Types (st : list (EvaluatedMachineState N)) (e : Entry N) (es : list (Entry N))
  (t : MachineTransition W) (trl : list (MachineTransition W)) (ms : MachineState W)
  (params : option (Params N)) (inTok outTok : Tokenizer).

Lemma init_trans_Ok params inTok outTok (s : nat) st (ti : nat) t r :
  init_trans params inTok outTok s (st, ti) t = Ok r <->
  exists e, evaluated_trans params inTok outTok ti t = Ok e /\
    s < length st /\ entry_dest e < length st /\ r = (store_entry s st e, S ti).
Proof.
  unfold init_trans, evaluated_trans. split.
  - intros H. inv_ok H. 
    apply vec_update_Ok in Hstep2 as [Hs ->].
    apply vec_update_Ok in Hstep3 as [Hd ->].
    rewrite length_alter in Hd.
    subst r. eexists. rewrite Hstep, Hstep0, Hstep1. simpl. split; [reflexivity|].
    split; [done|]. split; [done|]. reflexivity.
  - intros ([[[i o] d] T] & He & Hs & Hd & ->).
    inv_ok He. injection He as <- <- <- <-.
    rewrite Hstep, Hstep0, Hstep1. simpl.
    unfold entry_dest in Hd. simpl in Hd.
    assert (H1 : vec_update s (add_outgoing a a0 (dest t) {| logWeight := a1; transIndex := ti |}) st
                 = Ok (alter (add_outgoing a a0 (dest t) {| logWeight := a1; transIndex := ti |}) s st)).
    { by apply vec_update_Ok. }
    rewrite H1. simpl.
    assert (H2 : vec_update (dest t) (add_incoming a a0 s {| logWeight := a1; transIndex := ti |})
                   (alter (add_outgoing a a0 (dest t) {| logWeight := a1; transIndex := ti |}) s st)
                 = Ok (alter (add_incoming a a0 s {| logWeight := a1; transIndex := ti |}) (dest t)
                        (alter (add_outgoing a a0 (dest t) {| logWeight := a1; transIndex := ti |}) s st))).
    { apply vec_update_Ok. by rewrite length_alter. }
    rewrite H2. reflexivity.
Qed.

Lemma store_entry_length (s : nat) st e : length (store_entry s st e) = length st.
Proof. unfold store_entry. by rewrite !length_alter. Qed.

Lemma store_entries_length (s : nat) es st :
  length (fold_left (store_entry s) es st) = length st.
Proof.
  revert st. induction es as [|e es IH]; intros st; simpl; [done|].
  by rewrite IH, store_entry_length.
Qed.

Lemma init_trans_fold params inTok outTok (s : nat) trl st (ti : nat) r :
  foldM (init_trans params inTok outTok s) trl (st, ti) = Ok r <->
  exists es, evaluated_list params inTok outTok ti trl = Ok es /\
    (trl <> [] -> s < length st) /\
    Forall (fun e => entry_dest e < length st) es /\
    r = (fold_left (store_entry s) es st, ti + length trl).
Proof.
  revert st ti. induction trl as [|t trl IH]; intros st ti.
  - simpl. split.
    + intros [= <-]. exists []. repeat split; try done. by rewrite Nat.add_0_r.
    + intros (es & [= <-] & _ & _ & ->). simpl. by rewrite Nat.add_0_r.
  - rewrite foldM_cons. split.
    + intros ([st1 ti1] & H1 & H2).
      apply init_trans_Ok in H1 as (e & He & Hs & Hd & [= -> ->]).
      apply IH in H2 as (es & Hes & _ & Hall & ->).
      exists (e :: es). simpl. rewrite He. simpl. rewrite Hes. simpl.
      rewrite store_entry_length in Hall.
      repeat split; try done.
      * by constructor.
      * f_equal. lia.
    + intros (es & Hes & Hs & Hall & ->).
      simpl in Hes. inv_ok Hes. subst es.
      apply Forall_cons in Hall as [Hd Hall].
      exists (store_entry s st a, S ti). split.
      * apply init_trans_Ok. exists a. repeat split; try done. by apply Hs.
      * apply IH. exists a0. rewrite store_entry_length.
        repeat split; try done.
        -- intros _. by apply Hs.
        -- simpl. f_equal. lia.
Qed.

Lemma insert_entries_app es1 es2 (m : InOutStateTransMap N) :
  insert_entries (es1 ++ es2) m = insert_entries es2 (insert_entries es1 m).
Proof. unfold insert_entries. apply fold_left_app. Qed.

Lemma store_entry_lookup (s k : nat) st e :
  store_entry s st e !! k = after_entries s k [e] <$> st !! k.
Proof.
  destruct e as [[[i o] d] T].
  unfold store_entry, after_entries, insert_entry, mirror_entry, entry_dest.
  rewrite filter_cons, filter_nil. simpl.
  destruct (decide (d = k)) as [<-|Hd]; destruct (decide (d = s)) as [<-|Hs].
  - rewrite !list_lookup_alter_eq. by destruct (st !! d).
  - rewrite list_lookup_alter_eq, list_lookup_alter_ne by done. by destruct (st !! d).
  - rewrite list_lookup_alter_ne by done. destruct (decide (k = d)) as [->|Hk]; [done|].
    rewrite list_lookup_alter_ne by done. destruct (st !! k) as [[]|]; done.
  - rewrite list_lookup_alter_ne by done. destruct (decide (k = s)) as [->|Hk].
    + rewrite list_lookup_alter_eq. by destruct (st !! s).
    + rewrite list_lookup_alter_ne by done. destruct (st !! k) as [[]|]; done.
Qed.

Lemma after_entries_cons (s k : nat) e es (ems : EvaluatedMachineState N) :
  after_entries s k es (after_entries s k [e] ems) = after_entries s k (e :: es) ems.
Proof.
  unfold after_entries. simpl. f_equal.
  - rewrite <- insert_entries_app, <- map_app. do 2 f_equal.
    rewrite (filter_cons _ e es), (filter_cons _ e []), filter_nil.
    by case_decide.
  - by case_decide.
Qed.

Lemma store_entries_lookup (s k : nat) es st :
  fold_left (store_entry s) es st !! k = after_entries s k es <$> st !! k.
Proof.
  revert st. induction es as [|e es IH]; intros st; simpl.
  - destruct (st !! k) as [ems|]; simpl; [|done].
    f_equal. unfold after_entries. rewrite filter_nil. simpl.
    destruct ems; simpl. by case_decide.
  - rewrite IH, store_entry_lookup.
    destruct (st !! k) as [ems|]; simpl; [|done].
    by rewrite after_entries_cons.
Qed.

Lemma init_state_Ok params inTok outTok st (c s : nat) ms r :
  init_state params inTok outTok (st, c) (s, ms) = Ok r <->
  exists es, evaluated_list params inTok outTok 0 (ms_trans ms) = Ok es /\
    s < length st /\
    Forall (fun e => entry_dest e < length st) es /\
    r = (alter (set_counts (length (ms_trans ms)) c) s
           (fold_left (store_entry s) es (alter (set_name (ms_name ms)) s st)),
         c + length (ms_trans ms)).
Proof.
  unfold init_state. split.
  - intros H. inv_ok H.
    apply vec_update_Ok in Hstep as [Hs ->].
    destruct a0 as [st2 ti].
    apply init_trans_fold in Hstep0 as (es & Hes & _ & Hall & [= -> ->]).
    inv_ok H. apply vec_update_Ok in Hstep as [_ ->]. subst r.
    rewrite length_alter in Hall.
    exists es. done.
  - intros (es & Hes & Hs & Hall & ->).
    apply bind_Ok. eexists. split; [by apply vec_update_Ok|].
    apply bind_Ok. eexists. split.
    + apply init_trans_fold. exists es. rewrite length_alter. done.
    + simpl. apply bind_Ok. eexists. split; [|reflexivity].
      apply vec_update_Ok. by rewrite store_entries_length, length_alter.
Qed.

Lemma init_state_lookup (s k c : nat) ms es st :
  alter (set_counts (length (ms_trans ms)) c) s
    (fold_left (store_entry s) es (alter (set_name (ms_name ms)) s st)) !! k
  = after_state s k ms c es <$> st !! k.
Proof.
  unfold after_state. destruct (decide (k = s)) as [->|Hk].
  - rewrite list_lookup_alter_eq, store_entries_lookup, list_lookup_alter_eq.
    by destruct (st !! s) as [ems|].
  - rewrite list_lookup_alter_ne by done.
    rewrite store_entries_lookup, list_lookup_alter_ne by done.
    by destruct (st !! k) as [ems|].
Qed.

Lemma init_states_fold params inTok outTok (mss : list (MachineState W)) (a c : nat) st r :
  foldM (init_state params inTok outTok) (zip (seq a (length mss)) mss) (st, c) = Ok r ->
  exists ess,
    Forall2 (fun ms es => evaluated_list params inTok outTok 0 (ms_trans ms) = Ok es) mss ess /\
    Forall (Forall (fun e => entry_dest e < length st)) ess /\
    (mss <> [] -> a + length mss <= length st) /\
    snd r = c + length (flat_map ms_trans mss) /\
    length (fst r) = length st /\
    forall k, fst r !! k = after_states a c mss ess k <$> st !! k.
Proof.
  revert a c st. induction mss as [|ms mss IH]; intros a c st.
  - simpl. intros [= <-]. exists []. simpl.
    split; [constructor|]. split; [constructor|]. split; [done|].
    split; [lia|]. split; [done|]. intros k. by destruct (st !! k).
  - simpl. intros H. apply bind_Ok in H as ([st1 c1] & H1 & H2).
    apply init_state_Ok in H1 as (es & Hes & Hs & Hall & [= -> ->]).
    apply IH in H2 as (ess & Hess & Halls & Hlen & Hc & Hl & Hlook).
    rewrite length_alter, store_entries_length, length_alter in Halls, Hlen, Hl.
    exists (es :: ess).
    split; [by constructor|]. split; [by constructor|].
    split; [|split; [|split]].
    + intros _. destruct mss as [|ms' mss]; simpl in *; [lia|].
      assert (ms' :: mss <> []) by done. specialize (Hlen H). lia.
    + rewrite Hc, length_app. lia.
    + exact Hl.
    + intros k. rewrite Hlook, init_state_lookup. simpl.
      by destruct (st !! k).
Qed.

(** Name, counts and outgoing map of state [k] are written only by the
    iteration for [k]. *)
Lemma after_entries_frame (s k : nat) es (ems : EvaluatedMachineState N) :
  ems_name (after_entries s k es ems) = ems_name ems /\
  ems_nTransitions (after_entries s k es ems) = ems_nTransitions ems /\
  ems_transOffset (after_entries s k es ems) = ems_transOffset ems /\
  (k <> s -> outgoing (after_entries s k es ems) = outgoing ems).
Proof.
  unfold after_entries. simpl. repeat split. intros Hk. by rewrite decide_False.
Qed.

Lemma after_states_before (a c k : nat) (mss : list (MachineState W)) ess
    (ems : EvaluatedMachineState N) :
  k < a ->
  ems_name (after_states a c mss ess k ems) = ems_name ems /\
  ems_nTransitions (after_states a c mss ess k ems) = ems_nTransitions ems /\
  ems_transOffset (after_states a c mss ess k ems) = ems_transOffset ems /\
  outgoing (after_states a c mss ess k ems) = outgoing ems.
Proof.
  revert a c ess ems. induction mss as [|ms mss IH]; intros a c ess ems Hk; [done|].
  destruct ess as [|es ess]; [done|]. simpl.
  destruct (IH (S a) (c + length (ms_trans ms)) ess (after_state a k ms c es ems))
    as (-> & -> & -> & ->); [lia|].
  unfold after_state. rewrite decide_False by lia.
  destruct (after_entries_frame a k es ems) as (? & ? & ? & Hout).
  repeat split; try done. apply Hout. lia.
Qed.

Lemma after_states_at (a c j : nat) (mss : list (MachineState W)) ess ms es
    (ems : EvaluatedMachineState N) :
  mss !! j = Some ms -> ess !! j = Some es ->
  ems_name (after_states a c mss ess (a + j) ems) = ms_name ms /\
  ems_nTransitions (after_states a c mss ess (a + j) ems) = length (ms_trans ms) /\
  ems_transOffset (after_states a c mss ess (a + j) ems)
    = c + length (flat_map ms_trans (take j mss)) /\
  outgoing (after_states a c mss ess (a + j) ems) = insert_entries es (outgoing ems).
Proof.
  revert a c j ess ems. induction mss as [|ms0 mss IH]; intros a c j ess ems Hms Hes;
    [done|].
  destruct ess as [|es0 ess]; [done|]. simpl.
  destruct j as [|j]; simpl in Hms, Hes.
  - injection Hms as ->. injection Hes as ->. rewrite Nat.add_0_r.
    destruct (after_states_before (S a) (c + length (ms_trans ms)) a mss ess
                (after_state a a ms c es ems)) as (-> & -> & -> & ->); [lia|].
    unfold after_state. rewrite decide_True by done. simpl.
    rewrite decide_True by done. repeat split; try done; try lia.
  - replace (a + S j) with (S a + j) by lia.
    destruct (IH (S a) (c + length (ms_trans ms0)) j ess
                (after_state a (S a + j) ms0 c es0 ems) Hms Hes) as (-> & -> & -> & ->).
    unfold after_state. rewrite decide_False by lia.
    destruct (after_entries_frame a (S a + j) es0 ems) as (_ & _ & _ & Hout).
    rewrite Hout by lia. repeat split; try done.
    simpl. rewrite length_app. lia.
Qed.

(** What an incoming map holds: what it held, and the mirrors of the
    entries that point at the state. *)
Lemma elem_of_insert_entries (l : list (Entry N)) (m : InOutStateTransMap N) x :
  iomap_wf m ->
  x ∈ iomap_entries (insert_entries l m) <-> x ∈ iomap_entries m \/ x ∈ l.
Proof.
  intros Hwf. destruct (iomap_entries_insert_entries l m Hwf) as [-> _].
  rewrite fold_lex_insert_perm. apply elem_of_app.
Qed.

Lemma after_states_incoming (a c k : nat) (mss : list (MachineState W)) ess
    (ems : EvaluatedMachineState N) :
  length mss = length ess ->
  iomap_wf (incoming ems) ->
  iomap_wf (incoming (after_states a c mss ess k ems)) /\
  forall x, x ∈ iomap_entries (incoming (after_states a c mss ess k ems)) <->
    x ∈ iomap_entries (incoming ems) \/
    exists j es e, ess !! j = Some es /\ e ∈ es /\ entry_dest e = k /\
                   x = mirror_entry (a + j) e.
Proof.
  revert a c ess ems. induction mss as [|ms mss IH]; intros a c ess ems Hlen Hwf.
  - destruct ess; [|done]. simpl. split; [done|]. intros x. split; [auto|].
    intros [H|(j & es & e & H & _)]; [done|]. by rewrite lookup_nil in H.
  - destruct ess as [|es ess]; [done|]. simpl in Hlen. injection Hlen as Hlen. simpl.
    assert (Hinc : incoming (after_state a k ms c es ems)
                   = insert_entries (map (mirror_entry a) (filter (fun e => entry_dest e = k) es))
                                    (incoming ems)).
    { unfold after_state. by case_decide. }
    assert (Hwf1 : iomap_wf (incoming (after_state a k ms c es ems))).
    { rewrite Hinc. by apply iomap_entries_insert_entries. }
    destruct (IH (S a) (c + length (ms_trans ms)) ess _ Hlen Hwf1) as [Hwf2 Hmem].
    split; [exact Hwf2|]. intros x. rewrite Hmem, Hinc, elem_of_insert_entries by done.
    split.
    + intros [[Hold|Hnew]|(j & es' & e & Hj & He & Hd & ->)].
      * by left.
      * right. apply list_elem_of_fmap in Hnew as (e & -> & He).
        apply list_elem_of_filter in He as [Hd He].
        exists 0, es, e. rewrite Nat.add_0_r. done.
      * right. exists (S j), es', e. replace (a + S j) with (S a + j) by lia. done.
    + intros [Hold|(j & es' & e & Hj & He & Hd & ->)].
      * left. by left.
      * destruct j as [|j]; simpl in Hj.
        -- injection Hj as <-. left. right. rewrite Nat.add_0_r.
           apply list_elem_of_fmap. exists e. split; [done|].
           by apply list_elem_of_filter.
        -- right. exists j, es', e. replace (S a + j) with (a + S j) by lia. done.
Qed.

Lemma EvaluatedMachine_new_Ok (machine : Machine W) params (em : EvaluatedMachine N) :
  EvaluatedMachine_new machine params = Ok em ->
  isAdvancingMachine machine = true /\
  inputTokenizer em = Tokenizer_new (inputAlphabet machine) /\
  outputTokenizer em = Tokenizer_new (outputAlphabet machine) /\
  em_nStates em = nStates machine /\
  em_nTransitions em = length (allTransitions machine) /\
  exists ess, built_from machine params em ess.
Proof.
  unfold EvaluatedMachine_new, init.
  destruct (isAdvancingMachine machine); [|discriminate].
  intros H. apply bind_Ok in H as ([st c] & Hfold & H). apply Ok_inj in H. subst em.
  rewrite length_replicate in Hfold. unfold nStates in Hfold.
  apply init_states_fold in Hfold as (ess & Hess & Hdest & _ & Hc & Hlen & Hlook).
  simpl in Hc, Hlen, Hlook. rewrite length_replicate in Hlen, Hdest.
  unfold em_nStates. simpl.
  split; [done|]. split; [done|]. split; [done|]. split; [done|]. split; [by subst c|].
  exists ess. unfold built_from. simpl.
  split; [exact Hess|]. split; [exact Hdest|].
  intros s ms es Hms Hes.
  assert (Hs : s < nStates machine) by (by eapply lookup_lt_Some).
  rewrite Hlook, lookup_replicate_2 by exact Hs. simpl.
  eexists. split; [reflexivity|].
  destruct (after_states_at 0 0 s (state machine) ess ms es EvaluatedMachineState_new Hms Hes)
    as (Hn & Hnt & Hoff & Hout).
  simpl in Hn, Hnt, Hoff, Hout.
  split; [exact Hn|]. split; [exact Hnt|]. split; [exact Hoff|]. split; [exact Hout|].
  destruct (after_states_incoming 0 0 s (state machine) ess EvaluatedMachineState_new)
    as [Hwf Hmem].
  { by eapply Forall2_length. }
  { apply iomap_wf_nil. }
  split; [exact Hwf|]. intros x. unfold incomingEntries. rewrite Hmem. simpl. split.
  - intros [Hx|Hx]; [|exact Hx]. by apply not_elem_of_nil in Hx.
  - intros Hx. by right.
Qed.

Lemma evaluated_list_lookup params inTok outTok (ti : nat) trl es :
  evaluated_list params inTok outTok ti trl = Ok es ->
  length es = length trl /\
  forall idx t, trl !! idx = Some t ->
    exists e, es !! idx = Some e /\ evaluated_trans params inTok outTok (ti + idx) t = Ok e.
Proof.
  revert ti es. induction trl as [|t0 trl IH]; intros ti es H; simpl in H.
  - apply Ok_inj in H. subst es. split; [done|]. intros idx t Ht. by rewrite lookup_nil in Ht.
  - inv_ok H. subst es. destruct (IH _ _ Hstep0) as [Hlen Hlook]. split; [simpl; by rewrite Hlen|].
    intros [|idx] t Ht; simpl in Ht.
    + injection Ht as ->. exists a. by rewrite Nat.add_0_r.
    + destruct (Hlook idx t Ht) as (e & He & Hev). exists e. split; [done|].
      by replace (ti + S idx) with (S ti + idx) by lia.
Qed.

Lemma evaluated_trans_Ok params inTok outTok (ti : nat) t e :
  evaluated_trans params inTok outTok ti t = Ok e <->
  exists i o lw, sym2tok_at inTok (t_in t) = Ok i /\ sym2tok_at outTok (t_out t) = Ok o /\
    trans_logWeight params t = Ok lw /\
    e = (i, o, dest t, {| logWeight := lw; transIndex := ti |}).
Proof.
  unfold evaluated_trans. split.
  - intros H. inv_ok H. eauto 10.
  - intros (i & o & lw & -> & -> & -> & ->). done.
Qed.

(** Every transition of the machine is among the entries of its state, and
    mirrored among the incoming entries of its destination. *)
Lemma built_from_stores (machine : Machine W) params (em : EvaluatedMachine N) ess
    (s idx : nat) ms t :
  built_from machine params em ess ->
  state machine !! s = Some ms -> ms_trans ms !! idx = Some t ->
  exists e ems emd,
    evaluated_trans params (inputTokenizer em) (outputTokenizer em) idx t = Ok e /\
    em_state em !! s = Some ems /\ e ∈ outgoingEntries ems /\
    em_state em !! dest t = Some emd /\ mirror_entry s e ∈ incomingEntries emd.
Proof.
  intros (Hess & Hdest & Hst) Hms Ht.
  destruct (Forall2_lookup_l _ _ _ _ _ Hess Hms) as (es & Hes & Hev).
  destruct (evaluated_list_lookup _ _ _ _ _ _ Hev) as [_ Hlook].
  destruct (Hlook idx t Ht) as (e & He & Hevt). simpl in Hevt.
  destruct (Hst s ms es Hms Hes) as (ems & Hems & _ & _ & _ & Hout & _).
  assert (Hed : entry_dest e = dest t).
  { apply evaluated_trans_Ok in Hevt as (i & o & lw & _ & _ & _ & ->). done. }
  assert (Hd : dest t < nStates machine).
  { rewrite <- Hed. rewrite Forall_forall in Hdest.
    specialize (Hdest es (list_elem_of_lookup_2 _ _ _ Hes)).
    rewrite Forall_forall in Hdest. apply Hdest. by eapply list_elem_of_lookup_2. }
  destruct (lookup_lt_is_Some_2 (state machine) (dest t) Hd) as [msd Hmsd].
  destruct (Forall2_lookup_l _ _ _ _ _ Hess Hmsd) as (esd & Hesd & _).
  destruct (Hst (dest t) msd esd Hmsd Hesd) as (emd & Hemd & _ & _ & _ & _ & _ & Hin).
  exists e, ems, emd. split; [exact Hevt|]. split; [exact Hems|]. split.
  - unfold outgoingEntries. rewrite Hout.
    destruct (iomap_entries_from_empty es) as (-> & Hperm & _).
    rewrite Hperm. by eapply list_elem_of_lookup_2.
  - split; [exact Hemd|]. apply Hin. exists s, es, e.
    split; [done|]. split; [by eapply list_elem_of_lookup_2|]. done.
Qed.

(** C2.  Either constructor asserts that the machine is advancing: when it
    is not, the construction dies with the assertion's message and there is
    no evaluated machine; an evaluated machine is only ever built from an
    advancing machine. *)
Theorem construction_asserts_advancing (machine : Machine W) params :
  (isAdvancingMachine machine = false ->
   EvaluatedMachine_new machine params
   = Fatal (AssertionFailed "Machine is not topologically sorted")) /\
  (forall em : EvaluatedMachine N,
     EvaluatedMachine_new machine params = Ok em -> isAdvancingMachine machine = true).
Proof.
  split.
  - intros Hadv. unfold EvaluatedMachine_new, init. by rewrite Hadv.
  - intros em Hem. by apply EvaluatedMachine_new_Ok in Hem as (Hadv & _).
Qed.

(** C3.  For the transition numbered [idx] of state [s], with labels
    tokenized to [i] and [o], the evaluated machine holds the record
    [(logWeight, idx)] under [outgoing[i][o]] of [s], keyed by the
    destination, and under [incoming[i][o]] of the destination, keyed by
    [s]; [logWeight] is [log (eval (weight, defs))] when a binding was
    given and [0] when none was.  Every outgoing record arises so. *)
Theorem init_stores_logWeight (machine : Machine W) params (em : EvaluatedMachine N)
    (s : nat) ms :
  EvaluatedMachine_new machine params = Ok em ->
  state machine !! s = Some ms ->
  exists ems, em_state em !! s = Some ems /\
  (forall idx t, ms_trans ms !! idx = Some t ->
    exists i o lw emd,
      sym2tok_at (inputTokenizer em) (t_in t) = Ok i /\
      sym2tok_at (outputTokenizer em) (t_out t) = Ok o /\
      match params with
      | Some p => exists v, eval W (weight t) (defs W p) = Ok v /\ lw = d_log N v
      | None => lw = d_zero N
      end /\
      (i, o, dest t, {| logWeight := lw; transIndex := idx |}) ∈ outgoingEntries ems /\
      em_state em !! dest t = Some emd /\
      (i, o, s, {| logWeight := lw; transIndex := idx |}) ∈ incomingEntries emd) /\
  (forall e, e ∈ outgoingEntries ems ->
    exists idx t, ms_trans ms !! idx = Some t /\
      evaluated_trans params (inputTokenizer em) (outputTokenizer em) idx t = Ok e).
Proof.
  intros Hnew Hms.
  apply EvaluatedMachine_new_Ok in Hnew as (_ & _ & _ & _ & _ & ess & Hbuilt).
  pose proof Hbuilt as (Hess & _ & Hst).
  destruct (Forall2_lookup_l _ _ _ _ _ Hess Hms) as (es & Hes & Hev).
  destruct (Hst s ms es Hms Hes) as (ems & Hems & _ & _ & _ & Hout & _).
  exists ems. split; [exact Hems|]. split.
  - intros idx t Ht.
    destruct (built_from_stores machine params em ess s idx ms t Hbuilt Hms Ht)
      as (e & ems' & emd & Hevt & Hems' & Heout & Hemd & Hein).
    assert (ems' = ems) as -> by congruence.
    apply evaluated_trans_Ok in Hevt as (i & o & lw & Hi & Ho & Hlw & ->).
    exists i, o, lw, emd. split; [exact Hi|]. split; [exact Ho|]. split.
    + unfold trans_logWeight in Hlw. destruct params as [p|].
      * inv_ok Hlw. eauto.
      * by apply Ok_inj in Hlw.
    + split; [exact Heout|]. split; [exact Hemd|exact Hein].
  - intros e He. unfold outgoingEntries in He. rewrite Hout in He.
    destruct (iomap_entries_from_empty es) as (Heq & Hperm & _).
    rewrite Heq, Hperm in He.
    apply list_elem_of_lookup_1 in He as (idx & Hidx).
    destruct (evaluated_list_lookup _ _ _ _ _ _ Hev) as [Hlen Hlook].
    destruct (lookup_lt_is_Some_2 (ms_trans ms) idx) as [t Ht].
    { rewrite <- Hlen. by eapply lookup_lt_Some. }
    destruct (Hlook idx t Ht) as (e' & He' & Hevt).
    assert (e' = e) as -> by congruence.
    exists idx, t. done.
Qed.

End InitFacts.

(** The machine whose second state steps silently back to the first is
    refused by both constructors. *)
Lemma construction_asserts_advancing_witness :
  EvaluatedMachine_new Examples.backward_machine None
  = Fatal (AssertionFailed "Machine is not topologically sorted") /\
  EvaluatedMachine_new Examples.backward_machine (Some Examples.quarter_params)
  = Fatal (AssertionFailed "Machine is not topologically sorted").
Proof.
  split.
  - apply (construction_asserts_advancing Examples.backward_machine None). reflexivity.
  - apply (construction_asserts_advancing Examples.backward_machine
             (Some Examples.quarter_params)). reflexivity.
Defined.

Section InitWitnesses.
Import Ideal Examples.

(** The machine that reads [a] with weight [p], under [{"p": 0.25}]: its
    one transition is stored with [logWeight = log 0.25] and index 0. *)
Lemma init_stores_logWeight_witness :
  exists em,
    EvaluatedMachine_new quarter_machine (Some quarter_params) = Ok em /\
    exists ems, em_state em !! 0 = Some ems /\
    exists i o lw emd,
      sym2tok_at (inputTokenizer em) "a" = Ok i /\
      sym2tok_at (outputTokenizer em) "" = Ok o /\
      (exists v, leaf_eval (Ref "p") (param quarter_params) = Ok v /\
                 lw = xlog v) /\
      (i, o, 1, {| logWeight := lw; transIndex := 0 |}) ∈ outgoingEntries ems /\
      em_state em !! 1 = Some emd /\
      (i, o, 0, {| logWeight := lw; transIndex := 0 |}) ∈ incomingEntries emd.
Proof.
  assert (Hnew : exists em,
    EvaluatedMachine_new quarter_machine (Some quarter_params) = Ok em).
  { eexists. reflexivity. }
  destruct Hnew as [em Hem]. exists em. split; [exact Hem|].
  destruct (init_stores_logWeight quarter_machine (Some quarter_params)
              em 0 quarter_state Hem eq_refl) as (ems & Hems & Hfwd & _).
  exists ems. split; [exact Hems|].
  exact (Hfwd 0 quarter_trans eq_refl).
Defined.

End InitWitnesses.

(** ** Transition counts and indices *)

Section IndexFacts.
Context {N : Numerics} {W : WeightAlgebra N}.

Lemma length_flat_map_sum {A B} (f : A -> list B) (l : list A) :
  length (flat_map f l) = sum_list (map (fun x => length (f x)) l).
Proof.
  induction l as [|x l IH]; simpl; [done|]. by rewrite length_app, IH.
Qed.

Lemma flat_map_lookup {A B} (f : A -> list B) (l : list A) (s idx : nat) x y :
  l !! s = Some x -> f x !! idx = Some y ->
  flat_map f l !! (length (flat_map f (take s l)) + idx) = Some y.
Proof.
  intros Hs Hidx.
  assert (Hl : flat_map f l = flat_map f (take s l) ++ f x ++ flat_map f (drop (S s) l)).
  { rewrite <- (take_drop_middle l s x Hs) at 1. by rewrite flat_map_app. }
  rewrite Hl, lookup_app_r by lia.
  replace (length (flat_map f (take s l)) + idx - length (flat_map f (take s l)))
    with idx by lia.
  rewrite lookup_app_l; [done|]. by eapply lookup_lt_Some.
Qed.

Lemma evaluated_list_indices params inTok outTok (ti : nat)
    (trl : list (MachineTransition W)) (es : list (Entry N)) :
  evaluated_list params inTok outTok ti trl = Ok es ->
  map (fun e => transIndex (entry_trans e)) es = seq ti (length trl).
Proof.
  revert ti es. induction trl as [|t trl IH]; intros ti es H; simpl in H.
  - apply Ok_inj in H. by subst es.
  - inv_ok H. subst es. simpl. rewrite (IH _ _ Hstep0). f_equal.
    apply evaluated_trans_Ok in Hstep as (i & o & lw & _ & _ & _ & ->). done.
Qed.

Lemma built_from_counts (machine : Machine W) params (em : EvaluatedMachine N) ess :
  em_nStates em = nStates machine ->
  built_from machine params em ess ->
  map ems_nTransitions (em_state em) = map (fun ms => length (ms_trans ms)) (state machine).
Proof.
  intros Hn (Hess & _ & Hst). apply list_eq. intros s.
  rewrite !list_lookup_fmap.
  destruct (state machine !! s) as [ms|] eqn:Hms.
  - destruct (Forall2_lookup_l _ _ _ _ _ Hess Hms) as (es & Hes & _).
    destruct (Hst s ms es Hms Hes) as (ems & -> & _ & Hnt & _). simpl. by rewrite Hnt.
  - apply lookup_ge_None_1 in Hms.
    rewrite lookup_ge_None_2; [done|]. unfold em_nStates, nStates in Hn. lia.
Qed.

(** C7.  In the evaluated machine of [machine]: a state's [nTransitions]
    counts its transitions; the transition numbered [idx] in the machine's
    list is stored with [transIndex = idx], and the indices of a state are
    [0 .. nTransitions - 1]; [transOffset] is the sum of [nTransitions]
    over the states before, so that [transOffset + transIndex] is the
    position of the transition among all the machine's transitions; and
    the machine-level [nTransitions] is the sum over the states. *)
Theorem transition_indices_dense (machine : Machine W) params (em : EvaluatedMachine N) :
  EvaluatedMachine_new machine params = Ok em ->
  em_nTransitions em = sum_list (map ems_nTransitions (em_state em)) /\
  forall s ms, state machine !! s = Some ms ->
    exists ems, em_state em !! s = Some ems /\
      ems_nTransitions ems = length (ms_trans ms) /\
      ems_transOffset ems = sum_list (map ems_nTransitions (take s (em_state em))) /\
      Permutation (map (fun e => transIndex (entry_trans e)) (outgoingEntries ems))
                  (seq 0 (ems_nTransitions ems)) /\
      forall idx t, ms_trans ms !! idx = Some t ->
        (exists e, e ∈ outgoingEntries ems /\ transIndex (entry_trans e) = idx /\
           evaluated_trans params (inputTokenizer em) (outputTokenizer em) idx t = Ok e) /\
        allTransitions machine !! (ems_transOffset ems + idx) = Some t.
Proof.
  intros Hnew.
  apply EvaluatedMachine_new_Ok in Hnew as (_ & _ & _ & Hn & Htot & ess & Hbuilt).
  pose proof (built_from_counts machine params em ess Hn Hbuilt) as Hcounts.
  pose proof Hbuilt as (Hess & _ & Hst).
  split.
  - rewrite Htot, Hcounts. apply length_flat_map_sum.
  - intros s ms Hms.
    destruct (Forall2_lookup_l _ _ _ _ _ Hess Hms) as (es & Hes & Hev).
    destruct (Hst s ms es Hms Hes) as (ems & Hems & _ & Hnt & Hoff & Hout & _).
    exists ems. split; [exact Hems|]. split; [exact Hnt|].
    assert (Hentries : Permutation (outgoingEntries ems) es).
    { unfold outgoingEntries. rewrite Hout.
      destruct (iomap_entries_from_empty es) as (-> & Hperm & _). exact Hperm. }
    split; [|split].
    + rewrite Hoff. unfold transitions_before.
      rewrite length_flat_map_sum, <- !firstn_map. by rewrite Hcounts.
    + rewrite Hentries, Hnt. by rewrite (evaluated_list_indices _ _ _ 0 _ _ Hev).
    + intros idx t Ht. split.
      * destruct (built_from_stores machine params em ess s idx ms t Hbuilt Hms Ht)
          as (e & ems' & _ & Hevt & Hems' & He & _).
        assert (ems' = ems) as -> by congruence.
        exists e. split; [exact He|]. split; [|exact Hevt].
        apply evaluated_trans_Ok in Hevt as (i & o & lw & _ & _ & _ & ->). done.
      * rewrite Hoff. unfold transitions_before, allTransitions.
        by apply flat_map_lookup with (x := ms).
Qed.

End IndexFacts.

Section IndexWitnesses.
Import Ideal Examples.

(** The machine that reads [a] with weight [p]: one transition in all, at
    global position 0. *)
Lemma transition_indices_dense_witness :
  exists em,
    EvaluatedMachine_new quarter_machine (Some quarter_params) = Ok em /\
    em_nTransitions em = sum_list (map ems_nTransitions (em_state em)) /\
    exists ems, em_state em !! 0 = Some ems /\
      ems_nTransitions ems = 1 /\
      ems_transOffset ems = sum_list (map ems_nTransitions (take 0 (em_state em))) /\
      Permutation (map (fun e => transIndex (entry_trans e)) (outgoingEntries ems))
                  (seq 0 (ems_nTransitions ems)) /\
      allTransitions quarter_machine !! (ems_transOffset ems + 0) = Some quarter_trans.
Proof.
  assert (Hnew : exists em,
    EvaluatedMachine_new quarter_machine (Some quarter_params) = Ok em).
  { eexists. reflexivity. }
  destruct Hnew as [em Hem]. exists em. split; [exact Hem|].
  destruct (transition_indices_dense quarter_machine (Some quarter_params) em Hem)
    as [Htot Hst].
  split; [exact Htot|].
  destruct (Hst 0 quarter_state eq_refl) as (ems & Hems & Hnt & Hoff & Hperm & Hidx).
  exists ems. split; [exact Hems|]. split; [exact Hnt|]. split; [exact Hoff|].
  split; [exact Hperm|].
  exact (proj2 (Hidx 0 quarter_trans eq_refl)).
Defined.

End IndexWitnesses.

(** ** explicitMachine *)

Section TokenizerFacts.

Lemma index_symbols_fold (l : list string) (a : nat) (m0 : gmap string nat) sym tok :
  fold_left (fun m '(tok, sym) => <[sym := tok]> m) (zip (seq a (length l)) l) m0 !! sym
    = Some tok ->
  m0 !! sym = Some tok \/ (a <= tok /\ l !! (tok - a) = Some sym).
Proof.
  revert a m0. induction l as [|s l IH]; intros a m0; simpl; [auto|].
  intros H. apply IH in H as [H|[Hle H]].
  - destruct (decide (s = sym)) as [->|Hne].
    + rewrite lookup_insert_eq in H. injection H as <-.
      right. split; [lia|]. by rewrite Nat.sub_diag.
    + rewrite lookup_insert_ne in H by done. by left.
  - right. split; [lia|].
    replace (tok - a) with (S (tok - S a)) by lia. done.
Qed.

(** A token the tokenizer gives a symbol leads back to the symbol. *)
Lemma tok2sym_sym2tok (alphabet : list string) (sym : string) (tok : nat) :
  sym2tok_at (Tokenizer_new alphabet) sym = Ok tok ->
  tok2sym_at (Tokenizer_new alphabet) tok = Ok sym.
Proof.
  unfold sym2tok_at, tok2sym_at, Tokenizer_new. simpl.
  destruct (index_symbols _ !! sym) as [t|] eqn:H; [|discriminate].
  intros [= ->]. unfold index_symbols in H.
  apply index_symbols_fold in H as [H|[_ H]].
  - by rewrite lookup_empty in H.
  - rewrite Nat.sub_0_r in H. by apply vec_at_Ok.
Qed.

End TokenizerFacts.

Section ExplicitFacts.
Context {N : Numerics} {W : WeightAlgebra N}.
Implicit Types (e x : Entry N) (l es : list (Entry N)).

Lemma entry_lt_trans e x y : entry_lt e x -> entry_lt x y -> entry_lt e y.
Proof.
  unfold entry_lt. rewrite !key_ltb_spec.
  destruct (entry_key e) as [[i1 o1] k1], (entry_key x) as [[i2 o2] k2],
    (entry_key y) as [[i3 o3] k3]. simpl.
  intros [H1|[[= -> -> ->] H1]] [H2|[[= -> -> ->] H2]];
    first [left; lia | right; split; [done|lia]].
Qed.

Lemma lex_insert_sorted_lt e l :
  StronglySorted entry_lt l ->
  Forall (fun x => transIndex (entry_trans x) < transIndex (entry_trans e)) l ->
  StronglySorted entry_lt (lex_insert e l).
Proof.
  induction 1 as [|x l Hl IH Hx]; intros Hti; simpl.
  - repeat constructor.
  - apply Forall_cons in Hti as [Htx Hti].
    destruct (key_ltb (entry_key e) (entry_key x)) eqn:Hlt.
    + assert (Hex : entry_lt e x) by (by left).
      constructor; [by constructor|]. constructor; [exact Hex|].
      eapply Forall_impl; [exact Hx|]. intros y Hy. by eapply entry_lt_trans.
    + constructor; [by apply IH|].
      eapply Permutation_Forall; [symmetry; apply lex_insert_perm|].
      constructor; [|exact Hx].
      unfold entry_lt. apply key_ltb_false in Hlt. rewrite key_ltb_spec.
      destruct (entry_key e) as [[i1 o1] k1], (entry_key x) as [[i2 o2] k2].
      simpl in *.
      destruct (decide (i2 = i1 /\ o2 = o1 /\ k2 = k1)) as [(-> & -> & ->)|Hne].
      * right. done.
      * left. lia.
Qed.

Lemma fold_lex_insert_sorted_lt es l (k : nat) :
  StronglySorted entry_lt l ->
  Forall (fun x => transIndex (entry_trans x) < k) l ->
  map (fun e => transIndex (entry_trans e)) es = seq k (length es) ->
  StronglySorted entry_lt (fold_left (fun l e => lex_insert e l) es l).
Proof.
  revert l k. induction es as [|e es IH]; intros l k Hl Hk Hes; simpl; [done|].
  simpl in Hes. injection Hes as He Hes.
  apply (IH _ (S k)); [| |exact Hes].
  - apply lex_insert_sorted_lt; [exact Hl|]. by rewrite He.
  - eapply Permutation_Forall; [symmetry; apply lex_insert_perm|].
    constructor; [lia|]. eapply Forall_impl; [exact Hk|]. simpl. intros; lia.
Qed.

(** The entries of a state built by [init], as its maps list them: the
    evaluated transitions in (input token, output token, destination,
    transIndex) order. *)
Lemma built_outgoing_sorted (machine : Machine W) params (em : EvaluatedMachine N) ess
    (s : nat) ms es ems :
  built_from machine params em ess ->
  state machine !! s = Some ms -> ess !! s = Some es -> em_state em !! s = Some ems ->
  outgoingEntries ems = lex_sort es /\
  Permutation (outgoingEntries ems) es /\
  StronglySorted entry_lt (outgoingEntries ems) /\
  iomap_wf (outgoing ems).
Proof.
  intros (Hess & _ & Hst) Hms Hes Hems.
  destruct (Hst s ms es Hms Hes) as (ems' & Hems' & _ & _ & _ & Hout & _).
  assert (ems' = ems) as -> by congruence.
  unfold outgoingEntries. rewrite Hout.
  destruct (iomap_entries_from_empty es) as (Heq & Hperm & _ & Hwf).
  rewrite Heq. split; [done|]. split; [exact Hperm|]. split; [|exact Hwf].
  destruct (Forall2_lookup_l _ _ _ _ _ Hess Hms) as (es' & Hes' & Hev).
  assert (es' = es) as -> by congruence.
  apply (fold_lex_insert_sorted_lt es [] 0); [constructor|constructor|].
  rewrite (evaluated_list_indices _ _ _ 0 _ _ Hev).
  by rewrite (proj1 (evaluated_list_lookup _ _ _ _ _ _ Hev)).
Qed.

Lemma foldM_append {A B} (f : A -> result B) (l : list A) (acc r : list B) :
  foldM (fun acc z => y ← f z; mret (acc ++ [y])) l acc = Ok r <->
  exists ys, Forall2 (fun z y => f z = Ok y) l ys /\ r = acc ++ ys.
Proof.
  revert acc. induction l as [|z l IH]; intros acc; simpl.
  - split.
    + intros [= <-]. exists []. split; [constructor|]. by rewrite app_nil_r.
    + intros (ys & Hys & ->). inversion Hys. by rewrite app_nil_r.
  - rewrite bind_Ok. split.
    + intros (acc' & Hstep & Hrest). inv_ok Hstep. subst acc'.
      apply IH in Hrest as (ys & Hys & ->).
      exists (a :: ys). split; [by constructor|]. by rewrite <- app_assoc.
    + intros (ys & Hys & ->). inversion Hys as [|? y ? ys' Hy Hys']; subst.
      exists (acc ++ [y]). split; [by rewrite Hy|].
      apply IH. exists ys'. split; [done|]. by rewrite <- app_assoc.
Qed.

Lemma foldM_append_nested {A B} (g : list B -> A -> result (list B))
    (R : A -> list B -> Prop) :
  (forall acc z r, g acc z = Ok r <-> exists ys, R z ys /\ r = acc ++ ys) ->
  forall (l : list A) (acc r : list B), foldM g l acc = Ok r <->
    exists yss, Forall2 R l yss /\ r = acc ++ concat yss.
Proof.
  intros Hg. induction l as [|z l IH]; intros acc r; simpl.
  - split.
    + intros [= <-]. exists []. split; [constructor|]. simpl. by rewrite app_nil_r.
    + intros (yss & Hyss & ->). inversion Hyss. simpl. by rewrite app_nil_r.
  - rewrite bind_Ok. split.
    + intros (acc' & Hstep & Hrest).
      apply Hg in Hstep as (ys & Hys & ->).
      apply IH in Hrest as (yss & Hyss & ->).
      exists (ys :: yss). split; [by constructor|]. simpl. by rewrite <- app_assoc.
    + intros (yss & Hyss & ->). inversion Hyss as [|? ys ? yss' Hys Hyss']; subst.
      exists (acc ++ ys). split; [apply Hg; eauto|].
      apply IH. exists yss'. split; [done|]. simpl. by rewrite <- app_assoc.
Qed.

Lemma Forall2_flat_map_concat {A B C} (f : A -> list B) (P : B -> C -> Prop)
    (l : list A) (zs : list C) :
  Forall2 P (flat_map f l) zs <->
  exists yss, Forall2 (fun z ys => Forall2 P (f z) ys) l yss /\ zs = concat yss.
Proof.
  revert zs. induction l as [|z l IH]; intros zs; simpl.
  - split.
    + intros H. inversion H. exists []. split; [constructor|done].
    + intros (yss & Hyss & ->). inversion Hyss. constructor.
  - split.
    + intros H. apply Forall2_app_inv_l in H as (ys & zs' & Hys & Hzs & ->).
      apply IH in Hzs as (yss & Hyss & ->).
      exists (ys :: yss). split; [by constructor|done].
    + intros (yss & Hyss & ->). inversion Hyss as [|? ys ? yss' Hys Hyss']; subst.
      simpl. apply Forall2_app; [done|]. apply IH. eauto.
Qed.

Lemma explicit_state_Ok (em : EvaluatedMachine N) (ems : EvaluatedMachineState N)
    (ms' : MachineState W) :
  explicit_state em ems = Ok ms' <->
  ms_name ms' = ems_name ems /\
  Forall2 (fun e t' => entry_transition em e = Ok t') (outgoingEntries ems) (ms_trans ms').
Proof.
  unfold explicit_state, outgoingEntries, iomap_entries.
  rewrite bind_Ok.
  assert (Hout : forall (i : nat) (acc : list (MachineTransition W))
                        (o_stm : nat * StateTransMap N) r,
    explicit_out em i acc o_stm = Ok r <->
    exists ys, Forall2 (fun e t' => entry_transition em e = Ok t')
                 (map (fun s_t : nat * Trans N => (i, fst o_stm, fst s_t, snd s_t)) (snd o_stm)) ys
               /\ r = acc ++ ys).
  { intros i acc [o stm] r. unfold explicit_out. simpl.
    rewrite (foldM_append (explicit_trans em i o)).
    split; intros (ys & Hys & ->); exists ys; (split; [|done]).
    - apply Forall2_fmap_l. eapply Forall2_impl; [exact Hys|].
      intros [d T] y Hy. exact Hy.
    - apply Forall2_fmap_l in Hys. eapply Forall2_impl; [exact Hys|].
      intros [d T] y Hy. exact Hy. }
  assert (Hin : forall (acc : list (MachineTransition W))
                       (i_ostm : nat * OutStateTransMap N) r,
    explicit_in em acc i_ostm = Ok r <->
    exists ys, Forall2 (fun e t' => entry_transition em e = Ok t')
                 (flat_map (fun o_stm : nat * StateTransMap N =>
                    map (fun s_t : nat * Trans N => (fst i_ostm, fst o_stm, fst s_t, snd s_t))
                        (snd o_stm)) (snd i_ostm)) ys
               /\ r = acc ++ ys).
  { intros acc [i ost] r. unfold explicit_in. simpl.
    rewrite (foldM_append_nested _ _ (Hout i)). split.
    - intros (yss & Hyss & ->). exists (concat yss). split; [|done].
      apply Forall2_flat_map_concat. eauto.
    - intros (ys & Hys & ->). apply Forall2_flat_map_concat in Hys as (yss & Hyss & ->).
      eauto. }
  split.
  - intros (tr & Hfold & H). apply Ok_inj in H. subst ms'. simpl. split; [done|].
    apply (foldM_append_nested _ _ Hin) in Hfold as (yss & Hyss & ->). simpl.
    apply Forall2_flat_map_concat. eauto.
  - intros [Hname Hall]. destruct ms' as [nm tr]. simpl in *. subst nm.
    exists tr. split; [|done].
    apply (foldM_append_nested _ _ Hin).
    apply Forall2_flat_map_concat in Hall as (yss & Hyss & ->). eauto.
Qed.

Lemma explicitMachine_Ok (em : EvaluatedMachine N) (m' : Machine W) :
  explicitMachine em = Ok m' <->
  Forall2 (fun ems ms' => explicit_state em ems = Ok ms') (em_state em) (state m').
Proof.
  unfold explicitMachine. rewrite bind_Ok. split.
  - intros (st & Hfold & H). apply Ok_inj in H. subst m'. simpl.
    apply foldM_append in Hfold as (ys & Hys & ->). done.
  - intros Hall. destruct m' as [st]. simpl in *. exists st. split; [|done].
    apply foldM_append. eauto.
Qed.

(** A list built entry by entry from another, its index in hand. *)
Lemma lookup_exists_list {A B} (P : nat -> A -> B -> Prop) (v : list A) :
  (forall s a, v !! s = Some a -> exists b, P s a b) ->
  exists k : list B, length k = length v /\
    forall s a, v !! s = Some a -> exists b, k !! s = Some b /\ P s a b.
Proof.
  revert P. induction v as [|a0 v IH]; intros P HP.
  - exists []. split; [done|]. intros s a Hs. by rewrite lookup_nil in Hs.
  - destruct (HP 0 a0 eq_refl) as [b0 Hb0].
    destruct (IH (fun s => P (S s))) as (k & Hlen & Hk).
    { intros s a Hs. by apply (HP (S s)). }
    exists (b0 :: k). split; [simpl; by rewrite Hlen|].
    intros [|s] a Hs; simpl in Hs.
    + injection Hs as <-. eauto.
    + destruct (Hk s a Hs) as (b & Hb & HPb). eauto.
Qed.

(** An entry that [init] stored for transition [t] turns back into [t] with
    the literal [exp (logWeight)] for its weight. *)
Lemma entry_transition_evaluated (machine : Machine W) params (em : EvaluatedMachine N)
    (idx : nat) (t : MachineTransition W) e :
  inputTokenizer em = Tokenizer_new (inputAlphabet machine) ->
  outputTokenizer em = Tokenizer_new (outputAlphabet machine) ->
  evaluated_trans params (inputTokenizer em) (outputTokenizer em) idx t = Ok e ->
  entry_transition em e = Ok (with_weight t (logWeight (entry_trans e))).
Proof.
  intros Hin Hout He.
  apply evaluated_trans_Ok in He as (i & o & lw & Hi & Ho & _ & ->).
  unfold entry_transition, explicit_trans. simpl.
  rewrite Hin in Hi |- *. rewrite Hout in Ho |- *.
  rewrite (tok2sym_sym2tok _ _ _ Hi), (tok2sym_sym2tok _ _ _ Ho). done.
Qed.

(** C4, as the code has it.  From the evaluated machine of [machine],
    [explicitMachine] returns a machine with as many states and the same
    names.  The transitions of a state are those of the original state,
    label for label and destination for destination, each with the literal
    [exp (logWeight)] for its weight and each exactly once; they are listed
    as the nested maps list them, by ascending (input token, output token,
    destination), the original order ([transIndex]) deciding only between
    transitions equal in all three. *)
Theorem explicitMachine_rebuilds_by_key (machine : Machine W) params
    (em : EvaluatedMachine N) :
  EvaluatedMachine_new machine params = Ok em ->
  exists m' : Machine W, explicitMachine em = Ok m' /\
    nStates m' = nStates machine /\
    forall s ms, state machine !! s = Some ms ->
      exists ms' ems, state m' !! s = Some ms' /\ em_state em !! s = Some ems /\
        ms_name ms' = ms_name ms /\
        StronglySorted entry_lt (outgoingEntries ems) /\
        Permutation (map (fun e => transIndex (entry_trans e)) (outgoingEntries ems))
                    (seq 0 (length (ms_trans ms))) /\
        Forall2 (fun e t' => exists t,
                   ms_trans ms !! transIndex (entry_trans e) = Some t /\
                   evaluated_trans params (inputTokenizer em) (outputTokenizer em)
                     (transIndex (entry_trans e)) t = Ok e /\
                   t' = with_weight t (logWeight (entry_trans e)))
                (outgoingEntries ems) (ms_trans ms').
Proof.
  intros Hnew.
  apply EvaluatedMachine_new_Ok in Hnew as (_ & Hitok & Hotok & Hn & _ & ess & Hbuilt).
  pose proof Hbuilt as (Hess & _ & Hst).
  (* every evaluated state turns into a machine state *)
  assert (Hstate : forall s ems, em_state em !! s = Some ems ->
    exists ms' : MachineState W, explicit_state em ems = Ok ms' /\
      forall ms, state machine !! s = Some ms ->
        ms_name ms' = ms_name ms /\
        StronglySorted entry_lt (outgoingEntries ems) /\
        Permutation (map (fun e => transIndex (entry_trans e)) (outgoingEntries ems))
                    (seq 0 (length (ms_trans ms))) /\
        Forall2 (fun e t' => exists t,
                   ms_trans ms !! transIndex (entry_trans e) = Some t /\
                   evaluated_trans params (inputTokenizer em) (outputTokenizer em)
                     (transIndex (entry_trans e)) t = Ok e /\
                   t' = with_weight t (logWeight (entry_trans e)))
                (outgoingEntries ems) (ms_trans ms')).
  { intros s ems Hems.
    destruct (lookup_lt_is_Some_2 (state machine) s) as [ms Hms].
    { unfold em_nStates, nStates in Hn. rewrite <- Hn. by eapply lookup_lt_Some. }
    destruct (Forall2_lookup_l _ _ _ _ _ Hess Hms) as (es & Hes & Hev).
    destruct (Hst s ms es Hms Hes) as (ems' & Hems' & Hname & _).
    assert (ems' = ems) as -> by congruence.
    destruct (built_outgoing_sorted machine params em ess s ms es ems Hbuilt Hms Hes Hems)
      as (_ & Hperm & Hsorted & _).
    destruct (evaluated_list_lookup _ _ _ _ _ _ Hev) as [Hlen Hlook].
    assert (Hall : Forall (fun e => exists t', entry_transition em e = Ok t' /\
              exists t, ms_trans ms !! transIndex (entry_trans e) = Some t /\
                evaluated_trans params (inputTokenizer em) (outputTokenizer em)
                  (transIndex (entry_trans e)) t = Ok e /\
                t' = with_weight t (logWeight (entry_trans e))) (outgoingEntries ems)).
    { apply Forall_forall. intros e He. rewrite Hperm in He.
      apply list_elem_of_lookup_1 in He as (idx & Hidx).
      destruct (lookup_lt_is_Some_2 (ms_trans ms) idx) as [t Ht].
      { rewrite <- Hlen. by eapply lookup_lt_Some. }
      destruct (Hlook idx t Ht) as (e' & He' & Hevt). simpl in Hevt.
      assert (e' = e) as -> by congruence.
      assert (Hti : transIndex (entry_trans e) = idx).
      { apply evaluated_trans_Ok in Hevt as (i & o & lw & _ & _ & _ & ->). done. }
      rewrite Hti. eexists. split.
      - by eapply entry_transition_evaluated.
      - exists t. done. }
    apply Forall_exists_Forall2_l in Hall as [ts Hts].
    exists {| ms_name := ems_name ems; ms_trans := ts |}. split.
    - apply explicit_state_Ok. simpl. split; [done|].
      eapply Forall2_impl; [exact Hts|]. intros e t' [H _]. exact H.
    - intros ms0 Hms0. assert (ms0 = ms) as -> by congruence. simpl.
      split; [exact Hname|]. split; [exact Hsorted|]. split.
      + rewrite Hperm, (evaluated_list_indices _ _ _ 0 _ _ Hev). done.
      + eapply Forall2_impl; [exact Hts|]. intros e t' [_ H]. exact H. }
  destruct (lookup_exists_list _ (em_state em) Hstate) as (sts & Hlen & Hsts).
  exists {| state := sts |}. split; [|split].
  - apply explicitMachine_Ok. simpl.
    apply Forall2_same_length_lookup_2; [done|].
    intros s ems ms' Hems Hms'.
    destruct (Hsts s ems Hems) as (ms'' & Hms'' & Hex & _). congruence.
  - unfold nStates. simpl. rewrite Hlen. exact Hn.
  - intros s ms Hms.
    destruct (lookup_lt_is_Some_2 (em_state em) s) as [ems Hems].
    { unfold em_nStates, nStates in Hn. rewrite Hn. by eapply lookup_lt_Some. }
    destruct (Hsts s ems Hems) as (ms' & Hms' & _ & Hprops).
    exists ms', ems. split; [exact Hms'|]. split; [exact Hems|]. by apply Hprops.
Qed.

End ExplicitFacts.

Section ExplicitWitnesses.
Import Ideal Examples.

(** The state that emits [A] and then steps silently comes back with the
    silent step first: the empty output symbol has token 0, below the
    token of [A]. *)
Lemma explicitMachine_reorders :
  exists em (m' : Machine leaf_weights) ms',
    EvaluatedMachine_new swap_machine None = Ok em /\
    explicitMachine em = Ok m' /\
    state m' !! 0 = Some ms' /\
    map t_out (ms_trans swap_state) = ["A"; ""] /\
    map t_out (ms_trans ms') = [""; "A"].
Proof.
  eexists. eexists. eexists.
  split; [reflexivity|]. split; [reflexivity|]. split; [reflexivity|].
  split; reflexivity.
Qed.

(** The same machine, read through the order the code keeps. *)
Lemma explicitMachine_rebuilds_by_key_witness :
  exists em (m' : Machine leaf_weights),
    EvaluatedMachine_new swap_machine None = Ok em /\
    explicitMachine em = Ok m' /\
    nStates m' = nStates swap_machine /\
    exists ms' ems, state m' !! 0 = Some ms' /\ em_state em !! 0 = Some ems /\
      ms_name ms' = ms_name swap_state /\
      StronglySorted entry_lt (outgoingEntries ems) /\
      Permutation (map (fun e => transIndex (entry_trans e)) (outgoingEntries ems))
                  (seq 0 (length (ms_trans swap_state))).
Proof.
  assert (Hnew : exists em, EvaluatedMachine_new swap_machine None = Ok em).
  { eexists. reflexivity. }
  destruct Hnew as [em Hem]. exists em.
  destruct (explicitMachine_rebuilds_by_key swap_machine None em Hem)
    as (m' & Hm' & Hn & Hst).
  exists m'. split; [exact Hem|]. split; [exact Hm'|]. split; [exact Hn|].
  destruct (Hst 0 swap_state eq_refl) as (ms' & ems & Hms' & Hems & Hname & Hsorted & Hperm & _).
  exists ms', ems. auto.
Defined.

End ExplicitWitnesses.

(** ** sumInTrans *)

Section MatrixFacts.
Context {N : Numerics}.
Implicit Types (m : Matrix N) (p : list (double N)) (nts : list (nat * Trans N)).

Lemma list_insert_alter_lookup {A} (g : A -> A) (l : list A) (i : nat) (x : A) :
  l !! i = Some x -> <[i := g x]> l = alter g i l.
Proof.
  intros Hx. apply list_eq. intros j. destruct (decide (i = j)) as [<-|Hne].
  - rewrite list_lookup_alter_eq, Hx, list_lookup_insert_eq; [done|].
    by eapply lookup_lt_Some.
  - by rewrite list_lookup_alter_ne, list_lookup_insert_ne.
Qed.

Lemma matrix_shape_row (n : nat) m (i : nat) :
  matrix_shape n m -> i < n -> exists row, m !! i = Some row /\ length row = n.
Proof.
  intros [Hlen Hrows] Hi.
  destruct (lookup_lt_is_Some_2 m i) as [row Hrow]; [lia|].
  exists row. split; [done|]. rewrite Forall_forall in Hrows.
  apply Hrows. by eapply list_elem_of_lookup_2.
Qed.

Lemma matrix_shape_alter (n : nat) m (i j : nat) (f : double N -> double N) :
  matrix_shape n m -> matrix_shape n (alter (alter f j) i m).
Proof.
  intros [Hlen Hrows]. split; [by rewrite length_alter|].
  apply Forall_forall. intros row Hrow.
  apply list_elem_of_lookup_1 in Hrow as (k & Hk).
  rewrite Forall_forall in Hrows.
  destruct (decide (i = k)) as [<-|Hne].
  - rewrite list_lookup_alter_eq in Hk.
    destruct (m !! i) as [row0|] eqn:Hrow0; [|done]. injection Hk as <-.
    rewrite length_alter. apply Hrows. by eapply list_elem_of_lookup_2.
  - rewrite list_lookup_alter_ne in Hk by done.
    apply Hrows. by eapply list_elem_of_lookup_2.
Qed.

Lemma mat_update_Ok (n : nat) m (i j : nat) (f : double N -> double N) :
  matrix_shape n m -> i < n -> j < n ->
  mat_update i j f m = Ok (alter (alter f j) i m).
Proof.
  intros Hshape Hi Hj. unfold mat_update.
  destruct (matrix_shape_row n m i Hshape Hi) as (row & Hrow & Hlen).
  rewrite (proj2 (vec_at_Ok i m row) Hrow). simpl.
  rewrite (proj2 (vec_update_Ok j f row (alter f j row))) by (split; [lia|done]).
  simpl. by rewrite (list_insert_alter_lookup (alter f j) m i row Hrow).
Qed.

Lemma mat_get_alter (n : nat) m (i j i' j' : nat) (f : double N -> double N) :
  matrix_shape n m -> i < n -> j < n ->
  mat_get (alter (alter f j) i m) i' j'
  = if decide (i' = i /\ j' = j) then f (mat_get m i j) else mat_get m i' j'.
Proof.
  intros Hshape Hi Hj. unfold mat_get.
  destruct (matrix_shape_row n m i Hshape Hi) as (row & Hrow & Hlen).
  destruct (decide (i' = i)) as [->|Hne].
  - rewrite list_lookup_alter_eq, Hrow. simpl.
    destruct (decide (j' = j)) as [->|Hnej].
    + rewrite list_lookup_alter_eq, decide_True by done.
      destruct (lookup_lt_is_Some_2 row j) as [x Hx]; [lia|]. by rewrite Hx.
    + rewrite list_lookup_alter_ne by done.
      rewrite decide_False; [done|]. by intros [_ ?].
  - rewrite list_lookup_alter_ne by done.
    rewrite decide_False; [done|]. by intros [? _].
Qed.

Lemma null_trans_step_Ok (n src : nat) m p (s_t : nat * Trans N) :
  matrix_shape n m -> length p = n -> src < n -> fst s_t < n ->
  null_trans_step src (m, p) s_t = Ok (null_step src (m, p) s_t).
Proof.
  intros Hshape Hp Hsrc Hd. unfold null_trans_step, null_step.
  rewrite (mat_update_Ok n) by done. simpl.
  by rewrite (proj2 (vec_update_Ok src _ p _)) by (split; [lia|done]).
Qed.

Lemma null_step_shape (n src : nat) m p (s_t : nat * Trans N) :
  matrix_shape n m -> length p = n ->
  matrix_shape n (fst (null_step src (m, p) s_t)) /\
  length (snd (null_step src (m, p) s_t)) = n.
Proof.
  intros Hshape Hp. unfold null_step. simpl. split.
  - by apply matrix_shape_alter.
  - by rewrite length_alter.
Qed.

Lemma null_steps_shape (n src : nat) nts m p :
  matrix_shape n m -> length p = n ->
  matrix_shape n (fst (fold_left (null_step src) nts (m, p))) /\
  length (snd (fold_left (null_step src) nts (m, p))) = n.
Proof.
  revert m p. induction nts as [|s_t nts IH]; intros m p Hshape Hp; simpl; [done|].
  destruct (null_step_shape n src m p s_t Hshape Hp) as [H1 H2].
  destruct (null_step src (m, p) s_t) as [m' p'] eqn:Hstep. by apply IH.
Qed.

Lemma null_trans_steps_Ok (n src : nat) nts m p :
  matrix_shape n m -> length p = n -> src < n ->
  Forall (fun s_t => fst s_t < n) nts ->
  foldM (null_trans_step src) nts (m, p) = Ok (fold_left (null_step src) nts (m, p)).
Proof.
  revert m p. induction nts as [|s_t nts IH]; intros m p Hshape Hp Hsrc Hall;
    cbn [foldM fold_left]; [done|].
  apply Forall_cons in Hall as [Hd Hall].
  rewrite (null_trans_step_Ok n) by done. cbn [mbind result_bind rbind].
  destruct (null_step_shape n src m p s_t Hshape Hp) as [H1 H2].
  destruct (null_step src (m, p) s_t) as [m' p'] eqn:Hstep. by apply IH.
Qed.

Lemma silent_in_eq (src : nat) (acc : Matrix N * list (double N))
    (in_ost : nat * OutStateTransMap N) :
  silent_in src acc in_ost
  = foldM (null_trans_step src) (default [] (omap_find emptyToken (snd in_ost))) acc.
Proof. unfold silent_in. by destruct (omap_find emptyToken (snd in_ost)). Qed.

Lemma silent_ins_Ok (n src : nat) (outs : InOutStateTransMap N) m p :
  matrix_shape n m -> length p = n -> src < n ->
  Forall (fun s_t => fst s_t < n)
    (flat_map (fun in_ost => default [] (omap_find emptyToken (snd in_ost))) outs) ->
  foldM (silent_in src) outs (m, p)
  = Ok (fold_left (null_step src)
          (flat_map (fun in_ost => default [] (omap_find emptyToken (snd in_ost))) outs)
          (m, p)).
Proof.
  revert m p. induction outs as [|in_ost outs IH]; intros m p Hshape Hp Hsrc Hall;
    cbn [foldM flat_map]; [done|].
  cbn [flat_map] in Hall. apply Forall_app in Hall as [Hhere Hrest].
  rewrite fold_left_app, silent_in_eq.
  rewrite (null_trans_steps_Ok n) by done. cbn [mbind result_bind rbind].
  destruct (null_steps_shape n src (default [] (omap_find emptyToken (snd in_ost))) m p
              Hshape Hp) as [H1 H2].
  destruct (fold_left (null_step src) _ (m, p)) as [m' p']. by apply IH.
Qed.

Lemma silent_src_Ok (n src : nat) (em : EvaluatedMachine N) ems m p :
  matrix_shape n m -> length p = n -> src < n ->
  em_state em !! src = Some ems ->
  Forall (fun s_t => fst s_t < n) (nullTransitions ems) ->
  silent_src em (m, p) src = Ok (null_src em (m, p) src).
Proof.
  intros Hshape Hp Hsrc Hems Hall. unfold silent_src, null_src.
  rewrite (mat_update_Ok n) by done. cbn [mbind result_bind rbind].
  rewrite (proj2 (vec_at_Ok src (em_state em) ems) Hems). cbn [mbind result_bind rbind].
  rewrite Hems. cbn [fmap option_fmap option_map default from_option id fst snd].
  apply (silent_ins_Ok n); try done. by apply matrix_shape_alter.
Qed.

Lemma null_src_shape (n src : nat) (em : EvaluatedMachine N) m p :
  matrix_shape n m -> length p = n ->
  matrix_shape n (fst (null_src em (m, p) src)) /\
  length (snd (null_src em (m, p) src)) = n.
Proof.
  intros Hshape Hp. unfold null_src. apply null_steps_shape; [|done].
  by apply matrix_shape_alter.
Qed.

Lemma silent_srcs_Ok (em : EvaluatedMachine N) (srcs : list nat) m p :
  null_dests_in_range em ->
  matrix_shape (em_nStates em) m -> length p = em_nStates em ->
  Forall (fun src => src < em_nStates em) srcs ->
  foldM (silent_src em) srcs (m, p) = Ok (fold_left (null_src em) srcs (m, p)) /\
  matrix_shape (em_nStates em) (fst (fold_left (null_src em) srcs (m, p))) /\
  length (snd (fold_left (null_src em) srcs (m, p))) = em_nStates em.
Proof.
  intros Hdests. revert m p.
  induction srcs as [|src srcs IH]; intros m p Hshape Hp Hall; cbn [foldM fold_left]; [done|].
  apply Forall_cons in Hall as [Hsrc Hall].
  destruct (lookup_lt_is_Some_2 (em_state em) src Hsrc) as [ems Hems].
  rewrite (silent_src_Ok (em_nStates em) src em ems) by eauto.
  cbn [mbind result_bind rbind].
  destruct (null_src_shape (em_nStates em) src em m p Hshape Hp) as [H1 H2].
  destruct (null_src em (m, p) src) as [m' p']. by apply IH.
Qed.

(** What the innermost loop leaves in the matrix and in [pExit]. *)
Lemma null_steps_get (n src : nat) nts m p (s d : nat) :
  matrix_shape n m -> src < n -> Forall (fun s_t => fst s_t < n) nts ->
  mat_get (fst (fold_left (null_step src) nts (m, p))) s d
  = if decide (s = src)
    then fold_left (d_sub N)
           (map (fun s_t => d_exp N (logWeight (snd s_t)))
                (filter (fun s_t => fst s_t = d) nts))
           (mat_get m s d)
    else mat_get m s d.
Proof.
  intros Hshape Hsrc. revert m p Hshape.
  induction nts as [|[d0 T] nts IH]; intros m p Hshape Hall; cbn [fold_left].
  - rewrite filter_nil. simpl. by case_decide.
  - apply Forall_cons in Hall as [Hd0 Hall]. simpl in Hd0.
    unfold null_step at 2. cbn [fst snd].
    rewrite IH; [|by apply matrix_shape_alter|done].
    rewrite (mat_get_alter n) by done.
    rewrite filter_cons. cbn [fst].
    destruct (decide (s = src)) as [->|Hs].
    + destruct (decide (d0 = d)) as [->|Hd].
      * rewrite decide_True by done. done.
      * rewrite decide_False; [done|]. intros [_ ?]. congruence.
    + rewrite decide_False; [done|]. by intros [? _].
Qed.

Lemma null_steps_pExit (src : nat) nts m p (s : nat) :
  snd (fold_left (null_step src) nts (m, p)) !! s
  = if decide (s = src)
    then (fun x => fold_left (d_add N)
                     (map (fun s_t => d_exp N (logWeight (snd s_t))) nts) x) <$> p !! s
    else p !! s.
Proof.
  revert m p. induction nts as [|[d0 T] nts IH]; intros m p; cbn [fold_left].
  - simpl. case_decide; [|done]. by destruct (p !! s).
  - unfold null_step at 2. cbn [fst snd]. rewrite IH.
    destruct (decide (s = src)) as [->|Hs].
    + rewrite list_lookup_alter_eq. by destruct (p !! src).
    + by rewrite list_lookup_alter_ne.
Qed.

Lemma null_src_get (n src : nat) (em : EvaluatedMachine N) ems m p (s d : nat) :
  matrix_shape n m -> src < n ->
  em_state em !! src = Some ems ->
  Forall (fun s_t => fst s_t < n) (nullTransitions ems) ->
  mat_get (fst (null_src em (m, p) src)) s d
  = if decide (s = src)
    then fold_left (d_sub N) (nullWeights ems d)
           (if decide (s = d) then d_one N else mat_get m s d)
    else mat_get m s d.
Proof.
  intros Hshape Hsrc Hems Hall. unfold null_src. rewrite Hems.
  cbn [fmap option_fmap option_map default from_option id fst snd].
  rewrite (null_steps_get n) by (try done; by apply matrix_shape_alter).
  rewrite (mat_get_alter n) by done. unfold nullWeights.
  destruct (decide (s = src)) as [->|Hs].
  - destruct (decide (src = d)) as [->|Hd].
    + by rewrite decide_True.
    + rewrite decide_False; [done|]. intros [_ ?]. congruence.
  - rewrite decide_False; [done|]. by intros [? _].
Qed.

Lemma null_src_pExit (src : nat) (em : EvaluatedMachine N) ems m p (s : nat) :
  em_state em !! src = Some ems ->
  snd (null_src em (m, p) src) !! s
  = if decide (s = src)
    then (fun x => fold_left (d_add N)
                     (map (fun s_t => d_exp N (logWeight (snd s_t))) (nullTransitions ems)) x)
         <$> p !! s
    else p !! s.
Proof.
  intros Hems. unfold null_src. rewrite Hems.
  cbn [fmap option_fmap option_map default from_option id fst snd].
  apply null_steps_pExit.
Qed.

Lemma null_srcs_get (em : EvaluatedMachine N) (a len : nat) m p (s d : nat) :
  null_dests_in_range em ->
  matrix_shape (em_nStates em) m -> length p = em_nStates em ->
  a + len <= em_nStates em ->
  mat_get (fst (fold_left (null_src em) (seq a len) (m, p))) s d
  = match em_state em !! s with
    | Some ems =>
        if decide (a <= s < a + len)
        then fold_left (d_sub N) (nullWeights ems d)
               (if decide (s = d) then d_one N else mat_get m s d)
        else mat_get m s d
    | None => mat_get m s d
    end.
Proof.
  intros Hdests. revert a m p.
  induction len as [|len IH]; intros a m p Hshape Hp Hlen; cbn [seq fold_left].
  - destruct (em_state em !! s); [|done]. rewrite decide_False; [done|lia].
  - destruct (lookup_lt_is_Some_2 (em_state em) a) as [ems_a Hems_a];
      [unfold em_nStates in Hlen; lia|].
    destruct (null_src_shape (em_nStates em) a em m p Hshape Hp) as [Hshape1 Hp1].
    pose proof (null_src_get (em_nStates em) a em ems_a m p s d Hshape) as Hget.
    destruct (null_src em (m, p) a) as [m1 p1] eqn:Hsrc. cbn [fst snd] in *.
    rewrite IH by (try done; lia).
    rewrite Hget by (try lia; eauto).
    destruct (em_state em !! s) as [ems|] eqn:Hems.
    + assert (Hcases : s = a \/ S a <= s < S a + len \/ ~ a <= s < a + S len) by lia.
      destruct Hcases as [->|[Hin|Hout]].
      * assert (ems = ems_a) as -> by congruence.
        repeat case_decide; first [done | lia].
      * repeat case_decide; first [done | lia].
      * repeat case_decide; first [done | lia].
    + apply lookup_ge_None_1 in Hems. unfold em_nStates in Hlen.
      repeat case_decide; first [done | lia].
Qed.

Lemma null_srcs_pExit (em : EvaluatedMachine N) (a len : nat) m p (s : nat) :
  a + len <= em_nStates em ->
  snd (fold_left (null_src em) (seq a len) (m, p)) !! s
  = match em_state em !! s with
    | Some ems =>
        if decide (a <= s < a + len)
        then (fun x => fold_left (d_add N)
                (map (fun s_t => d_exp N (logWeight (snd s_t))) (nullTransitions ems)) x)
             <$> p !! s
        else p !! s
    | None => p !! s
    end.
Proof.
  revert a m p. induction len as [|len IH]; intros a m p Hlen; cbn [seq fold_left].
  - destruct (em_state em !! s); [|done]. rewrite decide_False; [done|lia].
  - destruct (lookup_lt_is_Some_2 (em_state em) a) as [ems_a Hems_a];
      [unfold em_nStates in Hlen; lia|].
    pose proof (null_src_pExit a em ems_a m p s Hems_a) as Hp.
    destruct (null_src em (m, p) a) as [m1 p1] eqn:Hsrc. cbn [snd] in *.
    rewrite IH by lia. rewrite Hp.
    destruct (em_state em !! s) as [ems|] eqn:Hems.
    + assert (Hcases : s = a \/ S a <= s < S a + len \/ ~ a <= s < a + S len) by lia.
      destruct Hcases as [->|[Hin|Hout]].
      * assert (ems = ems_a) as -> by congruence.
        repeat case_decide; first [done | lia].
      * repeat case_decide; first [done | lia].
      * repeat case_decide; first [done | lia].
    + apply lookup_ge_None_1 in Hems. unfold em_nStates in Hlen.
      repeat case_decide; first [done | lia].
Qed.

Lemma matrix_shape_zero (n : nat) :
  matrix_shape n (replicate n (replicate n (d_zero N))).
Proof.
  split; [by rewrite length_replicate|].
  apply Forall_forall. intros row Hrow. apply elem_of_replicate in Hrow as [-> _].
  by rewrite length_replicate.
Qed.

Lemma mat_get_zero (n i j : nat) :
  mat_get (replicate n (replicate n (d_zero N))) i j = d_zero N.
Proof.
  unfold mat_get. destruct (decide (i < n)) as [Hi|Hi].
  - rewrite lookup_replicate_2 by done. simpl.
    destruct (decide (j < n)) as [Hj|Hj].
    + by rewrite lookup_replicate_2.
    + rewrite (proj1 (lookup_replicate_None n (d_zero N) j)); [done|lia].
  - rewrite (proj1 (lookup_replicate_None n _ i)); [done|lia].
Qed.

Lemma mat_get_lookup (n : nat) m (i j : nat) :
  matrix_shape n m -> i < n -> j < n ->
  exists row, m !! i = Some row /\ length row = n /\ row !! j = Some (mat_get m i j).
Proof.
  intros Hshape Hi Hj.
  destruct (matrix_shape_row n m i Hshape Hi) as (row & Hrow & Hlen).
  exists row. split; [done|]. split; [done|].
  unfold mat_get. rewrite Hrow. simpl.
  destruct (lookup_lt_is_Some_2 row j) as [x Hx]; [lia|]. by rewrite Hx.
Qed.

(** The loops of [sumInTrans], without the test: they do not fail, and
    leave the identity less the output-empty weights, and the exit sums. *)
Lemma silent_oneMinusNullTrans_Ok (em : EvaluatedMachine N) :
  null_dests_in_range em ->
  exists m p, silent_oneMinusNullTrans em = Ok (m, p) /\
    matrix_shape (em_nStates em) m /\ length p = em_nStates em /\
    forall s ems, em_state em !! s = Some ems ->
      p !! s = Some (exitProbability ems) /\
      forall d, mat_get m s d = oneMinusNull_entry ems s d.
Proof.
  intros Hdests. unfold silent_oneMinusNullTrans.
  set (n := em_nStates em).
  destruct (silent_srcs_Ok em (seq 0 n) (replicate n (replicate n (d_zero N)))
              (replicate n (d_zero N)) Hdests) as (Hok & Hshape & Hp).
  { apply matrix_shape_zero. }
  { by rewrite length_replicate. }
  { apply Forall_forall. intros src Hsrc. apply elem_of_seq in Hsrc. lia. }
  destruct (fold_left (null_src em) (seq 0 n) _) as [m p] eqn:Hfold.
  exists m, p. split; [exact Hok|]. split; [exact Hshape|]. split; [exact Hp|].
  intros s ems Hems.
  assert (Hs : s < n) by (by eapply lookup_lt_Some).
  split.
  - pose proof (null_srcs_pExit em 0 n (replicate n (replicate n (d_zero N)))
                  (replicate n (d_zero N)) s) as H.
    rewrite Hfold in H. cbn [snd] in H. rewrite H by (unfold n; lia).
    rewrite Hems, decide_True by lia. by rewrite lookup_replicate_2.
  - intros d.
    pose proof (null_srcs_get em 0 n (replicate n (replicate n (d_zero N)))
                  (replicate n (d_zero N)) s d Hdests (matrix_shape_zero n)) as H.
    rewrite Hfold in H. cbn [fst] in H.
    rewrite H by (try (unfold n; lia); by rewrite length_replicate).
    rewrite Hems, decide_True by lia. by rewrite mat_get_zero.
Qed.

(** The loops with and without the test go the same way. *)
Lemma foldM_without_log {A B C} (f : A * B -> C -> result (A * B))
    (g : A -> C -> result A) :
  (forall acc x, without_log (f acc x) = g (fst acc) x) ->
  forall (l : list C) (acc : A * B), without_log (foldM f l acc) = foldM g l (fst acc).
Proof.
  intros Hfg. induction l as [|x l IH]; intros acc; cbn [foldM]; [done|].
  specialize (Hfg acc x). destruct (f acc x) as [acc'|e]; simpl in *.
  - rewrite <- Hfg. cbn [mbind result_bind rbind]. apply IH.
  - by rewrite <- Hfg.
Qed.

Lemma sumInTrans_trans_without_log (src : nat)
    (acc : Matrix N * list (double N) * list (LogEvent N)) (s_t : nat * Trans N) :
  without_log (sumInTrans_trans src acc s_t) = null_trans_step src (fst acc) s_t.
Proof.
  destruct acc as [[m p] log]. unfold sumInTrans_trans. cbn [fst].
  destruct (null_trans_step src (m, p) s_t) as [[m' p']|e] eqn:Hstep; [|done].
  cbn [mbind result_bind rbind].
  unfold null_trans_step in Hstep. inv_ok Hstep. injection Hstep as -> ->.
  apply vec_update_Ok in Hstep1 as [Hsrc ->].
  destruct (lookup_lt_is_Some_2 (alter (fun x => d_add N x (d_exp N (logWeight (snd s_t)))) src p) src)
    as [pe Hpe]; [by rewrite length_alter|].
  by rewrite (proj2 (vec_at_Ok _ _ _) Hpe).
Qed.

Lemma sumInTrans_in_without_log (src : nat)
    (acc : Matrix N * list (double N) * list (LogEvent N))
    (in_ost : nat * OutStateTransMap N) :
  without_log (sumInTrans_in src acc in_ost) = silent_in src (fst acc) in_ost.
Proof.
  unfold sumInTrans_in, silent_in. destruct (omap_find emptyToken (snd in_ost)); [|done].
  apply foldM_without_log. apply sumInTrans_trans_without_log.
Qed.

Lemma sumInTrans_src_without_log (em : EvaluatedMachine N)
    (acc : Matrix N * list (double N) * list (LogEvent N)) (src : nat) :
  without_log (sumInTrans_src em acc src) = silent_src em (fst acc) src.
Proof.
  destruct acc as [[m p] log]. unfold sumInTrans_src, silent_src. cbn [fst].
  destruct (mat_update src src _ m) as [m'|e]; [|done]. cbn [mbind result_bind rbind].
  destruct (vec_at src (em_state em)) as [ems|e]; [|done]. cbn [mbind result_bind rbind].
  apply (foldM_without_log (sumInTrans_in src) (silent_in src)
           (sumInTrans_in_without_log src) (outgoing ems) (m', p, log)).
Qed.

Lemma oneMinusNullTrans_without_log (em : EvaluatedMachine N) :
  without_log (oneMinusNullTrans em) = silent_oneMinusNullTrans em.
Proof.
  unfold oneMinusNullTrans, silent_oneMinusNullTrans.
  apply (foldM_without_log (sumInTrans_src em) (silent_src em)
           (sumInTrans_src_without_log em)).
Qed.

Lemma foldM_invariant {A C} (I : A -> Prop) (f : A -> C -> result A) :
  (forall acc x acc', I acc -> f acc x = Ok acc' -> I acc') ->
  forall (l : list C) (acc acc' : A), I acc -> foldM f l acc = Ok acc' -> I acc'.
Proof.
  intros Hf. induction l as [|x l IH]; intros acc acc' Hacc; cbn [foldM].
  - by intros [= <-].
  - intros H. apply bind_Ok in H as (acc1 & H1 & H2). eauto.
Qed.

Lemma sumInTrans_trans_warned (src : nat) acc (s_t : nat * Trans N) acc' :
  warned (snd (fst acc)) (snd acc) ->
  sumInTrans_trans src acc s_t = Ok acc' -> warned (snd (fst acc')) (snd acc').
Proof.
  destruct acc as [[m p] log]. cbn [fst snd]. intros Hw H.
  unfold sumInTrans_trans in H. inv_ok H. destruct a as [m' p'].
  inv_ok H. subst acc'. cbn [fst snd].
  unfold null_trans_step in Hstep. inv_ok Hstep. injection Hstep as -> ->.
  apply vec_update_Ok in Hstep2 as [Hsrc ->]. apply vec_at_Ok in Hstep0.
  intros s pe Hs Hgt. destruct (decide (s = src)) as [->|Hne].
  - assert (pe = a) as -> by congruence. rewrite Hgt.
    apply elem_of_app. right. by apply list_elem_of_singleton.
  - rewrite list_lookup_alter_ne in Hs by done.
    specialize (Hw s pe Hs Hgt).
    destruct (d_gt N a (d_threshold N)); [|done]. apply elem_of_app. by left.
Qed.

Lemma oneMinusNullTrans_warned (em : EvaluatedMachine N) m p log :
  d_gt N (d_zero N) (d_threshold N) = false ->
  oneMinusNullTrans em = Ok (m, p, log) -> warned p log.
Proof.
  intros Hzero H. unfold oneMinusNullTrans in H.
  apply (foldM_invariant (fun acc => warned (snd (fst acc)) (snd acc)) _) in H; [done| |].
  - intros [[m0 p0] log0] src acc' Hw Hsrc. cbn [fst snd] in Hw.
    unfold sumInTrans_src in Hsrc. inv_ok Hsrc.
    apply (foldM_invariant (fun acc => warned (snd (fst acc)) (snd acc)) _) in Hsrc;
      [done| |done].
    intros acc in_ost acc1 Hacc Hin. unfold sumInTrans_in in Hin.
    destruct (omap_find emptyToken (snd in_ost)) as [stm|].
    + apply (foldM_invariant (fun acc => warned (snd (fst acc)) (snd acc)) _) in Hin;
        [done| |done].
      intros acc2 s_t acc3. apply sumInTrans_trans_warned.
    + by injection Hin as <-.
  - cbn [fst snd]. intros s pe Hs Hgt.
    apply lookup_replicate in Hs as [-> _]. congruence.
Qed.

Lemma filter_Forall_id {A} (P : A -> Prop) `{!forall x, Decision (P x)} (l : list A) :
  Forall P l -> filter P l = l.
Proof.
  induction 1 as [|x l Hx Hl IH]; [done|].
  rewrite filter_cons, decide_True by done. by rewrite IH.
Qed.

Lemma filter_Forall_nil {A} (P : A -> Prop) `{!forall x, Decision (P x)} (l : list A) :
  Forall (fun x => ~ P x) l -> filter P l = [].
Proof.
  induction 1 as [|x l Hx Hl IH]; [done|].
  rewrite filter_cons, decide_False by done. exact IH.
Qed.

(** In a map in key order, the output-empty transitions [sumInTrans] visits
    are all the entries with the empty output token. *)
Lemma nullTransitions_entries (ems : EvaluatedMachineState N) :
  iomap_wf (outgoing ems) ->
  nullTransitions ems
  = map (fun e : Entry N => (entry_dest e, entry_trans e))
        (filter (fun e : Entry N => snd (fst (fst e)) = emptyToken) (outgoingEntries ems)).
Proof.
  unfold nullTransitions, outgoingEntries, iomap_entries.
  intros [_ Hinner]. induction Hinner as [|[i ost] outs Host _ IH]; [done|].
  cbn [flat_map]. rewrite filter_app, map_app, <- IH. f_equal. clear IH.
  cbn [fst snd] in *. induction ost as [|[o stm] ost IHost]; [done|].
  cbn [map fst] in Host. inversion Host as [|? ? Hsorted Hall]; subst.
  cbn [omap_find flat_map fst snd]. rewrite filter_app, map_app.
  destruct (decide (o = emptyToken)) as [->|Ho].
  - cbn [default from_option id].
    rewrite filter_Forall_id.
    2:{ apply Forall_forall. intros e He.
        apply list_elem_of_fmap in He as (s_t & -> & _). done. }
    rewrite filter_Forall_nil.
    2:{ apply Forall_forall. intros e He.
        apply list_elem_of_In, in_flat_map in He as ([o' stm'] & Hin & He).
        apply in_map_iff in He as (s_t & <- & _). cbn [fst snd].
        rewrite Forall_forall in Hall.
        assert (emptyToken < o'); [|unfold emptyToken in *; lia].
        apply Hall. apply list_elem_of_fmap. exists (o', stm'). split; [done|].
        by apply list_elem_of_In. }
    rewrite app_nil_r, map_map. cbn [fst snd]. unfold entry_dest, entry_trans. cbn [fst snd].
    induction stm as [|[d T] stm IHstm]; [done|]. cbn [map fst snd]. by rewrite <- IHstm.
  - rewrite filter_Forall_nil.
    2:{ apply Forall_forall. intros e He.
        apply list_elem_of_fmap in He as (s_t & -> & _). done. }
    cbn [map app]. by apply IHost.
Qed.

Lemma em_wf_null_dests (em : EvaluatedMachine N) : em_wf em -> null_dests_in_range em.
Proof.
  intros Hwf s ems Hems. destruct (Hwf s ems Hems) as [Hsorted Hdests].
  rewrite nullTransitions_entries by done.
  apply Forall_forall. intros s_t Hs_t.
  apply list_elem_of_fmap in Hs_t as (e & -> & He).
  apply list_elem_of_filter in He as [_ He].
  rewrite Forall_forall in Hdests. by apply Hdests.
Qed.

End MatrixFacts.

Section BuiltFacts.
Context {N : Numerics} {W : WeightAlgebra N}.

Lemma built_em_wf (machine : Machine W) params (em : EvaluatedMachine N) :
  EvaluatedMachine_new machine params = Ok em -> em_wf em.
Proof.
  intros Hnew.
  apply EvaluatedMachine_new_Ok in Hnew as (_ & _ & _ & Hn & _ & ess & Hbuilt).
  pose proof Hbuilt as (Hess & Hdests & Hst).
  intros s ems Hems.
  destruct (lookup_lt_is_Some_2 (state machine) s) as [ms Hms].
  { unfold em_nStates, nStates in Hn. rewrite <- Hn. by eapply lookup_lt_Some. }
  destruct (Forall2_lookup_l _ _ _ _ _ Hess Hms) as (es & Hes & _).
  destruct (built_outgoing_sorted machine params em ess s ms es ems Hbuilt Hms Hes Hems)
    as (_ & Hperm & _ & Hwf).
  split; [exact Hwf|]. rewrite Hperm, Hn.
  rewrite Forall_forall in Hdests. apply Hdests. by eapply list_elem_of_lookup_2.
Qed.

End BuiltFacts.

Section SumInTransFacts.
Context {N : Numerics} {W : WeightAlgebra N} {G : Gsl N}.

Lemma invert_and_log_returns (m g : Matrix N) :
  gsl_returns G m g -> invert_and_log (G := G) m = Ok (log_matrix g).
Proof.
  intros (lu & perm & sg & st & st' & Hdecomp & Hinvert).
  unfold invert_and_log. rewrite Hdecomp. cbn [mbind result_bind rbind].
  by rewrite Hinvert.
Qed.

(** The outcome of [sumInTrans] is that of the computation without the
    test. *)
Lemma sumInTrans_silent_eq (em : EvaluatedMachine N) :
  snd (sumInTrans (G := G) em) = sumInTrans_silent (G := G) em.
Proof.
  unfold sumInTrans, sumInTrans_silent.
  rewrite <- oneMinusNullTrans_without_log.
  destruct (oneMinusNullTrans em) as [[[m p] log]|e]; done.
Qed.

(** On a machine the constructors built, the loops of [sumInTrans] run to
    their end: the matrix handed to GSL is the identity less the weights of
    the output-empty transitions, [pExit] holds the exit sums, and the log
    holds a warning for every sum above the threshold. *)
Lemma sumInTrans_built (machine : Machine W) params (em : EvaluatedMachine N) :
  EvaluatedMachine_new machine params = Ok em ->
  exists m p log,
    oneMinusNullTrans em = Ok (m, p, log) /\
    silent_oneMinusNullTrans em = Ok (m, p) /\
    sumInTrans (G := G) em = (log, invert_and_log (G := G) m) /\
    matrix_shape (em_nStates em) m /\
    forall s ems, em_state em !! s = Some ems ->
      p !! s = Some (exitProbability ems) /\
      forall d, mat_get m s d = oneMinusNull_entry ems s d.
Proof.
  intros Hnew. apply built_em_wf, em_wf_null_dests in Hnew.
  destruct (silent_oneMinusNullTrans_Ok em Hnew) as (m & p & Hsilent & Hshape & _ & Hentries).
  pose proof (oneMinusNullTrans_without_log em) as Hlog. rewrite Hsilent in Hlog.
  destruct (oneMinusNullTrans em) as [[[m' p'] log]|e] eqn:Hloop; [|done].
  cbn in Hlog. injection Hlog as -> ->.
  exists m, p, log. split; [done|]. split; [done|]. split; [|done].
  unfold sumInTrans. by rewrite Hloop.
Qed.

(** C6.  On a machine the constructors built, a state whose output-empty
    weights sum to more than the threshold has its warning in the log
    (level 6, with the sum); the loops run to their end all the same, and
    the outcome of the call is the outcome of the same computation with
    the test left out. *)
Theorem warning_leaves_result (machine : Machine W) params (em : EvaluatedMachine N) :
  d_gt N (d_zero N) (d_threshold N) = false ->
  EvaluatedMachine_new machine params = Ok em ->
  (forall s ems, em_state em !! s = Some ems ->
     d_gt N (exitProbability ems) (d_threshold N) = true ->
     Warning_pExit 6 s (exitProbability ems) ∈ fst (sumInTrans (G := G) em)) /\
  (exists m p log, oneMinusNullTrans em = Ok (m, p, log) /\
     snd (sumInTrans (G := G) em) = invert_and_log (G := G) m) /\
  snd (sumInTrans (G := G) em) = sumInTrans_silent (G := G) em.
Proof.
  intros Hzero Hnew.
  destruct (sumInTrans_built machine params em Hnew)
    as (m & p & log & Hloop & _ & Hsum & _ & Hentries).
  split; [|split].
  - intros s ems Hems Hgt. rewrite Hsum. cbn [fst].
    apply (oneMinusNullTrans_warned em m p log Hzero Hloop).
    + by apply Hentries.
    + exact Hgt.
  - exists m, p, log. split; [done|]. by rewrite Hsum.
  - apply sumInTrans_silent_eq.
Qed.

(** [sumInTrans] tests nothing about the matrix and raises no error of its
    own after the loops: on a machine the constructors built, the call
    ends in an error exactly when one of the two GSL routines ends the run,
    with that error, and whenever both routines return it returns the
    logarithms of whatever [gsl_linalg_LU_invert] left in its output
    matrix, the two statuses unread. *)
Lemma sumInTrans_defers_to_gsl (machine : Machine W) params (em : EvaluatedMachine N) :
  EvaluatedMachine_new machine params = Ok em ->
  exists m p,
    silent_oneMinusNullTrans em = Ok (m, p) /\
    (forall e, gsl_linalg_LU_decomp G m = Fatal e ->
       snd (sumInTrans (G := G) em) = Fatal e) /\
    (forall lu perm signum status e,
       gsl_linalg_LU_decomp G m = Ok (lu, perm, signum, status) ->
       gsl_linalg_LU_invert G lu perm = Fatal e ->
       snd (sumInTrans (G := G) em) = Fatal e) /\
    (forall g, gsl_returns G m g ->
       snd (sumInTrans (G := G) em) = Ok (log_matrix g)).
Proof.
  intros Hnew.
  destruct (sumInTrans_built machine params em Hnew)
    as (m & p & log & _ & Hsilent & Hsum & _).
  exists m, p. split; [done|]. rewrite Hsum. cbn [snd].
  split; [|split].
  - intros e He. unfold invert_and_log. by rewrite He.
  - intros lu perm sg st e Hdecomp He. unfold invert_and_log.
    rewrite Hdecomp. cbn [mbind result_bind rbind]. by rewrite He.
  - apply invert_and_log_returns.
Qed.

End SumInTransFacts.

Section IdealFacts.
Import Ideal Examples.
Local Open Scope R_scope.

Lemma unit_loop_built : EvaluatedMachine_new unit_loop_machine None = Ok unit_loop_em.
Proof. reflexivity. Qed.

Lemma double_loop_built : EvaluatedMachine_new double_loop_machine None = Ok double_loop_em.
Proof. reflexivity. Qed.

Lemma emitting_built : EvaluatedMachine_new emitting_machine None = Ok emitting_em.
Proof. reflexivity. Qed.

(** *** Exact arithmetic *)

Lemma identity_entry_kronecker (s d : nat) :
  identity_entry (N := ideal) s d = Fin (kronecker s d).
Proof. unfold identity_entry, kronecker. by case_decide. Qed.

Lemma Rsum_ext (f g : nat -> R) (n : nat) :
  (forall k, (k < n)%nat -> f k = g k) -> Rsum f n = Rsum g n.
Proof.
  induction n as [|n IH]; intros Hfg; [done|].
  cbn. rewrite IH, Hfg; [done|lia|]. intros k Hk. apply Hfg. lia.
Qed.

Lemma Rsum_minus (f g : nat -> R) (n : nat) :
  Rsum (fun k => f k - g k) n = Rsum f n - Rsum g n.
Proof. induction n as [|n IH]; cbn; [lra|]. rewrite IH. lra. Qed.

Lemma Rsum_zero (f : nat -> R) (n : nat) :
  (forall k, (k < n)%nat -> f k = 0) -> Rsum f n = 0.
Proof.
  induction n as [|n IH]; intros Hf; [done|].
  cbn. rewrite IH, Hf; [lra|lia|]. intros k Hk. apply Hf. lia.
Qed.

Lemma Rsum_kronecker (f : nat -> R) (s n : nat) :
  (s < n)%nat -> Rsum (fun k => kronecker s k * f k) n = f s.
Proof.
  induction n as [|n IH]; intros Hs; [lia|].
  cbn. destruct (decide (s = n)) as [->|Hne].
  - rewrite Rsum_zero.
    + unfold kronecker. rewrite decide_True by done. lra.
    + intros k Hk. unfold kronecker. rewrite decide_False by lia. lra.
  - rewrite IH by lia. unfold kronecker at 1. rewrite decide_False by done. lra.
Qed.

Lemma finite_matrix_get (n : nat) (a : nat -> nat -> R) (m : Matrix ideal) (i j : nat) :
  finite_matrix n a m -> (i < n)%nat -> (j < n)%nat -> mat_get m i j = Fin (a i j).
Proof.
  intros [_ Hrows] Hi Hj. destruct (Hrows i Hi) as (row & Hrow & _ & Hcells).
  specialize (Hcells j Hj). unfold mat_get. rewrite Hrow. simpl in *. by rewrite Hcells.
Qed.

Lemma log_matrix_cell {N : Numerics} (g : Matrix N) (i j : nat) row x :
  g !! i = Some row -> row !! j = Some x ->
  exists row', log_matrix g !! i = Some row' /\ row' !! j = Some (d_log N x).
Proof.
  intros Hrow Hx. exists (d_log N <$> row). unfold log_matrix. split.
  - change (map (map (d_log N)) g) with (map (d_log N) <$> g).
    by rewrite list_lookup_fmap, Hrow.
  - by rewrite list_lookup_fmap, Hx.
Qed.

Lemma log_matrix_lookup (n : nat) (b : nat -> nat -> R) (g : Matrix ideal) (i j : nat) :
  finite_matrix n b g -> (i < n)%nat -> (j < n)%nat ->
  exists row, log_matrix g !! i = Some row /\ row !! j = Some (xlog (Fin (b i j))).
Proof.
  intros [_ Hrows] Hi Hj. destruct (Hrows i Hi) as (row & Hrow & _ & Hcells).
  exact (log_matrix_cell g i j row _ Hrow (Hcells j Hj)).
Qed.

Lemma xlog_one : xlog (Fin 1) = Fin 0.
Proof.
  unfold xlog. destruct (Rlt_dec 0 1) as [_|Hn]; [by rewrite ln_1|]. exfalso. lra.
Qed.

Lemma xlog_negative (r : R) : r < 0 -> xlog (Fin r) = NaN.
Proof.
  intros Hr. unfold xlog. destruct (Rlt_dec 0 r); [lra|].
  destruct (Req_dec_T r 0); [lra|done].
Qed.

Lemma xlog_zero : xlog (Fin 0) = NInf.
Proof.
  unfold xlog. destruct (Rlt_dec 0 0); [lra|].
  destruct (Req_dec_T 0 0); [done|lra].
Qed.

(** The logarithm of a weight, a real that is not negative or the positive
    infinity, is a number or an infinity. *)
Lemma xlog_weight (t : xreal) : xge t (Fin 0) = true -> xlog t <> NaN.
Proof.
  destruct t as [r| | |]; cbn; try done.
  destruct (Rge_dec r 0) as [Hr|]; [|done]. intros _.
  destruct (Rlt_dec 0 r); [done|]. destruct (Req_dec_T r 0); [done|lra].
Qed.

(** *** The example machines *)

Lemma quarter_loop_built :
  EvaluatedMachine_new quarter_loop_machine (Some quarter_params) = Ok quarter_loop_em.
Proof. reflexivity. Qed.


Lemma double_loop_matrix :
  silent_oneMinusNullTrans double_loop_em
  = Ok ([[Fin (1 + - exp 0 + - exp 0)]], [Fin (0 + exp 0 + exp 0)]).
Proof. reflexivity. Qed.

Lemma emitting_matrix : silent_oneMinusNullTrans emitting_em = Ok ([[Fin 1]], [Fin 0]).
Proof. reflexivity. Qed.

Lemma quarter_weight : xexp (xlog (Fin (1 / 4))) = Fin (1 / 4).
Proof.
  unfold xlog. destruct (Rlt_dec 0 (1 / 4)) as [Hpos|Hn]; [|exfalso; lra].
  cbn. by rewrite exp_ln.
Qed.

Lemma quarter_loop_matrix :
  silent_oneMinusNullTrans quarter_loop_em = Ok ([[Fin (3 / 4)]], [Fin (1 / 4)]).
Proof.
  transitivity (Ok (A := Matrix ideal * list xreal) ([[xsub (Fin 1) (xexp (xlog (Fin (1 / 4))))]],
                    [xadd (Fin 0) (xexp (xlog (Fin (1 / 4))))])); [reflexivity|].
  rewrite quarter_weight. cbn. do 4 f_equal; f_equal; lra.
Qed.

(** *** Matrices of order one *)

Lemma scalar_inverse (x : R) (g : Matrix ideal) :
  is_inverse [[Fin x]] g -> exists y, g = [[Fin y]] /\ x * y = 1.
Proof.
  intros (a & b & Ha & [Hlen Hrows] & Hab & _). cbn [length] in *.
  pose proof (finite_matrix_get _ a _ 0 0 Ha (le_n 1) (le_n 1)) as Hcell.
  cbn in Hcell. injection Hcell as Hcell.
  specialize (Hab 0%nat 0%nat (le_n 1) (le_n 1)). cbn in Hab.
  unfold kronecker in Hab. rewrite decide_True in Hab by done.
  destruct (Hrows 0%nat (le_n 1)) as (row & Hrow & Hlen' & Hcells).
  specialize (Hcells 0%nat (le_n 1)).
  destruct g as [|r [|]]; try done. cbn in Hrow. injection Hrow as ->.
  destruct row as [|c [|]]; try done. cbn in Hcells. injection Hcells as ->.
  exists (b 0%nat 0%nat). split; [done|]. rewrite Hcell. lra.
Qed.

Lemma scalar_is_inverse (x : R) : x <> 0 -> is_inverse [[Fin x]] [[Fin (/ x)]].
Proof.
  intros Hx. exists (fun _ _ => x), (fun _ _ => / x). cbn [length].
  assert (Hcells : forall y, finite_matrix 1 (fun _ _ => y) [[Fin y]]).
  { intros y. split; [done|]. intros i Hi. exists [Fin y].
    destruct i as [|i]; [|lia]. split; [done|]. split; [done|].
    intros j Hj. destruct j as [|j]; [done|lia]. }
  split; [apply Hcells|]. split; [apply Hcells|].
  split; intros i j Hi Hj; cbn; unfold kronecker;
    (rewrite decide_True by lia); field; exact Hx.
Qed.

Lemma scalar_gsl_returns_inverse (x : R) :
  x <> 0 -> gsl_returns scalar_gsl [[Fin x]] [[Fin (/ x)]].
Proof.
  intros Hx. exists [[Fin x]], tt, 1%Z, GSL_SUCCESS, GSL_SUCCESS.
  split; [done|]. cbn. destruct (Req_dec_T x 0); done.
Qed.

Lemma sumInTrans_returns {N : Numerics} {G : Gsl N} (em : EvaluatedMachine N) m p g :
  silent_oneMinusNullTrans em = Ok (m, p) -> gsl_returns G m g ->
  snd (sumInTrans (G := G) em) = Ok (log_matrix g).
Proof.
  intros Hm Hg. rewrite sumInTrans_silent_eq. unfold sumInTrans_silent.
  rewrite Hm. cbn [mbind result_bind rbind]. by apply invert_and_log_returns.
Qed.

Lemma unit_loop_singular (g : Matrix ideal) : ~ is_inverse [[Fin (1 + - exp 0)]] g.
Proof.
  intros Hinv. apply scalar_inverse in Hinv as (y & _ & Hy).
  rewrite exp_0 in Hy. lra.
Qed.

Lemma double_loop_inverse (g : Matrix ideal) :
  is_inverse [[Fin (1 + - exp 0 + - exp 0)]] g -> log_matrix g = [[NaN]].
Proof.
  intros Hinv. apply scalar_inverse in Hinv as (y & -> & Hy).
  rewrite exp_0 in Hy. cbn [log_matrix map d_log ideal].
  rewrite xlog_negative; [done|lra].
Qed.

Lemma double_loop_result :
  snd (sumInTrans (G := scalar_gsl) double_loop_em) = Ok [[NaN]].
Proof.
  assert (Hne : 1 + - exp 0 + - exp 0 <> 0) by (rewrite exp_0; lra).
  rewrite (sumInTrans_returns _ _ _ _ double_loop_matrix (scalar_gsl_returns_inverse _ Hne)).
  f_equal. apply double_loop_inverse. by apply scalar_is_inverse.
Qed.

(** *** The claims at the example machines *)

Lemma warning_leaves_result_witness :
  Warning_pExit 6 0 (Fin (0 + exp 0 + exp 0))
    ∈ fst (sumInTrans (G := scalar_gsl) double_loop_em) /\
  snd (sumInTrans (G := scalar_gsl) double_loop_em)
  = sumInTrans_silent (G := scalar_gsl) double_loop_em.
Proof.
  assert (Hzero : d_gt ideal (d_zero ideal) (d_threshold ideal) = false).
  { cbn. unfold Rgtb. destruct (Rgt_dec 0 (101 / 100)); [lra|reflexivity]. }
  destruct (warning_leaves_result (G := scalar_gsl) double_loop_machine None
              double_loop_em Hzero double_loop_built) as (Hwarn & _ & Hsame).
  split; [|exact Hsame].
  apply (Hwarn 0%nat _ eq_refl).
  change (Rgtb (0 + exp 0 + exp 0) (101 / 100) = true).
  unfold Rgtb. destruct (Rgt_dec (0 + exp 0 + exp 0) (101 / 100)) as [_|Hn];
    [reflexivity|]. exfalso. apply Hn. rewrite exp_0. lra.
Defined.

(** An advancing machine with [sumInTrans()[0][0]] not a number, whatever
    inverse GSL returns: not at least zero. *)
Lemma sumInTrans_diagonal_not_a_number :
  isAdvancingMachine double_loop_machine = true /\
  EvaluatedMachine_new double_loop_machine None = Ok double_loop_em /\
  (forall (G : Gsl ideal) m p g,
     silent_oneMinusNullTrans double_loop_em = Ok (m, p) ->
     gsl_returns G m g -> is_inverse m g ->
     snd (sumInTrans (G := G) double_loop_em) = Ok [[NaN]]) /\
  snd (sumInTrans (G := scalar_gsl) double_loop_em) = Ok [[NaN]] /\
  xge NaN (Fin 0) = false.
Proof.
  split; [reflexivity|]. split; [apply double_loop_built|].
  split; [|split; [apply double_loop_result|reflexivity]].
  intros G m p g Hm Hg Hinv.
  rewrite (sumInTrans_returns _ _ _ _ Hm Hg). f_equal.
  rewrite double_loop_matrix in Hm. injection Hm as <- <-.
  by apply double_loop_inverse.
Qed.

End IdealFacts.

(** ** Real matrices, inverses and path sums *)

Section RealMatrices.
Import Ideal.
Local Open Scope R_scope.

Lemma Rsum_plus (f g : nat -> R) (n : nat) :
  Rsum (fun k => f k + g k) n = Rsum f n + Rsum g n.
Proof. induction n as [|n IH]; cbn; [lra|]. rewrite IH. lra. Qed.

Lemma Rsum_scal_l (c : R) (f : nat -> R) (n : nat) :
  Rsum (fun k => c * f k) n = c * Rsum f n.
Proof. induction n as [|n IH]; cbn; [lra|]. rewrite IH. lra. Qed.

Lemma Rsum_scal_r (c : R) (f : nat -> R) (n : nat) :
  Rsum (fun k => f k * c) n = Rsum f n * c.
Proof. induction n as [|n IH]; cbn; [lra|]. rewrite IH. lra. Qed.

Lemma Rsum_swap (f : nat -> nat -> R) (n m : nat) :
  Rsum (fun i => Rsum (fun j => f i j) m) n = Rsum (fun j => Rsum (fun i => f i j) n) m.
Proof.
  induction n as [|n IH]; cbn.
  - symmetry. by apply Rsum_zero.
  - by rewrite IH, <- Rsum_plus.
Qed.

Lemma Rsum_nonneg (f : nat -> R) (n : nat) :
  (forall k, (k < n)%nat -> 0 <= f k) -> 0 <= Rsum f n.
Proof.
  induction n as [|n IH]; intros Hf; cbn; [lra|].
  assert (0 <= Rsum f n) by (apply IH; intros k Hk; apply Hf; lia).
  assert (0 <= f n) by (apply Hf; lia). lra.
Qed.

Lemma Un_cv_const (c : R) : Un_cv (fun _ => c) c.
Proof.
  intros eps Heps. exists 0%nat. intros k _.
  unfold Rdist. by rewrite Rminus_diag, Rabs_R0.
Qed.

Lemma Un_cv_Rsum (f : nat -> nat -> R) (l : nat -> R) (n : nat) :
  (forall j, (j < n)%nat -> Un_cv (fun k => f k j) (l j)) ->
  Un_cv (fun k => Rsum (fun j => f k j) n) (Rsum l n).
Proof.
  induction n as [|n IH]; intros Hf; cbn.
  - apply Un_cv_const.
  - apply CV_plus; [apply IH; intros j Hj; apply Hf; lia|apply Hf; lia].
Qed.

Lemma kronecker_nonneg (s d : nat) : 0 <= kronecker s d.
Proof. unfold kronecker. case_decide; lra. Qed.

Lemma kronecker_diag (s : nat) : kronecker s s = 1.
Proof. unfold kronecker. by rewrite decide_True. Qed.

(** An inverse satisfies the one-step equation of the path sums. *)
Lemma inverse_step (n : nat) (a b nu : nat -> nat -> R) (s d : nat) :
  (forall i j, nu i j = kronecker i j - a i j) ->
  inverse_reals n a b -> (s < n)%nat -> (d < n)%nat ->
  b s d = kronecker s d + Rsum (fun k => nu s k * b k d) n.
Proof.
  intros Hnu [Hab _] Hs Hd. specialize (Hab s d Hs Hd).
  rewrite (Rsum_ext _ (fun k => kronecker s k * b k d - a s k * b k d))
    by (intros; rewrite Hnu; lra).
  rewrite Rsum_minus, (Rsum_kronecker (fun k => b k d)) by done. lra.
Qed.

Lemma inverse_is_path_limit_of (n : nat) (a b nu T : nat -> nat -> R) :
  (forall i j, nu i j = kronecker i j - a i j) ->
  inverse_reals n a b ->
  paths_converge n nu T ->
  forall s d, (s < n)%nat -> (d < n)%nat -> b s d = T s d.
Proof.
  intros Hnu Hinv Hcv. pose proof Hinv as [Hab Hba].
  set (E := fun i j => b i j - T i j).
  assert (Hstep : forall i j, (i < n)%nat -> (j < n)%nat ->
            E i j = Rsum (fun k => nu i k * E k j) n).
  { intros i j Hi Hj.
    apply (UL_sequence (fun k => b i j - path_sum n nu (S k) i j)).
    - apply (Un_cv_ext (fun k => b i j - path_sum n nu (k + 1) i j)).
      { intros k. by rewrite Nat.add_1_r. }
      apply (CV_shift' (fun k => b i j - path_sum n nu k i j) 1).
      apply CV_minus; [apply Un_cv_const|by apply Hcv].
    - apply (Un_cv_ext (fun k => Rsum (fun x => nu i x * (b x j - path_sum n nu k x j)) n)).
      + intros k. cbn [path_sum].
        rewrite (inverse_step n a b nu i j Hnu Hinv Hi Hj) at 1.
        rewrite (Rsum_ext (fun x => nu i x * (b x j - path_sum n nu k x j))
                   (fun x => nu i x * b x j - nu i x * path_sum n nu k x j))
          by (intros; lra).
        rewrite Rsum_minus. lra.
      + apply (Un_cv_Rsum (fun k x => nu i x * (b x j - path_sum n nu k x j))
                 (fun x => nu i x * E x j)).
        intros x Hx. apply CV_mult; [apply Un_cv_const|].
        apply CV_minus; [apply Un_cv_const|by apply Hcv]. }
  assert (HaE : forall i j, (i < n)%nat -> (j < n)%nat ->
            Rsum (fun k => a i k * E k j) n = 0).
  { intros i j Hi Hj.
    rewrite (Rsum_ext _ (fun k => kronecker i k * E k j - nu i k * E k j))
      by (intros; rewrite Hnu; lra).
    rewrite Rsum_minus, (Rsum_kronecker (fun k => E k j)), <- Hstep by done. lra. }
  intros s d Hs Hd.
  assert (HE : E s d = 0).
  { rewrite <- (Rsum_kronecker (fun i => E i d) s n Hs).
    rewrite (Rsum_ext _ (fun i => Rsum (fun j => b s j * (a j i * E i d)) n)).
    - rewrite Rsum_swap.
      rewrite (Rsum_ext _ (fun j => b s j * 0)); [apply Rsum_zero; intros; lra|].
      intros j Hj. by rewrite Rsum_scal_l, HaE.
    - intros i Hi. rewrite <- (Hba s i Hs Hi), <- Rsum_scal_r.
      apply Rsum_ext. intros; lra. }
  unfold E in HE. lra.
Qed.

(** When the path sums converge, the inverse is their limit. *)
Lemma inverse_is_path_limit (n : nat) (a b T : nat -> nat -> R) :
  inverse_reals n a b ->
  paths_converge n (fun s d => kronecker s d - a s d) T ->
  forall s d, (s < n)%nat -> (d < n)%nat -> b s d = T s d.
Proof. by apply inverse_is_path_limit_of. Qed.

(** Path sums of weights that are not negative are not negative, and count
    the empty path. *)
Lemma path_sum_bounds (n : nat) (nu : nat -> nat -> R) (k s d : nat) :
  (forall i j, (i < n)%nat -> (j < n)%nat -> 0 <= nu i j) ->
  (s < n)%nat -> (d < n)%nat ->
  kronecker s d <= path_sum n nu k s d.
Proof.
  intros Hnu. revert s d. induction k as [|k IH]; intros s d Hs Hd; cbn [path_sum]; [lra|].
  assert (0 <= Rsum (fun j => nu s j * path_sum n nu k j d) n).
  { apply Rsum_nonneg. intros j Hj. apply Rmult_le_pos; [by apply Hnu|].
    pose proof (IH j d Hj Hd). pose proof (kronecker_nonneg j d). lra. }
  lra.
Qed.

Lemma path_limit_diagonal (n : nat) (nu T : nat -> nat -> R) (s : nat) :
  (forall i j, (i < n)%nat -> (j < n)%nat -> 0 <= nu i j) ->
  paths_converge n nu T -> (s < n)%nat -> 1 <= T s s.
Proof.
  intros Hnu Hcv Hs.
  apply Rle_cv_lim with (Un := fun _ => 1) (Vn := fun k => path_sum n nu k s s).
  - intros k. rewrite <- (kronecker_diag s) at 1. by apply path_sum_bounds.
  - apply Un_cv_const.
  - by apply Hcv.
Qed.

End RealMatrices.

(** ** sumInTrans, inverses and path weights *)

Section PathWeights.
Context {N : Numerics} {W : WeightAlgebra N} {G : Gsl N}.
Variable real_of : double N -> option R.

Lemma reads_as_get (n : nat) (a : nat -> nat -> R) (m : Matrix N) (i j : nat) :
  reads_as real_of n a m -> i < n -> j < n -> real_of (mat_get m i j) = Some (a i j).
Proof.
  intros [_ Hrows] Hi Hj. destruct (Hrows i Hi) as (row & Hrow & _ & Hcells).
  destruct (Hcells j Hj) as (x & Hx & Hreal).
  unfold mat_get. rewrite Hrow. simpl. by rewrite Hx.
Qed.

Lemma reads_as_log_cell (n : nat) (b : nat -> nat -> R) (g : Matrix N) (i j : nat) :
  reads_as real_of n b g -> i < n -> j < n ->
  exists row x, g !! i <> None /\ log_matrix g !! i = Some row /\
    row !! j = Some (d_log N x) /\ real_of x = Some (b i j).
Proof.
  intros [_ Hrows] Hi Hj. destruct (Hrows i Hi) as (row & Hrow & _ & Hcells).
  destruct (Hcells j Hj) as (x & Hx & Hreal).
  destruct (log_matrix_cell g i j row x Hrow Hx) as (row' & Hrow' & Hcell).
  exists row', x. split; [by rewrite Hrow|]. done.
Qed.

Lemma identity_entry_reads (s d : nat) :
  monotone_reading real_of -> real_of (identity_entry s d) = Some (Ideal.kronecker s d).
Proof.
  intros (Hzero & Hone & _). unfold identity_entry, Ideal.kronecker. by case_decide.
Qed.

(** Taking weights off a double leaves no more than the double. *)
Lemma fold_sub_le (nts : list (nat * Trans N)) (x : double N) (r : R) :
  monotone_reading real_of ->
  real_of (fold_left (d_sub N) (map (fun s_t => d_exp N (logWeight (snd s_t))) nts) x)
  = Some r ->
  exists rx, real_of x = Some rx /\ (r <= rx)%R.
Proof.
  intros Hmono. pose proof Hmono as (_ & _ & Hsub & _).
  revert x. induction nts as [|s_t nts IH]; intros x Hr; cbn [map fold_left] in Hr.
  - exists r. split; [done|]. lra.
  - destruct (IH _ Hr) as (r' & Hr' & Hle).
    destruct (Hsub _ _ _ Hr') as (rx & Hrx & Hle').
    exists rx. split; [done|]. lra.
Qed.

(** The entries of the matrix are at most those of the identity: the step
    weights it carries are not negative. *)
Lemma built_matrix_le (em : EvaluatedMachine N) (m : Matrix N) (a : nat -> nat -> R)
    (s d : nat) ems :
  monotone_reading real_of ->
  reads_as real_of (em_nStates em) a m ->
  em_state em !! s = Some ems -> d < em_nStates em ->
  mat_get m s d = oneMinusNull_entry ems s d ->
  (a s d <= Ideal.kronecker s d)%R.
Proof.
  intros Hmono Ha Hems Hd Hentry.
  assert (Hs : s < em_nStates em) by (by apply lookup_lt_Some in Hems).
  pose proof (reads_as_get _ a m s d Ha Hs Hd) as Hcell.
  rewrite Hentry in Hcell. unfold oneMinusNull_entry, nullWeights in Hcell.
  destruct (fold_sub_le _ _ _ Hmono Hcell) as (rx & Hrx & Hle).
  rewrite (identity_entry_reads s d Hmono) in Hrx. injection Hrx as <-. done.
Qed.

(** C1.  On a machine the constructors built, [sumInTrans] builds the
    matrix whose entry [(s, d)] is the identity's with [exp (logWeight)] of
    each output-empty transition from [s] to [d] taken off it in turn,
    those being all the outgoing entries of [s] with the empty output
    token, and returns, entry by entry, the [log] of whatever
    [gsl_linalg_LU_invert] writes for it.  Whenever that is the inverse of
    the matrix and the weights of the output-empty paths, with the steps
    weighing what the matrix holds below the identity, add up to [T], the
    entry [(s, d)] of the result is the [log] of a double whose value is
    [T s d], the total weight of the output-empty paths from [s] to [d],
    the empty path included. *)
Theorem sumInTrans_logs_path_weights (machine : Machine W) params
    (em : EvaluatedMachine N) :
  EvaluatedMachine_new machine params = Ok em ->
  exists (m : Matrix N) p,
    silent_oneMinusNullTrans em = Ok (m, p) /\
    matrix_shape (em_nStates em) m /\
    (forall s ems d, em_state em !! s = Some ems ->
       mat_get m s d = oneMinusNull_entry ems s d) /\
    (forall s ems, em_state em !! s = Some ems ->
       nullTransitions ems
       = map (fun e : Entry N => (entry_dest e, entry_trans e))
             (filter (fun e : Entry N => snd (fst (fst e)) = emptyToken)
                     (outgoingEntries ems))) /\
    (forall g, gsl_returns G m g ->
       snd (sumInTrans (G := G) em) = Ok (log_matrix g)) /\
    forall g a b T,
      gsl_returns G m g ->
      reads_as real_of (em_nStates em) a m ->
      reads_as real_of (em_nStates em) b g ->
      inverse_reals (em_nStates em) a b ->
      paths_converge (em_nStates em) (fun s d => Ideal.kronecker s d - a s d)%R T ->
      forall s d, s < em_nStates em -> d < em_nStates em ->
        exists L row x,
          snd (sumInTrans (G := G) em) = Ok L /\ L !! s = Some row /\
          row !! d = Some (d_log N x) /\ real_of x = Some (T s d).
Proof.
  intros Hnew.
  destruct (sumInTrans_built (G := G) machine params em Hnew)
    as (m & p & log & _ & Hsilent & Hsum & Hshape & Hentries).
  exists m, p. split; [done|]. split; [done|]. split; [|split; [|split]].
  - intros s ems d Hems. by apply Hentries.
  - intros s ems Hems. apply nullTransitions_entries.
    apply (built_em_wf machine params em Hnew s ems Hems).
  - intros g Hg. rewrite Hsum. cbn [snd]. by apply invert_and_log_returns.
  - intros g a b T Hg Ha Hb Hinv Hcv s d Hs Hd.
    destruct (reads_as_log_cell _ b g s d Hb Hs Hd) as (row & x & _ & Hrow & Hcell & Hx).
    exists (log_matrix g), row, x. split; [|split; [done|split; [done|]]].
    + rewrite Hsum. cbn [snd]. by apply invert_and_log_returns.
    + by rewrite Hx, (inverse_is_path_limit _ a b T Hinv Hcv s d Hs Hd).
Qed.


(** C8.  On a machine the constructors built, an advancing one, whenever
    the two GSL routines return the inverse of the matrix: the entry
    [(s, s)] of the result is the [log] of a double; it is 0 when [s] has
    no output-empty outgoing transition, and it is at least 0 for every
    state when the weights of the output-empty paths add up. *)
Theorem sumInTrans_diagonal_nonnegative (machine : Machine W) params
    (em : EvaluatedMachine N) (m : Matrix N) p (g : Matrix N)
    (a b : nat -> nat -> R) (s : StateIndex) (ems : EvaluatedMachineState N) :
  monotone_reading real_of ->
  EvaluatedMachine_new machine params = Ok em ->
  silent_oneMinusNullTrans em = Ok (m, p) ->
  gsl_returns G m g ->
  reads_as real_of (em_nStates em) a m ->
  reads_as real_of (em_nStates em) b g ->
  inverse_reals (em_nStates em) a b ->
  em_state em !! s = Some ems ->
  isAdvancingMachine machine = true /\
  exists L row x,
    snd (sumInTrans (G := G) em) = Ok L /\ L !! s = Some row /\ row !! s = Some x /\
    (nullTransitions ems = [] -> real_of x = Some 0%R) /\
    (forall T,
       paths_converge (em_nStates em) (fun s d => Ideal.kronecker s d - a s d)%R T ->
       exists r, real_of x = Some r /\ (0 <= r)%R).
Proof.
  intros Hmono Hnew Hsilent Hg Ha Hb Hinv Hems.
  destruct (sumInTrans_built (G := G) machine params em Hnew)
    as (m' & p' & log & _ & Hsilent' & Hsum & _ & Hentries).
  rewrite Hsilent in Hsilent'. injection Hsilent' as <- <-.
  split; [by apply EvaluatedMachine_new_Ok in Hnew as (Hadv & _)|].
  assert (Hs : s < em_nStates em) by (by apply lookup_lt_Some in Hems).
  destruct (reads_as_log_cell _ b g s s Hb Hs Hs) as (row & x & _ & Hrow & Hcell & Hx).
  pose proof Hmono as (_ & _ & _ & Hlog1 & Hlog).
  exists (log_matrix g), row, (d_log N x).
  split; [|split; [done|split; [done|split]]].
  - rewrite Hsum. cbn [snd]. by apply invert_and_log_returns.
  - intros Hnull. apply Hlog1. rewrite Hx. f_equal.
    assert (Hrow_s : forall k, k < em_nStates em -> a s k = Ideal.kronecker s k).
    { intros k Hk. pose proof (reads_as_get _ a m s k Ha Hs Hk) as Hak.
      rewrite (proj2 (Hentries s ems Hems)) in Hak.
      unfold oneMinusNull_entry, nullWeights in Hak. rewrite Hnull in Hak.
      cbn [filter list_filter map fold_left] in Hak.
      rewrite (identity_entry_reads s k Hmono) in Hak. by injection Hak. }
    destruct Hinv as [Hab _]. specialize (Hab s s Hs Hs).
    rewrite (Rsum_ext _ (fun k => Ideal.kronecker s k * b k s)%R) in Hab
      by (intros k Hk; by rewrite (Hrow_s k Hk)).
    rewrite (Rsum_kronecker (fun k => b k s)) in Hab by done.
    rewrite Hab. apply kronecker_diag.
  - intros T Hcv. apply (Hlog x (b s s) Hx).
    rewrite (inverse_is_path_limit _ a b T Hinv Hcv s s Hs Hs).
    apply (path_limit_diagonal _ _ T s) in Hcv; [done| |done].
    intros i j Hi Hj.
    destruct (lookup_lt_is_Some_2 (em_state em) i Hi) as [emi Hemi].
    pose proof (built_matrix_le em m a i j emi Hmono Ha Hemi Hj
                  (proj2 (Hentries i emi Hemi) j)). lra.
Qed.

End PathWeights.

(** *** The path weights of the example machines *)

Section PathWeightWitnesses.
Import Ideal Examples.
Local Open Scope R_scope.

Lemma ideal_monotone : monotone_reading ideal_real.
Proof.
  split; [done|]. split; [done|]. split; [|split].
  - intros x lw r Hr. destruct x as [rx| | |], lw as [l| | |]; cbn in Hr; try done.
    + injection Hr as <-. exists rx. split; [done|].
      pose proof (exp_pos l). lra.
    + injection Hr as <-. exists rx. split; [done|]. lra.
  - intros x Hx. destruct x as [r| | |]; cbn in Hx; try done.
    injection Hx as ->. change (ideal_real (xlog (Fin 1)) = Some 0).
    by rewrite xlog_one.
  - intros x r Hx Hr. destruct x as [r'| | |]; cbn in Hx; try done.
    injection Hx as ->. cbn. destruct (Rlt_dec 0 r) as [Hpos|Hn]; [|lra].
    exists (ln r). split; [done|].
    destruct (Req_dec_T r 1) as [->|Hne]; [rewrite ln_1; lra|].
    rewrite <- ln_1. left. apply ln_increasing; lra.
Qed.

Lemma reads_as_scalar (x : R) : reads_as ideal_real 1 (fun _ _ => x) [[Fin x]].
Proof.
  split; [done|]. intros [|i] Hi; [|lia]. exists [Fin x].
  split; [done|]. split; [done|]. intros [|j] Hj; [|lia]. by exists (Fin x).
Qed.

Lemma inverse_reals_scalar (x : R) :
  x <> 0 -> inverse_reals 1 (fun _ _ => x) (fun _ _ => / x).
Proof.
  intros Hx. split; intros [|i] [|j] Hi Hj; try lia; cbn;
    rewrite kronecker_diag; field; exact Hx.
Qed.



(** The loop of weight a quarter: paths of [k] steps weigh [(1/4)^k], and
    their weights add up to [4/3]. *)
Lemma quarter_path_sum (k : nat) :
  path_sum 1 (fun s d => kronecker s d - 3 / 4) k 0 0 = 4 / 3 - 1 / 3 * (1 / 4) ^ k.
Proof.
  induction k as [|k IH]; cbn [path_sum Rsum pow].
  - rewrite kronecker_diag. lra.
  - rewrite IH, kronecker_diag. lra.
Qed.

Lemma quarter_paths_converge :
  paths_converge 1 (fun s d => kronecker s d - 3 / 4) (fun _ _ => 4 / 3).
Proof.
  intros [|s] [|d] Hs Hd; try lia. intros eps Heps.
  destruct (pow_lt_1_zero (1 / 4)) with (y := eps) as [n0 Hn0]; [|done|].
  { rewrite Rabs_pos_eq; lra. }
  exists n0. intros k Hk. unfold Rdist. rewrite quarter_path_sum.
  specialize (Hn0 k Hk).
  replace (4 / 3 - 1 / 3 * (1 / 4) ^ k - 4 / 3) with (- (1 / 3 * (1 / 4) ^ k)) by lra.
  rewrite Rabs_Ropp, Rabs_mult, (Rabs_pos_eq (1 / 3)) by lra.
  pose proof (Rabs_pos ((1 / 4) ^ k)). lra.
Qed.

Lemma sumInTrans_logs_path_weights_witness :
  exists L row x,
    snd (sumInTrans (G := scalar_gsl) quarter_loop_em) = Ok L /\
    L !! 0%nat = Some row /\ row !! 0%nat = Some (xlog x) /\
    ideal_real x = Some (4 / 3).
Proof.
  destruct (sumInTrans_logs_path_weights (G := scalar_gsl) ideal_real quarter_loop_machine
              (Some quarter_params) quarter_loop_em quarter_loop_built)
    as (m & p & Hm & _ & _ & _ & _ & Hpaths).
  rewrite quarter_loop_matrix in Hm. injection Hm as <- <-.
  assert (Hne : 3 / 4 <> 0) by lra.
  exact (Hpaths [[Fin (/ (3 / 4))]] (fun _ _ => 3 / 4) (fun _ _ => / (3 / 4))
           (fun _ _ => 4 / 3) (scalar_gsl_returns_inverse _ Hne) (reads_as_scalar _)
           (reads_as_scalar _) (inverse_reals_scalar _ Hne) quarter_paths_converge
           0%nat 0%nat (le_n 1) (le_n 1)).
Defined.


Lemma sumInTrans_diagonal_nonnegative_witness :
  isAdvancingMachine quarter_loop_machine = true /\
  exists L row x,
    snd (sumInTrans (G := scalar_gsl) quarter_loop_em) = Ok L /\
    L !! 0%nat = Some row /\ row !! 0%nat = Some x /\
    exists r, ideal_real x = Some r /\ 0 <= r.
Proof.
  assert (Hne : 3 / 4 <> 0) by lra.
  destruct (sumInTrans_diagonal_nonnegative (G := scalar_gsl) ideal_real quarter_loop_machine
              (Some quarter_params) quarter_loop_em _ _ [[Fin (/ (3 / 4))]]
              (fun _ _ => 3 / 4) (fun _ _ => / (3 / 4)) 0%nat _
              ideal_monotone quarter_loop_built quarter_loop_matrix
              (scalar_gsl_returns_inverse _ Hne) (reads_as_scalar _)
              (reads_as_scalar _) (inverse_reals_scalar _ Hne) eq_refl)
    as (Hadv & L & row & x & HL & Hrow & Hx & _ & Hge).
  split; [exact Hadv|]. exists L, row, x.
  split; [exact HL|]. split; [exact Hrow|]. split; [exact Hx|].
  exact (Hge _ quarter_paths_converge).
Defined.

(** The loop of weight two: paths of [k] steps weigh [2^k] in all, and
    their weights do not add up. *)
Lemma double_path_sum (k : nat) :
  INR k <= path_sum 1 (fun s d => kronecker s d - (1 + - exp 0 + - exp 0)) k 0 0.
Proof.
  induction k as [|k IH]; cbn [path_sum Rsum].
  - rewrite kronecker_diag. cbn. lra.
  - rewrite S_INR, kronecker_diag. pose proof (pos_INR k).
    rewrite exp_0 in *. lra.
Qed.

Lemma double_paths_diverge (T : nat -> nat -> R) :
  ~ paths_converge 1 (fun s d => kronecker s d - (1 + - exp 0 + - exp 0)) T.
Proof.
  intros Hcv. destruct (Hcv 0%nat 0%nat (le_n 1) (le_n 1) 1 Rlt_0_1) as [n0 Hn0].
  destruct (INR_unbounded (T 0%nat 0%nat + 1)) as [n1 Hn1].
  specialize (Hn0 (Nat.max n0 n1) (Nat.le_max_l _ _)).
  pose proof (double_path_sum (Nat.max n0 n1)) as Hlow.
  pose proof (le_INR _ _ (Nat.le_max_r n0 n1)) as Hmax.
  unfold Rdist in Hn0. apply Rabs_def2 in Hn0 as [Hup _]. lra.
Qed.

(** A machine at which the result is not the logarithm of a path weight:
    two output-empty loops of weight 1 at one state.  The matrix is
    [[-1]], with the inverse [[-1]]; the result is not a number, which the
    logarithm of no weight is, and the weights of the paths do not add
    up. *)
Lemma sumInTrans_not_log_of_path_weight :
  EvaluatedMachine_new double_loop_machine None = Ok double_loop_em /\
  silent_oneMinusNullTrans double_loop_em
  = Ok ([[Fin (1 + - exp 0 + - exp 0)]], [Fin (0 + exp 0 + exp 0)]) /\
  1 + - exp 0 + - exp 0 = -1 /\
  is_inverse [[Fin (1 + - exp 0 + - exp 0)]] [[Fin (/ (1 + - exp 0 + - exp 0))]] /\
  (forall (G : Gsl ideal) g,
     gsl_returns G [[Fin (1 + - exp 0 + - exp 0)]] g ->
     is_inverse [[Fin (1 + - exp 0 + - exp 0)]] g ->
     snd (sumInTrans (G := G) double_loop_em) = Ok [[NaN]]) /\
  snd (sumInTrans (G := scalar_gsl) double_loop_em) = Ok [[NaN]] /\
  (forall t, xge t (Fin 0) = true -> xlog t <> NaN) /\
  (forall T, ~ paths_converge 1
                 (fun s d => kronecker s d - (1 + - exp 0 + - exp 0)) T).
Proof.
  split; [apply double_loop_built|]. split; [apply double_loop_matrix|].
  split; [rewrite exp_0; lra|].
  split; [apply scalar_is_inverse; rewrite exp_0; lra|].
  split; [|split; [apply double_loop_result|split; [apply xlog_weight|]]].
  - intros G g Hg Hinv.
    rewrite (sumInTrans_returns _ _ _ _ double_loop_matrix Hg). f_equal.
    by apply double_loop_inverse.
  - apply double_paths_diverge.
Qed.

End PathWeightWitnesses.

(** * Further properties *)

(** ** nano/caller.h: the layout of the state indices *)

Section BaseCallingLayout.
Import BaseCalling.
Local Open Scope Z_scope.

Lemma layout_fits_bounds (m : BaseCallingMachine) (kmer c : Z) :
  layout_fits m -> valid_kmer m kmer -> 0 <= c <= components m + 1 ->
  fits_int (c * nKmers m) /\ fits_int (1 + c * nKmers m) /\
  fits_ull kmer /\ fits_ull (1 + c * nKmers m + kmer) /\ fits_int c.
Proof.
  unfold layout_fits, valid_kmer, fits_int, fits_ull, int_min, int_max, ull_modulus.
  intros (Hc & Hn & Hfit) Hk Hcc.
  assert (c * nKmers m <= (components m + 1) * nKmers m) by nia.
  assert (0 <= c * nKmers m) by nia.
  assert (c <= c * nKmers m) by nia.
  lia.
Qed.

(** Within the layout the three functions compute their formulas exactly. *)
Lemma kmer_indices_in_layout (m : BaseCallingMachine) (kmer : Z) :
  layout_fits m -> valid_kmer m kmer ->
  (forall c, 0 <= c < components m -> kmerEmit m kmer c = 1 + c * nKmers m + kmer) /\
  kmerEnd m kmer = 1 + components m * nKmers m + kmer /\
  kmerStart m kmer = 1 + (components m + 1) * nKmers m + kmer.
Proof.
  intros Hm Hk. pose proof Hm as (Hc & _).
  unfold kmerEmit, kmerEnd, kmerStart, int_mul. split; [|split].
  - intros c Hcc.
    destruct (layout_fits_bounds m kmer c Hm Hk) as (? & ? & ? & ? & ?); [lia|].
    by apply index_sum_exact.
  - destruct (layout_fits_bounds m kmer (components m) Hm Hk) as (? & ? & ? & ? & ?); [lia|].
    by apply index_sum_exact.
  - destruct (layout_fits_bounds m kmer (components m + 1) Hm Hk) as (? & ? & ? & ? & ?);
      [lia|].
    unfold int_add at 2. rewrite (wrap_int_fits (components m + 1)) by done.
    by apply index_sum_exact.
Qed.

(** X1.  The indices fall in three consecutive blocks after state 0: every
    emitting state comes before every end state, every end state before
    every start state, and all are below [1 + (components + 2) * nKmers]. *)
Theorem kmer_indices_blocks (m : BaseCallingMachine) (k1 k2 k3 c : Z) :
  layout_fits m -> valid_kmer m k1 -> valid_kmer m k2 -> valid_kmer m k3 ->
  valid_component m c ->
  0 < kmerEmit m k1 c /\
  kmerEmit m k1 c < kmerEnd m k2 /\
  kmerEnd m k2 < kmerStart m k3 /\
  kmerStart m k3 < 1 + (components m + 2) * nKmers m.
Proof.
  intros Hm H1 H2 H3 Hc.
  destruct (kmer_indices_in_layout m k1 Hm H1) as (He & _ & _). rewrite (He c Hc).
  destruct (kmer_indices_in_layout m k2 Hm H2) as (_ & -> & _).
  destruct (kmer_indices_in_layout m k3 Hm H3) as (_ & _ & ->).
  unfold valid_kmer, valid_component in *. destruct Hm as (? & ? & _). nia.
Qed.

(** X2.  Within the layout no two states share an index: an emitting state
    determines its k-mer and its component, an end state and a start state
    their k-mer. *)
Theorem kmer_indices_injective (m : BaseCallingMachine) (k k' c c' : Z) :
  layout_fits m -> valid_kmer m k -> valid_kmer m k' ->
  valid_component m c -> valid_component m c' ->
  (kmerEmit m k c = kmerEmit m k' c' -> k = k' /\ c = c') /\
  (kmerEnd m k = kmerEnd m k' -> k = k') /\
  (kmerStart m k = kmerStart m k' -> k = k').
Proof.
  intros Hm Hk Hk' Hc Hc'.
  destruct (kmer_indices_in_layout m k Hm Hk) as (He & -> & ->).
  destruct (kmer_indices_in_layout m k' Hm Hk') as (He' & -> & ->).
  rewrite (He c Hc), (He' c' Hc').
  unfold valid_kmer, valid_component in *.
  split; [|split; lia].
  intros Heq. assert (c = c') by nia. subst c'. lia.
Qed.

End BaseCallingLayout.

Lemma kmer_indices_blocks_witness :
  (0 < BaseCalling.kmerEmit {| BaseCalling.components := 2; BaseCalling.nKmers := 4 |} 3 1 /\
   BaseCalling.kmerEmit {| BaseCalling.components := 2; BaseCalling.nKmers := 4 |} 3 1
   < BaseCalling.kmerEnd {| BaseCalling.components := 2; BaseCalling.nKmers := 4 |} 0 /\
   BaseCalling.kmerEnd {| BaseCalling.components := 2; BaseCalling.nKmers := 4 |} 0
   < BaseCalling.kmerStart {| BaseCalling.components := 2; BaseCalling.nKmers := 4 |} 0 /\
   BaseCalling.kmerStart {| BaseCalling.components := 2; BaseCalling.nKmers := 4 |} 0
   < 1 + (2 + 2) * 4)%Z.
Proof.
  apply (kmer_indices_blocks
           {| BaseCalling.components := 2; BaseCalling.nKmers := 4 |} 3 0 0 1);
    unfold BaseCalling.layout_fits, BaseCalling.valid_kmer, BaseCalling.valid_component,
      BaseCalling.fits_int, BaseCalling.int_min, BaseCalling.int_max; simpl; lia.
Defined.

Lemma kmer_indices_injective_witness :
  (BaseCalling.kmerEmit {| BaseCalling.components := 2; BaseCalling.nKmers := 4 |} 3 0
   = BaseCalling.kmerEmit {| BaseCalling.components := 2; BaseCalling.nKmers := 4 |} 1 1 ->
   3%Z = 1%Z /\ 0%Z = 1%Z) /\
  (BaseCalling.kmerEnd {| BaseCalling.components := 2; BaseCalling.nKmers := 4 |} 3
   = BaseCalling.kmerEnd {| BaseCalling.components := 2; BaseCalling.nKmers := 4 |} 1 ->
   3%Z = 1%Z) /\
  (BaseCalling.kmerStart {| BaseCalling.components := 2; BaseCalling.nKmers := 4 |} 3
   = BaseCalling.kmerStart {| BaseCalling.components := 2; BaseCalling.nKmers := 4 |} 1 ->
   3%Z = 1%Z).
Proof.
  apply (kmer_indices_injective
           {| BaseCalling.components := 2; BaseCalling.nKmers := 4 |} 3 1 0 1);
    unfold BaseCalling.layout_fits, BaseCalling.valid_kmer, BaseCalling.valid_component,
      BaseCalling.fits_int, BaseCalling.int_min, BaseCalling.int_max; simpl; lia.
Defined.

(** ** eval.cpp: the first and the last state *)

Section EndStateFacts.
Context {N : Numerics} {W : WeightAlgebra N}.

(** X3.  On the evaluated machine of a machine without states both
    [startState] and [endState] die of their assertion; on any other they
    return 0 and the index of the machine's last state, which are states of
    the evaluated machine, no state coming after the last. *)
Theorem start_end_states (machine : Machine W) params (em : EvaluatedMachine N) :
  EvaluatedMachine_new machine params = Ok em ->
  (state machine = [] ->
   startState em = Fatal (AssertionFailed "EvaluatedMachine has no states") /\
   endState em = Fatal (AssertionFailed "EvaluatedMachine has no states")) /\
  (state machine <> [] ->
   startState em = Ok 0 /\ endState em = Ok (nStates machine - 1) /\
   is_Some (em_state em !! 0) /\ is_Some (em_state em !! (nStates machine - 1)) /\
   em_state em !! S (nStates machine - 1) = None).
Proof.
  intros Hnew. apply EvaluatedMachine_new_Ok in Hnew as (_ & _ & _ & Hn & _).
  unfold startState, endState. rewrite Hn. unfold nStates in *. split.
  - intros ->. cbn [length]. by rewrite decide_False by lia.
  - intros Hne. destruct (state machine) as [|ms mss]; [done|]. cbn [length] in *.
    rewrite decide_True by lia. unfold em_nStates in Hn.
    split; [done|]. split; [done|].
    split; [apply lookup_lt_is_Some; lia|].
    split; [apply lookup_lt_is_Some; lia|].
    apply lookup_ge_None. lia.
Qed.

End EndStateFacts.

Section EndStateWitnesses.
Import Ideal Examples.

Lemma start_end_states_witness :
  startState quarter_loop_em = Ok 0 /\ endState quarter_loop_em = Ok 0.
Proof.
  destruct (start_end_states quarter_loop_machine (Some quarter_params) quarter_loop_em
              quarter_loop_built) as [_ Hlast].
  destruct Hlast as (Hs & He & _); [discriminate|].
  split; [exact Hs|exact He].
Defined.

End EndStateWitnesses.

(** ** eval.cpp: incoming and outgoing maps *)

Section MirrorFacts.
Context {N : Numerics} {W : WeightAlgebra N}.

Lemma built_from_lookup (machine : Machine W) params (em : EvaluatedMachine N) ess
    (s : nat) (ems : EvaluatedMachineState N) :
  em_nStates em = nStates machine ->
  built_from machine params em ess ->
  em_state em !! s = Some ems ->
  exists ms es, state machine !! s = Some ms /\ ess !! s = Some es /\
    Permutation (outgoingEntries ems) es /\
    iomap_wf (incoming ems) /\
    forall x, x ∈ incomingEntries ems <->
      exists j es' e, ess !! j = Some es' /\ e ∈ es' /\ entry_dest e = s /\
                      x = mirror_entry j e.
Proof.
  intros Hn Hbuilt Hems. pose proof Hbuilt as (Hess & _ & Hst).
  assert (Hs : s < nStates machine).
  { rewrite <- Hn. by apply lookup_lt_Some in Hems. }
  destruct (lookup_lt_is_Some_2 (state machine) s Hs) as [ms Hms].
  destruct (lookup_lt_is_Some_2 ess s) as [es Hes].
  { rewrite <- (Forall2_length _ _ _ Hess). exact Hs. }
  exists ms, es. split; [done|]. split; [done|].
  destruct (Hst s ms es Hms Hes) as (ems' & Hems' & _ & _ & _ & _ & Hwf & Hin).
  rewrite Hems in Hems'. injection Hems' as <-.
  destruct (built_outgoing_sorted machine params em ess s ms es ems Hbuilt Hms Hes Hems)
    as (_ & Hperm & _).
  done.
Qed.

(** X4.  In the evaluated machine of a machine the incoming maps mirror the
    outgoing ones: the incoming entries of a state [d] are the outgoing
    entries with neighbour [d] of the states [s], each with [s] for its
    neighbour and the same tokens, [logWeight] and [transIndex]. *)
Theorem incoming_mirrors_outgoing (machine : Machine W) params (em : EvaluatedMachine N)
    (d : StateIndex) (emd : EvaluatedMachineState N) (x : Entry N) :
  EvaluatedMachine_new machine params = Ok em ->
  em_state em !! d = Some emd ->
  x ∈ incomingEntries emd <->
  exists s ems e, em_state em !! s = Some ems /\ e ∈ outgoingEntries ems /\
                  entry_dest e = d /\ x = mirror_entry s e.
Proof.
  intros Hnew Hemd.
  apply EvaluatedMachine_new_Ok in Hnew as (_ & _ & _ & Hn & _ & ess & Hbuilt).
  destruct (built_from_lookup machine params em ess d emd Hn Hbuilt Hemd)
    as (_ & _ & _ & _ & _ & _ & Hin).
  rewrite Hin. clear Hin. split.
  - intros (j & es' & e & Hes' & He & Hd & ->).
    assert (Hj : j < em_nStates em).
    { rewrite Hn. destruct Hbuilt as (Hess & _).
      unfold nStates. rewrite (Forall2_length _ _ _ Hess). by apply lookup_lt_Some in Hes'. }
    destruct (lookup_lt_is_Some_2 (em_state em) j Hj) as [ems Hems].
    destruct (built_from_lookup machine params em ess j ems Hn Hbuilt Hems)
      as (_ & es & _ & Hes & Hperm & _).
    rewrite Hes' in Hes. injection Hes as <-.
    exists j, ems, e. split; [done|]. split; [|done]. by rewrite Hperm.
  - intros (s & ems & e & Hems & He & Hd & ->).
    destruct (built_from_lookup machine params em ess s ems Hn Hbuilt Hems)
      as (_ & es & _ & Hes & Hperm & _).
    exists s, es, e. split; [done|]. split; [|done]. by rewrite <- Hperm.
Qed.

End MirrorFacts.

(** ** eval.cpp: when construction succeeds *)

Section InitSuccess.
Context {N : Numerics} {W : WeightAlgebra N}.
Implicit Types (st : list (EvaluatedMachineState N)) (es : list (Entry N))
  (t : MachineTransition W) (trl : list (MachineTransition W)) (ms : MachineState W)
  (params : option (Params N)) (inTok outTok : Tokenizer).

Lemma sym2tok_at_is_Some (tk : Tokenizer) (sym : string) :
  is_Some (sym2tok tk !! sym) <-> exists tok, sym2tok_at tk sym = Ok tok.
Proof.
  unfold sym2tok_at. destruct (sym2tok tk !! sym) as [tok|]; split.
  - intros _. by exists tok.
  - intros _. by exists tok.
  - by intros [? ?].
  - by intros [? ?].
Qed.

Lemma trans_logWeight_is_ok params t :
  match params with
  | Some p => is_ok (eval W (weight t) (defs W p)) = true
  | None => True
  end <-> exists lw, trans_logWeight params t = Ok lw.
Proof.
  unfold trans_logWeight. destruct params as [p|].
  - destruct (eval W (weight t) (defs W p)) as [v|e]; cbn; split.
    + intros _. by eexists.
    + done.
    + done.
    + by intros [? ?].
  - split; [|done]. intros _. by eexists.
Qed.

Lemma evaluated_trans_evaluable params inTok outTok (n ti : nat) t :
  trans_evaluable params inTok outTok n t <->
  exists e, evaluated_trans params inTok outTok ti t = Ok e /\ entry_dest e < n.
Proof.
  unfold trans_evaluable.
  rewrite !sym2tok_at_is_Some, trans_logWeight_is_ok. split.
  - intros ([i Hi] & [o Ho] & Hd & [lw Hlw]).
    exists (i, o, dest t, {| logWeight := lw; transIndex := ti |}). split; [|done].
    apply evaluated_trans_Ok. by exists i, o, lw.
  - intros (e & He & Hd). apply evaluated_trans_Ok in He as (i & o & lw & Hi & Ho & Hlw & ->).
    split; [by exists i|]. split; [by exists o|]. split; [done|]. by exists lw.
Qed.

Lemma evaluated_list_evaluable params inTok outTok (n ti : nat) trl :
  Forall (trans_evaluable params inTok outTok n) trl <->
  exists es, evaluated_list params inTok outTok ti trl = Ok es /\
             Forall (fun e => entry_dest e < n) es.
Proof.
  revert ti. induction trl as [|t trl IH]; intros ti.
  - split; [|done]. intros _. by exists [].
  - rewrite Forall_cons, (evaluated_trans_evaluable _ _ _ _ ti), (IH (S ti)).
    cbn [evaluated_list]. split.
    + intros ((e & He & Hd) & es & Hes & Hds). exists (e :: es).
      rewrite He. cbn [mbind result_bind rbind]. rewrite Hes. by split; [|constructor].
    + intros (es' & Hes' & Hds). inv_ok Hes'. subst es'.
      apply Forall_cons in Hds as [Hd Hds].
      split; [by exists a|by exists a0].
Qed.

(** The outer loop of [init] runs to its end exactly when the states it
    visits exist and their transitions can be evaluated. *)
Lemma init_states_succeed params inTok outTok (mss : list (MachineState W)) (a c : nat) st :
  (exists r, foldM (init_state params inTok outTok) (zip (seq a (length mss)) mss) (st, c)
             = Ok r) <->
  (mss <> [] -> a + length mss <= length st) /\
  Forall (fun ms => Forall (trans_evaluable params inTok outTok (length st)) (ms_trans ms)) mss.
Proof.
  revert a c st. induction mss as [|ms mss IH]; intros a c st.
  - split; [done|]. intros _. by eexists.
  - cbn [length seq zip zip_with foldM]. split.
    + intros (r & Hr). apply bind_Ok in Hr as ([st' c'] & Hstep & Hrest).
      apply init_state_Ok in Hstep as (es & Hes & Ha & Hds & Hst').
      injection Hst' as -> ->.
      assert (Hlen : length (alter (set_counts (length (ms_trans ms)) c) a
                (fold_left (store_entry a) es (alter (set_name (ms_name ms)) a st)))
              = length st).
      { by rewrite length_alter, store_entries_length, length_alter. }
      destruct (proj1 (IH _ _ _) (ex_intro _ r Hrest)) as [Hbound Hall].
      rewrite Hlen in Hbound, Hall. split.
      * intros _. destruct mss as [|ms' mss]; [cbn; lia|].
        specialize (Hbound ltac:(done)). cbn [length] in *. lia.
      * constructor; [|done]. apply (evaluated_list_evaluable _ _ _ _ 0). by exists es.
    + intros [Hbound Hall]. apply Forall_cons in Hall as [Hms Hall].
      apply (evaluated_list_evaluable _ _ _ _ 0) in Hms as (es & Hes & Hds).
      specialize (Hbound ltac:(done)). cbn [length] in Hbound.
      pose (st' := alter (set_counts (length (ms_trans ms)) c) a
                (fold_left (store_entry a) es (alter (set_name (ms_name ms)) a st))).
      assert (Hlen : length st' = length st).
      { unfold st'. by rewrite length_alter, store_entries_length, length_alter. }
      assert (Hstep : init_state params inTok outTok (st, c) (a, ms)
                      = Ok (st', c + length (ms_trans ms))).
      { apply init_state_Ok. exists es. split; [done|]. split; [lia|]. by split. }
      rewrite Hstep. cbn [mbind result_bind rbind].
      apply IH. rewrite Hlen. split; [|done]. intros _. lia.
Qed.

Lemma Forall_flat_map {A B} (P : B -> Prop) (f : A -> list B) (l : list A) :
  Forall P (flat_map f l) <-> Forall (fun x => Forall P (f x)) l.
Proof.
  induction l as [|x l IH]; cbn [flat_map].
  - split; constructor.
  - by rewrite Forall_app, Forall_cons, IH.
Qed.

(** X5.  [init], entered as the constructors enter it with one evaluated
    state for each state of the machine, returns exactly when the machine
    is advancing, every label of every transition is a key of its
    tokenizer, every destination is a state, and, under a parameter
    binding, every weight evaluates. *)
Theorem init_succeeds_iff (machine : Machine W) params inTok outTok st0 :
  length st0 = nStates machine ->
  (exists em, init machine params inTok outTok st0 = Ok em) <->
  isAdvancingMachine machine = true /\
  Forall (trans_evaluable params inTok outTok (nStates machine)) (allTransitions machine).
Proof.
  intros Hlen. unfold init, allTransitions. rewrite Forall_flat_map, <- Hlen.
  pose proof (init_states_succeed params inTok outTok (state machine) 0 0 st0) as Hloop.
  unfold nStates in Hlen. rewrite <- Hlen in Hloop.
  destruct (isAdvancingMachine machine).
  - split.
    + intros (em & Hem). apply bind_Ok in Hem as (r & Hr & _).
      split; [done|]. apply Hloop. by exists r.
    + intros [_ Hall]. destruct (proj2 Hloop) as ([st c] & Hr).
      { split; [|done]. intros _. lia. }
      rewrite Hr. by eexists.
  - split; [by intros [? ?]|by intros [? _]].
Qed.

End InitSuccess.

Section ConstructorSuccess.
Context {N : Numerics} {W : WeightAlgebra N}.

Lemma add_symbol_fold (l acc : list string) (s : string) :
  s ∈ acc \/ (s ∈ l /\ s <> "") -> s ∈ fold_left add_symbol l acc.
Proof.
  revert acc. induction l as [|x l IH]; intros acc Hs; cbn [fold_left].
  - destruct Hs as [Hs|[Hs _]]; [done|]. by apply elem_of_nil in Hs.
  - apply IH. unfold add_symbol, symbol_empty.
    destruct Hs as [Hs|[Hs Hne]].
    + left. repeat case_decide; try done. apply elem_of_app. by left.
    + apply elem_of_cons in Hs as [->|Hs]; [|by right].
      left. repeat case_decide; try done. apply elem_of_app. right. by apply list_elem_of_singleton.
Qed.

Lemma index_symbols_is_Some (l : list string) (a : nat) (m0 : gmap string nat) (sym : string) :
  is_Some (m0 !! sym) \/ sym ∈ l ->
  is_Some (fold_left (fun m '(tok, sym) => <[sym := tok]> m) (zip (seq a (length l)) l) m0
             !! sym).
Proof.
  revert a m0. induction l as [|x l IH]; intros a m0 Hs; cbn [length seq zip zip_with fold_left].
  - destruct Hs as [Hs|Hs]; [done|]. by apply elem_of_nil in Hs.
  - apply IH. destruct (decide (x = sym)) as [->|Hne].
    + left. rewrite lookup_insert_eq. by eexists.
    + destruct Hs as [Hs|Hs].
      * left. by rewrite lookup_insert_ne.
      * apply elem_of_cons in Hs as [->|Hs]; [done|by right].
Qed.

(** Every symbol has a token when the alphabet lists the non-empty ones. *)
Lemma Tokenizer_new_knows (alphabet : list string) (sym : string) :
  (sym <> "" -> sym ∈ alphabet) -> is_Some (sym2tok (Tokenizer_new alphabet) !! sym).
Proof.
  intros Hsym. cbn [Tokenizer_new sym2tok]. unfold index_symbols.
  apply index_symbols_is_Some. right.
  destruct (decide (sym = "")) as [->|Hne]; [apply list_elem_of_here|].
  apply list_elem_of_further. by apply Hsym.
Qed.

Lemma alphabets_know (machine : Machine W) (t : MachineTransition W) :
  t ∈ allTransitions machine ->
  is_Some (sym2tok (Tokenizer_new (inputAlphabet machine)) !! t_in t) /\
  is_Some (sym2tok (Tokenizer_new (outputAlphabet machine)) !! t_out t).
Proof.
  intros Ht. split; apply Tokenizer_new_knows; intros Hne; apply add_symbol_fold; right;
    (split; [|done]); apply list_elem_of_In, in_map, list_elem_of_In, Ht.
Qed.

(** X6.  Either constructor returns an evaluated machine exactly when the
    machine is advancing, every destination of a transition is one of its
    states and, under a parameter binding, every weight evaluates; the
    tokenizers built from the machine's alphabets know every label. *)
Theorem construction_succeeds_iff (machine : Machine W) (params : option (Params N)) :
  (exists em : EvaluatedMachine N, EvaluatedMachine_new machine params = Ok em) <->
  isAdvancingMachine machine = true /\
  Forall (fun t => dest t < nStates machine /\
                   match params with
                   | Some p => is_ok (eval W (weight t) (defs W p)) = true
                   | None => True
                   end)
         (allTransitions machine).
Proof.
  unfold EvaluatedMachine_new, init, allTransitions.
  set (inTok := Tokenizer_new (inputAlphabet machine)).
  set (outTok := Tokenizer_new (outputAlphabet machine)).
  pose proof (init_states_succeed params inTok outTok (state machine) 0 0
                (replicate (nStates machine) EvaluatedMachineState_new)) as Hloop.
  rewrite length_replicate in *. rewrite <- Forall_flat_map in Hloop.
  assert (Hall : Forall (trans_evaluable params inTok outTok (nStates machine))
                        (flat_map ms_trans (state machine)) <->
                 Forall (fun t => dest t < nStates machine /\
                                  match params with
                                  | Some p => is_ok (eval W (weight t) (defs W p)) = true
                                  | None => True
                                  end)
                        (flat_map ms_trans (state machine))).
  { rewrite !Forall_forall. unfold trans_evaluable. split.
    - intros Hall t Ht. destruct (Hall t Ht) as (_ & _ & Hd & Hw). done.
    - intros Hall t Ht. destruct (Hall t Ht) as (Hd & Hw).
      destruct (alphabets_know machine t Ht) as [Hi Ho]. done. }
  rewrite <- Hall. clear Hall. unfold nStates in *.
  destruct (isAdvancingMachine machine).
  - split.
    + intros (em & Hem). apply bind_Ok in Hem as (r & Hr & _).
      split; [done|]. apply Hloop. by exists r.
    + intros [_ Hall]. destruct (proj2 Hloop) as ([st c] & Hr).
      { split; [|done]. intros _. lia. }
      rewrite Hr. by eexists.
  - split; [by intros [? ?]|by intros [? _]].
Qed.

End ConstructorSuccess.

(** ** eval.cpp: the two constructors *)

Section ParamsFrame.
Context {N : Numerics} {W : WeightAlgebra N}.
Implicit Types (e : Entry N) (l es : list (Entry N)).

Lemma entry_key_unweighted e : entry_key (unweighted e) = entry_key e.
Proof. by destruct e as [[[i o] k] t]. Qed.

Lemma lex_insert_unweighted e l :
  lex_insert (unweighted e) (map unweighted l) = map unweighted (lex_insert e l).
Proof.
  induction l as [|x l IH]; [done|]. cbn [map lex_insert].
  rewrite !entry_key_unweighted. destruct (key_ltb (entry_key e) (entry_key x)); [done|].
  cbn [map]. by rewrite IH.
Qed.

Lemma lex_sort_unweighted es : lex_sort (map unweighted es) = map unweighted (lex_sort es).
Proof.
  unfold lex_sort. change (@nil (Entry N)) with (map (@unweighted N) []) at 1.
  generalize (@nil (Entry N)). induction es as [|e es IH]; intros l; [done|].
  cbn [map fold_left]. by rewrite lex_insert_unweighted, IH.
Qed.

Lemma evaluated_list_unweighted (p : Params N) inTok outTok (ti : nat)
    (trl : list (MachineTransition W)) es :
  evaluated_list (Some p) inTok outTok ti trl = Ok es ->
  evaluated_list None inTok outTok ti trl = Ok (map unweighted es).
Proof.
  revert ti es. induction trl as [|t trl IH]; intros ti es Hes; cbn [evaluated_list] in *.
  - by injection Hes as <-.
  - inv_ok Hes. subst es. rewrite (IH _ _ Hstep0).
    apply evaluated_trans_Ok in Hstep as (i & o & lw & Hi & Ho & _ & ->).
    assert (Hnone : evaluated_trans (W := W) None inTok outTok ti t
                    = Ok (i, o, dest t, {| logWeight := d_zero N; transIndex := ti |})).
    { apply evaluated_trans_Ok. by exists i, o, (d_zero N). }
    by rewrite Hnone.
Qed.

(** A machine the constructor with parameters accepts is accepted by the
    one without. *)
Lemma construction_without_params (machine : Machine W) (p : Params N)
    (em : EvaluatedMachine N) :
  EvaluatedMachine_new machine (Some p) = Ok em ->
  exists em0 : EvaluatedMachine N, EvaluatedMachine_new machine None = Ok em0.
Proof.
  unfold EvaluatedMachine_new, init. destruct (isAdvancingMachine machine); [|done].
  intros Hem. apply bind_Ok in Hem as (r & Hr & _).
  set (inTok := Tokenizer_new (inputAlphabet machine)) in *.
  set (outTok := Tokenizer_new (outputAlphabet machine)) in *.
  rewrite length_replicate in *.
  destruct (proj1 (init_states_succeed (Some p) inTok outTok (state machine) 0 0 _)
              (ex_intro _ r Hr)) as [Hbound Hall].
  destruct (proj2 (init_states_succeed None inTok outTok (state machine) 0 0
              (replicate (nStates machine) EvaluatedMachineState_new))) as ([st c] & Hnone).
  { split; [done|]. eapply Forall_impl; [exact Hall|]. intros ms Hms.
    eapply Forall_impl; [exact Hms|]. intros t (Hi & Ho & Hd & _). done. }
  unfold nStates in *. rewrite Hnone. by eexists.
Qed.

(** X7.  The parameter binding reaches nothing but the [logWeight] fields:
    a machine the constructor with parameters accepts is accepted by the
    constructor without, and the two evaluated machines have the same
    tokenizers, transition total, state names, counts and offsets, and the
    same outgoing entries in the same order, those built without
    parameters having 0 for their [logWeight]. *)
Theorem params_reach_only_logWeight (machine : Machine W) (p : Params N)
    (em : EvaluatedMachine N) :
  EvaluatedMachine_new machine (Some p) = Ok em ->
  exists em0 : EvaluatedMachine N,
    EvaluatedMachine_new machine None = Ok em0 /\
    inputTokenizer em0 = inputTokenizer em /\
    outputTokenizer em0 = outputTokenizer em /\
    em_nStates em0 = em_nStates em /\
    em_nTransitions em0 = em_nTransitions em /\
    forall s ems, em_state em !! s = Some ems ->
      exists ems0, em_state em0 !! s = Some ems0 /\
        ems_name ems0 = ems_name ems /\
        ems_nTransitions ems0 = ems_nTransitions ems /\
        ems_transOffset ems0 = ems_transOffset ems /\
        outgoingEntries ems0 = map unweighted (outgoingEntries ems).
Proof.
  intros Hnew. destruct (construction_without_params machine p em Hnew) as [em0 Hnew0].
  exists em0. split; [done|].
  apply EvaluatedMachine_new_Ok in Hnew as (_ & Hi & Ho & Hn & Hnt & ess & Hbuilt).
  apply EvaluatedMachine_new_Ok in Hnew0 as (_ & Hi0 & Ho0 & Hn0 & Hnt0 & ess0 & Hbuilt0).
  split; [congruence|]. split; [congruence|]. split; [congruence|]. split; [congruence|].
  intros s ems Hems.
  destruct (built_from_lookup machine _ em ess s ems Hn Hbuilt Hems)
    as (ms & es & Hms & Hes & _).
  pose proof Hbuilt as (Hess & _ & Hst). pose proof Hbuilt0 as (Hess0 & _ & Hst0).
  destruct (lookup_lt_is_Some_2 ess0 s) as [es0 Hes0].
  { rewrite <- (Forall2_length _ _ _ Hess0). by apply lookup_lt_Some in Hms. }
  destruct (Hst s ms es Hms Hes) as (ems' & Hems' & Hname & Hcount & Hoff & _).
  rewrite Hems in Hems'. injection Hems' as <-.
  destruct (Hst0 s ms es0 Hms Hes0) as (ems0 & Hems0 & Hname0 & Hcount0 & Hoff0 & _).
  exists ems0. split; [done|]. split; [congruence|]. split; [congruence|].
  split; [congruence|].
  pose proof (Forall2_lookup_lr _ _ _ _ _ _ Hess Hms Hes) as Hev.
  pose proof (Forall2_lookup_lr _ _ _ _ _ _ Hess0 Hms Hes0) as Hev0.
  cbn beta in Hev, Hev0. rewrite Hi0, Ho0, <- Hi, <- Ho in Hev0.
  rewrite (evaluated_list_unweighted _ _ _ _ _ _ Hev) in Hev0. injection Hev0 as <-.
  destruct (built_outgoing_sorted machine _ em ess s ms es ems Hbuilt Hms Hes Hems)
    as (-> & _).
  destruct (built_outgoing_sorted machine _ em0 ess0 s ms _ ems0 Hbuilt0 Hms Hes0 Hems0)
    as (-> & _).
  apply lex_sort_unweighted.
Qed.

End ParamsFrame.

(** ** eval.cpp: what sumInTrans reads *)

Section SumInTransFrame.
Context {N : Numerics} {G : Gsl N}.

Lemma foldM_ext {A B} (f g : B -> A -> result B) (l : list A) (b : B) :
  (forall acc x, f acc x = g acc x) -> foldM f l b = foldM g l b.
Proof.
  intros Hfg. revert b. induction l as [|a l IH]; intros b; cbn [foldM]; [done|].
  rewrite Hfg. destruct (g b a) as [b'|e]; cbn [mbind result_bind rbind]; [apply IH|done].
Qed.

Lemma foldM_flat_map {A B C} (f : C -> B -> result C) (g : A -> list B) (l : list A) (c : C) :
  foldM (fun acc x => foldM f (g x) acc) l c = foldM f (flat_map g l) c.
Proof.
  revert c. induction l as [|a l IH]; intros c; cbn [foldM flat_map]; [done|].
  rewrite foldM_app. destruct (foldM f (g a) c) as [c'|e];
    cbn [mbind result_bind rbind]; [apply IH|done].
Qed.

Lemma sumInTrans_in_eq (src : nat) acc (in_ost : nat * OutStateTransMap N) :
  sumInTrans_in src acc in_ost
  = foldM (sumInTrans_trans src) (default [] (omap_find emptyToken (snd in_ost))) acc.
Proof. unfold sumInTrans_in. by destruct (omap_find emptyToken (snd in_ost)). Qed.

(** The two inner loops visit the output-empty transitions of the state and
    nothing else. *)
Lemma sumInTrans_ins_eq (src : nat) (ems : EvaluatedMachineState N) acc :
  foldM (sumInTrans_in src) (outgoing ems) acc
  = foldM (sumInTrans_trans src) (nullTransitions ems) acc.
Proof.
  unfold nullTransitions. rewrite <- foldM_flat_map.
  apply foldM_ext. intros acc' in_ost. apply sumInTrans_in_eq.
Qed.

Lemma foldM_map_eq {A B C} (f : B -> A -> result B) (h : A -> C) (l l' : list A) (b : B) :
  (forall acc x y, h x = h y -> f acc x = f acc y) ->
  map h l = map h l' -> foldM f l b = foldM f l' b.
Proof.
  intros Hf. revert l' b. induction l as [|x l IH]; intros [|y l'] b Hmap; try done.
  cbn [map] in Hmap. injection Hmap as Hxy Hmap. cbn [foldM].
  rewrite (Hf b x y Hxy). destruct (f b y) as [b'|e];
    cbn [mbind result_bind rbind]; [by apply IH|done].
Qed.

Lemma sumInTrans_trans_reads (src : nat) acc (s_t s_t' : nat * Trans N) :
  (fst s_t, logWeight (snd s_t)) = (fst s_t', logWeight (snd s_t')) ->
  sumInTrans_trans src acc s_t = sumInTrans_trans src acc s_t'.
Proof.
  intros [= Hd Hlw]. destruct acc as [[m p] log].
  unfold sumInTrans_trans, null_trans_step. by rewrite Hd, Hlw.
Qed.

(** X8.  [sumInTrans] reads the number of states and, of each state, the
    destinations and [logWeight]s of its output-empty transitions in the
    order the maps list them, and nothing else: two evaluated machines that
    agree on these have the same warnings and the same outcome. *)
Theorem sumInTrans_reads_null_transitions (em em' : EvaluatedMachine N) :
  map (fun ems => map (fun s_t => (fst s_t, logWeight (snd s_t))) (nullTransitions ems))
      (em_state em)
  = map (fun ems => map (fun s_t => (fst s_t, logWeight (snd s_t))) (nullTransitions ems))
        (em_state em') ->
  sumInTrans (G := G) em = sumInTrans (G := G) em'.
Proof.
  intros Hnull.
  assert (Hn : em_nStates em = em_nStates em').
  { unfold em_nStates. apply (f_equal length) in Hnull. by rewrite !length_map in Hnull. }
  unfold sumInTrans, oneMinusNullTrans. rewrite Hn.
  rewrite (foldM_ext (sumInTrans_src em) (sumInTrans_src em')); [done|].
  intros [[m p] log] src. unfold sumInTrans_src.
  destruct (mat_update src src (fun _ => d_one N) m) as [m'|e];
    cbn [mbind result_bind rbind]; [|done].
  apply (f_equal (fun l => l !! src)) in Hnull.
  change (map ?f (em_state em)) with (f <$> em_state em) in Hnull.
  change (map ?f (em_state em')) with (f <$> em_state em') in Hnull.
  rewrite !list_lookup_fmap in Hnull.
  unfold vec_at.
  destruct (em_state em !! src) as [ems|], (em_state em' !! src) as [ems'|];
    cbn in Hnull; try done.
  cbn [mbind result_bind rbind]. rewrite !sumInTrans_ins_eq.
  injection Hnull as Hnull.
  apply (foldM_map_eq _ (fun s_t => (fst s_t, logWeight (snd s_t)))); [|done].
  intros acc x y. apply sumInTrans_trans_reads.
Qed.

End SumInTransFrame.

(** ** eval.cpp: the warnings of sumInTrans *)

Section SumInTransLog.
Context {N : Numerics} {W : WeightAlgebra N} {G : Gsl N}.

Lemma sumInTrans_trans_eq (src : nat) (m : Matrix N) (p : list (double N))
    (log : list (LogEvent N)) (s_t : nat * Trans N) :
  sumInTrans_trans src (m, p, log) s_t
  = ('(m', p') ← null_trans_step src (m, p) s_t;
     pe ← vec_at src p';
     mret (m', p',
           if d_gt N pe (d_threshold N) then log ++ [Warning_pExit 6 src pe] else log)).
Proof. reflexivity. Qed.

Lemma sumInTrans_trans_fold (n src : nat) (nts : list (nat * Trans N)) (m : Matrix N)
    (p : list (double N)) (log : list (LogEvent N)) (a : double N) :
  matrix_shape n m -> length p = n -> src < n -> p !! src = Some a ->
  Forall (fun s_t => fst s_t < n) nts ->
  foldM (sumInTrans_trans src) nts (m, p, log)
  = Ok (fold_left (null_step src) nts (m, p),
        log ++ map (Warning_pExit 6 src)
                 (filter (fun v => d_gt N v (d_threshold N) = true)
                    (running_sums a (map (fun s_t => d_exp N (logWeight (snd s_t))) nts)))).
Proof.
  intros Hshape Hp Hsrc Ha Hnts. revert m p log a Hshape Hp Ha.
  induction Hnts as [|s_t nts Hd _ IH]; intros m p log a Hshape Hp Ha.
  - cbn. by rewrite app_nil_r.
  - cbn [foldM map running_sums fold_left]. rewrite sumInTrans_trans_eq.
    rewrite (null_trans_step_Ok n) by done.
    destruct (null_step_shape n src m p s_t Hshape Hp) as [Hshape' Hp'].
    assert (Hpe : snd (null_step src (m, p) s_t) !! src
                  = Some (d_add N a (d_exp N (logWeight (snd s_t))))).
    { unfold null_step. cbn [snd]. by rewrite list_lookup_alter_eq, Ha. }
    destruct (null_step src (m, p) s_t) as [m' p'] eqn:Hstep. cbn [fst snd] in *.
    cbn [mbind result_bind rbind]. rewrite (proj2 (vec_at_Ok src p' _) Hpe).
    cbn [mbind result_bind rbind mret result_ret].
    rewrite (IH _ _ _ _ Hshape' Hp' Hpe). f_equal. f_equal.
    rewrite filter_cons.
    destruct (d_gt N (d_add N a (d_exp N (logWeight (snd s_t)))) (d_threshold N)) eqn:Hgt.
    + rewrite decide_True by done. cbn [map]. by rewrite <- app_assoc.
    + rewrite decide_False by done. done.
Qed.

Lemma sumInTrans_src_fold (n src : nat) (em : EvaluatedMachine N)
    (ems : EvaluatedMachineState N) (m : Matrix N) (p : list (double N))
    (log : list (LogEvent N)) :
  matrix_shape n m -> length p = n -> src < n ->
  em_state em !! src = Some ems -> p !! src = Some (d_zero N) ->
  Forall (fun s_t => fst s_t < n) (nullTransitions ems) ->
  sumInTrans_src em (m, p, log) src
  = Ok (null_src em (m, p) src, log ++ state_warnings src ems).
Proof.
  intros Hshape Hp Hsrc Hems Hzero Hnts. unfold sumInTrans_src.
  rewrite (mat_update_Ok n) by done. cbn [mbind result_bind rbind].
  rewrite (proj2 (vec_at_Ok src _ _) Hems). cbn [mbind result_bind rbind].
  rewrite sumInTrans_ins_eq.
  rewrite (sumInTrans_trans_fold n src _ _ _ _ (d_zero N)); try done.
  - unfold null_src, state_warnings. by rewrite Hems.
  - by apply matrix_shape_alter.
Qed.

Lemma oneMinusNullTrans_fold (em : EvaluatedMachine N) (k : nat) :
  null_dests_in_range em -> k <= em_nStates em ->
  foldM (sumInTrans_src em) (seq 0 k)
    (replicate (em_nStates em) (replicate (em_nStates em) (d_zero N)),
     replicate (em_nStates em) (d_zero N), [])
  = Ok (fold_left (null_src em) (seq 0 k)
          (replicate (em_nStates em) (replicate (em_nStates em) (d_zero N)),
           replicate (em_nStates em) (d_zero N)),
        concat (imap state_warnings (take k (em_state em)))).
Proof.
  intros Hrange. set (n := em_nStates em).
  set (m0 := replicate n (replicate n (d_zero N))). set (p0 := replicate n (d_zero N)).
  induction k as [|k IH]; intros Hk; [done|].
  rewrite seq_S, foldM_app, IH by lia. cbn [mbind result_bind rbind foldM plus].
  rewrite fold_left_app. cbn [fold_left].
  destruct (silent_srcs_Ok em (seq 0 k) m0 p0 Hrange) as (_ & Hshape & Hp).
  { apply matrix_shape_zero. }
  { apply length_replicate. }
  { apply Forall_forall. intros src Hsrc%list_elem_of_In%in_seq. unfold n, em_nStates in *. lia. }
  pose proof (null_srcs_pExit em 0 k m0 p0 k ltac:(unfold n, em_nStates in *; lia)) as Hpk.
  destruct (lookup_lt_is_Some_2 (em_state em) k) as [ems Hems]; [unfold n, em_nStates in *; lia|].
  rewrite Hems in Hpk. rewrite decide_False in Hpk by lia.
  unfold p0 in Hpk at 2. rewrite lookup_replicate_2 in Hpk by (unfold n, em_nStates in *; lia).
  destruct (fold_left (null_src em) (seq 0 k) (m0, p0)) as [mk pk]. cbn [fst snd] in *.
  assert (Hklt : k < n) by (unfold n, em_nStates in *; lia).
  rewrite (sumInTrans_src_fold n k em ems mk pk _ Hshape Hp Hklt Hems Hpk (Hrange k ems Hems)).
  cbn [mbind result_bind rbind]. f_equal. f_equal.
  rewrite (take_S_r _ _ _ Hems), imap_app, concat_app. f_equal.
  rewrite length_take_le by (unfold n, em_nStates in *; lia).
  cbn. by rewrite Nat.add_0_r, app_nil_r.
Qed.

(** X9.  On a machine the constructors built, the warnings [sumInTrans]
    hands to the logger are, state by state in ascending order, one for
    each output-empty transition of the state after which the running sum
    of the weights is above the threshold, each with level 6, the state and
    that running sum; there are no others. *)
Theorem sumInTrans_warnings (machine : Machine W) params (em : EvaluatedMachine N) :
  EvaluatedMachine_new machine params = Ok em ->
  fst (sumInTrans (G := G) em) = concat (imap state_warnings (em_state em)).
Proof.
  intros Hnew. apply built_em_wf, em_wf_null_dests in Hnew.
  unfold sumInTrans, oneMinusNullTrans.
  rewrite (oneMinusNullTrans_fold em (em_nStates em) Hnew (le_n _)).
  destruct (fold_left (null_src em) (seq 0 (em_nStates em)) _) as [m p]. cbn [fst].
  unfold em_nStates. by rewrite firstn_all.
Qed.

End SumInTransLog.

(** ** eval.cpp: sumInTrans without output-empty transitions *)

Section SumInTransIdentity.
Context {N : Numerics} {G : Gsl N}.

Lemma identity_matrix_lookup (n i : nat) :
  i < n -> identity_matrix (N := N) n !! i = Some (map (fun j => identity_entry i j) (seq 0 n)).
Proof.
  intros Hi. unfold identity_matrix.
  change (map (fun i0 => map (fun j => identity_entry (N := N) i0 j) (seq 0 n)) (seq 0 n))
    with ((fun i0 => map (fun j => identity_entry (N := N) i0 j) (seq 0 n)) <$> seq 0 n).
  by rewrite list_lookup_fmap, lookup_seq_lt.
Qed.

Lemma matrix_is_identity (n : nat) (m : Matrix N) :
  matrix_shape n m ->
  (forall s d, s < n -> d < n -> mat_get m s d = identity_entry s d) ->
  m = identity_matrix n.
Proof.
  intros Hshape Hget. apply list_eq. intros i.
  destruct (decide (i < n)) as [Hi|Hi].
  - rewrite identity_matrix_lookup by done.
    destruct (matrix_shape_row n m i Hshape Hi) as (row & Hrow & Hlen).
    rewrite Hrow. f_equal. apply list_eq. intros j.
    destruct (decide (j < n)) as [Hj|Hj].
    + destruct (mat_get_lookup n m i j Hshape Hi Hj) as (row' & Hrow' & _ & Hcell).
      rewrite Hrow in Hrow'. injection Hrow' as <-. rewrite Hcell, (Hget i j Hi Hj).
      change (map (fun j0 => identity_entry (N := N) i j0) (seq 0 n))
        with ((fun j0 => identity_entry (N := N) i j0) <$> seq 0 n).
      by rewrite list_lookup_fmap, lookup_seq_lt.
    + rewrite !lookup_ge_None_2; [done| |lia]. rewrite length_map, length_seq. lia.
  - destruct Hshape as [Hlen _].
    rewrite !lookup_ge_None_2; [done| |lia].
    unfold identity_matrix. rewrite length_map, length_seq. lia.
Qed.

(** X10.  When no state has an output-empty transition, [sumInTrans]
    issues no warning and hands GSL the identity matrix of order
    [nStates]: its outcome is GSL's outcome on the identity. *)
Theorem sumInTrans_identity (em : EvaluatedMachine N) :
  Forall (fun ems => nullTransitions ems = []) (em_state em) ->
  sumInTrans (G := G) em
  = ([], invert_and_log (G := G) (identity_matrix (em_nStates em))).
Proof.
  intros Hnone.
  assert (Hrange : null_dests_in_range em).
  { intros s ems Hems. rewrite Forall_forall in Hnone.
    rewrite (Hnone ems) by (by apply list_elem_of_lookup_2 in Hems). constructor. }
  unfold sumInTrans, oneMinusNullTrans.
  rewrite (oneMinusNullTrans_fold em (em_nStates em) Hrange (le_n _)).
  set (m0 := replicate (em_nStates em) (replicate (em_nStates em) (d_zero N))).
  set (p0 := replicate (em_nStates em) (d_zero N)).
  destruct (silent_srcs_Ok em (seq 0 (em_nStates em)) m0 p0 Hrange) as (_ & Hshape & _).
  { apply matrix_shape_zero. }
  { apply length_replicate. }
  { apply Forall_forall. intros src Hsrc%list_elem_of_In%in_seq. lia. }
  assert (Hget : forall s d, s < em_nStates em -> d < em_nStates em ->
            mat_get (fst (fold_left (null_src em) (seq 0 (em_nStates em)) (m0, p0))) s d
            = identity_entry s d).
  { intros s d Hs Hd.
    rewrite (null_srcs_get em 0 (em_nStates em) m0 p0 s d Hrange);
      [|apply matrix_shape_zero|apply length_replicate|lia].
    destruct (lookup_lt_is_Some_2 (em_state em) s Hs) as [ems Hems]. rewrite Hems.
    rewrite decide_True by lia. unfold nullWeights. rewrite Forall_forall in Hnone.
    rewrite (Hnone ems) by (by apply list_elem_of_lookup_2 in Hems).
    cbn. unfold identity_entry, m0. rewrite mat_get_zero. done. }
  rewrite <- (matrix_is_identity _ _ Hshape Hget).
  destruct (fold_left (null_src em) (seq 0 (em_nStates em)) (m0, p0)) as [m p].
  cbn [fst]. f_equal.
  unfold em_nStates. rewrite firstn_all.
  assert (Hnil : forall (l : list (EvaluatedMachineState N)) (a : nat),
            Forall (fun ems => nullTransitions ems = []) l ->
            concat (imap (fun i => state_warnings (a + i)) l) = []).
  { intros l. induction l as [|ems l IH]; intros a Hl; [done|].
    apply Forall_cons in Hl as [Hems Hl]. cbn [imap concat].
    unfold state_warnings at 1. rewrite Hems. cbn.
    rewrite <- (IH (S a) Hl). f_equal. apply imap_ext. intros i x _. cbn. f_equal. lia. }
  exact (Hnil _ 0 Hnone).
Qed.

End SumInTransIdentity.

Section QuietStates.
Import Ideal.
Local Open Scope R_scope.
Context {W : WeightAlgebra ideal} {G : Gsl ideal}.

(** X11.  In exact arithmetic, on a machine the constructors built,
    whenever the two GSL routines return the inverse of the matrix: from a
    state [s] with no output-empty outgoing transition the result has minus
    infinity, [log 0], at every other state [d], no output-empty path
    leading from [s] to [d]. *)
Theorem sumInTrans_quiet_state_reaches_nothing (machine : Machine W) params
    (em : EvaluatedMachine ideal) (m : Matrix ideal) p (g : Matrix ideal)
    (s d : StateIndex) (ems : EvaluatedMachineState ideal) :
  EvaluatedMachine_new machine params = Ok em ->
  silent_oneMinusNullTrans em = Ok (m, p) ->
  gsl_returns G m g ->
  is_inverse m g ->
  em_state em !! s = Some ems ->
  nullTransitions ems = [] ->
  (d < em_nStates em)%nat -> d <> s ->
  exists L row,
    snd (sumInTrans (G := G) em) = Ok L /\ L !! s = Some row /\ row !! d = Some NInf.
Proof.
  intros Hnew Hsilent Hret Hinv Hems Hnull Hd Hne.
  destruct (sumInTrans_built (G := G) machine params em Hnew)
    as (m' & p' & log & _ & Hsilent' & Hsum & Hshape & Hentries).
  rewrite Hsilent in Hsilent'. injection Hsilent' as <- <-.
  destruct Hshape as [Hlen _].
  assert (Hs : (s < em_nStates em)%nat) by (by apply lookup_lt_Some in Hems).
  destruct Hinv as (a & b & Ha & Hb & Hab & _). rewrite Hlen in Ha, Hb, Hab.
  assert (Hrow : forall k, (k < em_nStates em)%nat -> a s k = kronecker s k).
  { intros k Hk. pose proof (finite_matrix_get _ a m s k Ha Hs Hk) as Hcell.
    rewrite (proj2 (Hentries s ems Hems)) in Hcell.
    unfold oneMinusNull_entry, nullWeights in Hcell. rewrite Hnull in Hcell.
    cbn [filter list_filter map fold_left] in Hcell.
    rewrite identity_entry_kronecker in Hcell. by injection Hcell. }
  assert (Hzero : b s d = 0).
  { specialize (Hab s d Hs Hd).
    rewrite (Rsum_ext _ (fun k => kronecker s k * b k d)) in Hab
      by (intros k Hk; by rewrite (Hrow k Hk)).
    rewrite (Rsum_kronecker (fun k => b k d)) in Hab by done.
    rewrite Hab. unfold kronecker. by rewrite decide_False. }
  destruct (log_matrix_lookup _ b g s d Hb Hs Hd) as (row & HL & Hcell).
  exists (log_matrix g), row. split; [|split; [done|]].
  - rewrite Hsum. cbn [snd]. by apply invert_and_log_returns.
  - by rewrite Hcell, Hzero, xlog_zero.
Qed.

End QuietStates.

(** ** eval.cpp: explicitMachine and the constructors *)

Section ExplicitEvaluable.
Context {N : Numerics} {W : WeightAlgebra N}.

Lemma forallb_zip_seq {A} (f : nat -> A -> bool) (l : list A) (a : nat) :
  forallb (fun '(i, x) => f i x) (zip (seq a (length l)) l) = true <->
  forall j x, l !! j = Some x -> f (a + j) x = true.
Proof.
  revert a. induction l as [|y l IH]; intros a; cbn [length seq zip zip_with forallb].
  - split; [|done]. intros _ j x Hj. by rewrite lookup_nil in Hj.
  - rewrite andb_true_iff, (IH (S a)). split.
    + intros [Hy Hl] [|j] x Hj; cbn in Hj.
      * injection Hj as <-. by rewrite Nat.add_0_r.
      * replace (a + S j) with (S a + j) by lia. by apply Hl.
    + intros H. split.
      * specialize (H 0 y eq_refl). by rewrite Nat.add_0_r in H.
      * intros j x Hj. specialize (H (S j) x Hj).
        by replace (a + S j) with (S a + j) in H by lia.
Qed.

(** A machine is advancing when no silent transition leads to a state
    before its own. *)
Lemma isAdvancingMachine_spec (m : Machine W) :
  isAdvancingMachine m = true <->
  forall i ms t, state m !! i = Some ms -> t ∈ ms_trans ms -> isSilent t = true ->
    i <= dest t.
Proof.
  unfold isAdvancingMachine, nStates. rewrite forallb_zip_seq. cbn [plus].
  unfold state_advances. split.
  - intros H i ms t Hms Ht Hsilent. specialize (H i ms Hms).
    rewrite forallb_forall in H. specialize (H t (proj1 (list_elem_of_In _ _) Ht)).
    rewrite Hsilent in H. cbn in H. apply negb_true_iff, Nat.ltb_ge in H. lia.
  - intros H i ms Hms. apply forallb_forall. intros t Ht%list_elem_of_In.
    destruct (isSilent t) eqn:Hsilent; [|done]. cbn.
    apply negb_true_iff, Nat.ltb_ge. by apply (H i ms t).
Qed.

Lemma evaluated_list_elem (params : option (Params N)) (inTok outTok : Tokenizer) (ti : nat)
    (trl : list (MachineTransition W)) (es : list (Entry N)) (e : Entry N) :
  evaluated_list params inTok outTok ti trl = Ok es -> e ∈ es ->
  exists idx t, trl !! idx = Some t /\
    evaluated_trans params inTok outTok (ti + idx) t = Ok e.
Proof.
  intros Hes He. apply evaluated_list_lookup in Hes as [Hlen Hall].
  apply list_elem_of_lookup_1 in He as [idx Hidx].
  destruct (lookup_lt_is_Some_2 trl idx) as [t Ht].
  { rewrite <- Hlen. by apply lookup_lt_Some in Hidx. }
  destruct (Hall idx t Ht) as (e' & He' & Hev).
  rewrite Hidx in He'. injection He' as <-. by exists idx, t.
Qed.

(** Every transition of the reconstructed machine is a transition of the
    same state of the original with the literal [exp (logWeight)] for its
    weight. *)
Lemma explicit_transitions_original (machine : Machine W) params (em : EvaluatedMachine N)
    (m' : Machine W) :
  EvaluatedMachine_new machine params = Ok em ->
  explicitMachine em = Ok m' ->
  nStates m' = nStates machine /\
  forall s ms' t', state m' !! s = Some ms' -> t' ∈ ms_trans ms' ->
    dest t' < nStates machine /\
    exists ms t lw, state machine !! s = Some ms /\ t ∈ ms_trans ms /\
      trans_logWeight params t = Ok lw /\ t' = with_weight t lw.
Proof.
  intros Hnew Hexp.
  apply EvaluatedMachine_new_Ok in Hnew as (_ & Hitok & Hotok & Hn & _ & ess & Hbuilt).
  apply explicitMachine_Ok in Hexp. split.
  { unfold nStates. rewrite <- (Forall2_length _ _ _ Hexp). exact Hn. }
  intros s ms' t' Hms' Ht'.
  destruct (Forall2_lookup_r _ _ _ _ _ Hexp Hms') as (ems & Hems & Hstate).
  apply explicit_state_Ok in Hstate as [_ Htrans].
  apply list_elem_of_lookup_1 in Ht' as [k Hk].
  destruct (Forall2_lookup_r _ _ _ _ _ Htrans Hk) as (e & He & Het).
  destruct (built_from_lookup machine params em ess s ems Hn Hbuilt Hems)
    as (ms & es & Hms & Hes & Hperm & _).
  assert (Hin : e ∈ es).
  { rewrite <- Hperm. by apply list_elem_of_lookup_2 in He. }
  destruct Hbuilt as (Hess & Hdests & _).
  pose proof (Forall2_lookup_lr _ _ _ _ _ _ Hess Hms Hes) as Hev. cbn beta in Hev.
  destruct (evaluated_list_elem _ _ _ _ _ _ _ Hev Hin) as (idx & t & Ht & Het').
  rewrite (entry_transition_evaluated machine params em _ t e Hitok Hotok Het') in Het.
  injection Het as <-.
  apply evaluated_trans_Ok in Het' as (i & o & lw & _ & _ & Hlw & ->).
  split.
  - rewrite Forall_forall in Hdests.
    specialize (Hdests es (list_elem_of_lookup_2 _ _ _ Hes)).
    rewrite Forall_forall in Hdests. by apply (Hdests _ Hin).
  - exists ms, t, lw. split; [done|]. split; [by apply list_elem_of_lookup_2 in Ht|done].
Qed.

(** The constructor without parameters accepts an advancing machine whose
    destinations are states. *)
Lemma construction_accepts (m : Machine W) :
  isAdvancingMachine m = true ->
  Forall (fun t => dest t < nStates m) (allTransitions m) ->
  exists em : EvaluatedMachine N, EvaluatedMachine_new m None = Ok em.
Proof.
  intros Hadv Hdests. unfold EvaluatedMachine_new, init. rewrite Hadv.
  rewrite length_replicate.
  destruct (proj2 (init_states_succeed None (Tokenizer_new (inputAlphabet m))
              (Tokenizer_new (outputAlphabet m)) (state m) 0 0
              (replicate (nStates m) EvaluatedMachineState_new))) as ([st c] & Hr).
  { rewrite length_replicate. split; [intros _; unfold nStates; lia|].
    apply Forall_flat_map. rewrite Forall_forall in Hdests |- *. intros t Ht.
    destruct (alphabets_know m t Ht) as [Hi Ho]. split; [done|]. split; [done|].
    split; [by apply Hdests|done]. }
  unfold nStates in *. rewrite Hr. by eexists.
Qed.

(** X12.  The machine [explicitMachine] returns for the evaluated machine
    of a machine is itself advancing, with every destination one of its
    states: the constructor without parameters accepts it. *)
Theorem explicitMachine_is_evaluable (machine : Machine W) params
    (em : EvaluatedMachine N) (m' : Machine W) :
  EvaluatedMachine_new machine params = Ok em ->
  explicitMachine em = Ok m' ->
  isAdvancingMachine m' = true /\
  Forall (fun t => dest t < nStates m') (allTransitions m') /\
  exists em' : EvaluatedMachine N, EvaluatedMachine_new m' None = Ok em'.
Proof.
  intros Hnew Hexp.
  destruct (explicit_transitions_original machine params em m' Hnew Hexp) as [Hn Horig].
  apply EvaluatedMachine_new_Ok in Hnew as (Hadv & _).
  assert (Hadv' : isAdvancingMachine m' = true).
  { apply isAdvancingMachine_spec. intros s ms' t' Hms' Ht' Hsilent.
    destruct (Horig s ms' t' Hms' Ht') as (_ & ms & t & lw & Hms & Ht & _ & ->).
    by apply (proj1 (isAdvancingMachine_spec machine) Hadv s ms t Hms Ht). }
  assert (Hdests : Forall (fun t => dest t < nStates m') (allTransitions m')).
  { unfold allTransitions. apply Forall_flat_map, Forall_forall. intros ms' Hms'.
    apply list_elem_of_lookup_1 in Hms' as [s Hs]. apply Forall_forall. intros t' Ht'.
    rewrite Hn. by apply (Horig s ms' t' Hs Ht'). }
  split; [done|]. split; [done|]. by apply construction_accepts.
Qed.

End ExplicitEvaluable.

Section ExplicitWeights.
Context {N : Numerics} {W : WeightAlgebra N}.

(** X13.  [explicitMachine] after a constructor replaces weights by
    literals: every transition of the result is a transition of the same
    state of the original, with the same labels and destination, and its
    weight is the literal of the double [exp (log v)], [v] being the value
    [eval] gave the original weight under the parameters, or of
    [exp (0)] when there were none.  The double is the one the two library
    calls compute, which need not be [v]. *)
Theorem explicitMachine_weight_values (machine : Machine W) (params : option (Params N))
    (em : EvaluatedMachine N) (m' : Machine W) (s : StateIndex)
    (ms' : MachineState W) (t' : MachineTransition W) :
  EvaluatedMachine_new machine params = Ok em ->
  explicitMachine em = Ok m' ->
  state m' !! s = Some ms' -> t' ∈ ms_trans ms' ->
  exists ms t, state machine !! s = Some ms /\ t ∈ ms_trans ms /\
    t_in t' = t_in t /\ t_out t' = t_out t /\ dest t' = dest t /\
    match params with
    | Some p => exists v, eval W (weight t) (defs W p) = Ok v /\
                  weight t' = weight_of_double W (d_exp N (d_log N v))
    | None => weight t' = weight_of_double W (d_exp N (d_zero N))
    end.
Proof.
  intros Hnew Hexp Hms' Ht'.
  destruct (explicit_transitions_original machine params em m' Hnew Hexp) as [_ Horig].
  destruct (Horig s ms' t' Hms' Ht') as (_ & ms & t & lw & Hms & Ht & Hlw & ->).
  exists ms, t. split; [done|]. split; [done|]. split; [done|]. split; [done|].
  split; [done|]. unfold trans_logWeight in Hlw. destruct params as [p|].
  - inv_ok Hlw. subst lw. by exists a.
  - injection Hlw as <-. done.
Qed.

End ExplicitWeights.

(** ** params.cpp: a value that is not a number *)

Section ParamsTypeError.
Context {N : Numerics}.
Implicit Types (l : list (string * json N)) (q : gmap string (double N)).

Lemma json_not_number_get_double (v : json N) :
  json_is_number v = false -> json_get_double v = Fatal TypeError.
Proof. by destruct v. Qed.

Lemma readJson_loop_app (order : AssignmentOrder) l1 l2 q :
  readJson_loop order (l1 ++ l2) q
  = match readJson_loop order l1 q with
    | (q', Ok _) => readJson_loop order l2 q'
    | (q', Fatal e) => (q', Fatal e)
    end.
Proof.
  revert q. induction l1 as [|[k v] l1 IH]; intros q; cbn [app readJson_loop]; [done|].
  destruct (json_get_double v) as [d|e]; [apply IH|done].
Qed.

(** X14.  Only the schema check stands between the old bindings and a bad
    value: when the check lets through an object with a member that is not
    a number, [readJson] dies of the type error with the old bindings gone.
    Every other key is bound just as the members before the bad one bind
    it; the key of the bad member is unbound when the value is converted
    before the subscript is evaluated, and bound to 0 when the subscript
    comes first. *)
Theorem readJson_type_error_after_clear
    (schema_valid : string -> json N -> bool) (order : AssignmentOrder)
    (this : Params N) (pre post : list (string * json N)) (k : string) (v : json N) :
  schema_valid "params" (JObject (pre ++ (k, v) :: post)) = true ->
  Forall (fun kv => json_is_number (snd kv) = true) pre ->
  NoDup (map fst (pre ++ [(k, v)])) ->
  json_is_number v = false ->
  exists after,
    readJson schema_valid order (JObject (pre ++ (k, v) :: post)) this
    = (after, Fatal TypeError) /\
    (forall key d, key <> k ->
       (param after !! key = Some d <->
        exists v', (key, v') ∈ pre /\ json_get_double v' = Ok d)) /\
    param after !! k = match order with
                       | ValueFirst => None
                       | TargetFirst => Some (d_zero N)
                       end.
Proof.
  intros Hvalid Hnum Hnd Hv. unfold readJson, validateOrDie. rewrite Hvalid.
  cbn [json_items]. rewrite readJson_loop_app.
  rewrite map_app in Hnd. apply NoDup_app in Hnd as (Hnd & Hk & _).
  destruct (readJson_loop_numbers order pre ∅ Hnum Hnd) as (q' & -> & Hq').
  cbn [readJson_loop]. rewrite (json_not_number_get_double v Hv).
  assert (Hfresh : q' !! k = None).
  { destruct (q' !! k) as [d|] eqn:Hd; [|done]. exfalso.
    apply Hq' in Hd as [(v' & Hin & _)|[_ Hempty]].
    - apply (Hk k); [|apply list_elem_of_here].
      apply list_elem_of_In, (in_map fst _ (k, v')), list_elem_of_In, Hin.
    - by rewrite lookup_empty in Hempty. }
  assert (Hpre : forall key d, q' !! key = Some d <->
            exists v', (key, v') ∈ pre /\ json_get_double v' = Ok d).
  { intros key d. rewrite Hq'. split.
    - intros [Hin|[_ Hempty]]; [done|]. by rewrite lookup_empty in Hempty.
    - intros Hin. by left. }
  eexists. split; [done|]. cbn [param]. unfold slot_created. rewrite Hfresh.
  destruct order; split.
  - intros key d _. apply Hpre.
  - exact Hfresh.
  - intros key d Hne. rewrite lookup_insert_ne by done. apply Hpre.
  - by rewrite lookup_insert_eq.
Qed.

End ParamsTypeError.

(** A binding [{"q": 1}] that reads [{"a": 1, "p": "x"}] under a check that
    admits every object is left holding [a], and [p] with 0 when the
    subscript is evaluated first. *)
Lemma readJson_type_error_after_clear_witness :
  exists after : Params Ideal.ideal,
    readJson (fun _ _ => true) TargetFirst
      (JObject ([("a", JInt 1)] ++ ("p", JString "x") :: [])) Examples.prior_params
    = (after, Fatal TypeError) /\
    (forall key d, key <> "p" ->
       (param after !! key = Some d <->
        exists v', (key, v') ∈ [("a", JInt (N := Ideal.ideal) 1)] /\
                   json_get_double v' = Ok d)) /\
    param after !! "p" = Some (d_zero Ideal.ideal).
Proof.
  apply (readJson_type_error_after_clear (fun _ _ => true) TargetFirst
           Examples.prior_params [("a", JInt 1)] [] "p" (JString "x")).
  - reflexivity.
  - repeat constructor.
  - simpl. apply NoDup_cons. split; [|apply NoDup_singleton].
    intros Hin. apply list_elem_of_singleton in Hin. discriminate.
  - reflexivity.
Defined.

(** ** The further properties at the sample machines *)

Section FurtherWitnesses.
Import Ideal Examples.

Lemma swap_built : EvaluatedMachine_new swap_machine None = Ok swap_em.
Proof. reflexivity. Qed.

Lemma swap_matrix_built :
  silent_oneMinusNullTrans swap_em = Ok (swap_matrix, [Fin (0 + exp 0); Fin 0]).
Proof. reflexivity. Qed.

Lemma swap_gsl_returns : gsl_returns (constant_gsl swap_inverse) swap_matrix swap_inverse.
Proof. exists swap_matrix, tt, 1%Z, GSL_SUCCESS, GSL_SUCCESS. by split. Qed.

Lemma swap_is_inverse : is_inverse swap_matrix swap_inverse.
Proof.
  exists (fun i j => match i, j with
                     | 0, 0 => 1 | 0, 1 => 0 + - exp 0 | 1, 0 => 0 | _, _ => 1
                     end%R),
         (fun i j => match i, j with
                     | 0, 0 => 1 | 0, 1 => exp 0 | 1, 0 => 0 | _, _ => 1
                     end%R).
  cbn [length swap_matrix].
  split; [|split; [|split]].
  - split; [done|]. intros [|[|i]] Hi; [| |lia]; eexists; (split; [reflexivity|]);
      (split; [reflexivity|]); intros [|[|j]] Hj; try lia; reflexivity.
  - split; [done|]. intros [|[|i]] Hi; [| |lia]; eexists; (split; [reflexivity|]);
      (split; [reflexivity|]); intros [|[|j]] Hj; try lia; reflexivity.
  - intros [|[|i]] [|[|j]] Hi Hj; try lia; cbn; unfold kronecker;
      repeat case_decide; try lia; lra.
  - intros [|[|i]] [|[|j]] Hi Hj; try lia; cbn; unfold kronecker;
      repeat case_decide; try lia; lra.
Qed.

Lemma quarter_loop_explicit_built : explicitMachine quarter_loop_em = Ok quarter_loop_explicit.
Proof. reflexivity. Qed.

Lemma incoming_mirrors_outgoing_witness :
  exists emd, em_state swap_em !! 1 = Some emd /\
    ((0, 0, 0, {| logWeight := Fin 0; transIndex := 1 |}) ∈ incomingEntries emd <->
     exists s ems e, em_state swap_em !! s = Some ems /\ e ∈ outgoingEntries ems /\
       entry_dest e = 1 /\
       (0, 0, 0, {| logWeight := Fin 0; transIndex := 1 |}) = mirror_entry s e).
Proof.
  eexists. split; [reflexivity|].
  apply (incoming_mirrors_outgoing swap_machine None swap_em 1 _ _ swap_built).
  reflexivity.
Defined.

Lemma init_succeeds_iff_witness :
  (exists em : EvaluatedMachine ideal,
     init unit_loop_machine None (Tokenizer_new ["a"]) (Tokenizer_new [])
       [EvaluatedMachineState_new] = Ok em) <->
  isAdvancingMachine unit_loop_machine = true /\
  Forall (trans_evaluable None (Tokenizer_new ["a"]) (Tokenizer_new [])
            (nStates unit_loop_machine))
         (allTransitions unit_loop_machine).
Proof. apply init_succeeds_iff. reflexivity. Defined.

Lemma params_reach_only_logWeight_witness :
  exists em0 : EvaluatedMachine ideal,
    EvaluatedMachine_new quarter_loop_machine None = Ok em0 /\
    inputTokenizer em0 = inputTokenizer quarter_loop_em /\
    em_nTransitions em0 = em_nTransitions quarter_loop_em.
Proof.
  destruct (params_reach_only_logWeight quarter_loop_machine quarter_params
              quarter_loop_em quarter_loop_built) as (em0 & H0 & Hi & _ & _ & Hnt & _).
  exists em0. split; [exact H0|]. split; [exact Hi|exact Hnt].
Defined.

Lemma sumInTrans_reads_null_transitions_witness :
  sumInTrans (G := scalar_gsl) unit_loop_em
  = sumInTrans (G := scalar_gsl) relabelled_loop_em.
Proof. apply sumInTrans_reads_null_transitions. reflexivity. Defined.

Lemma sumInTrans_warnings_witness :
  fst (sumInTrans (G := scalar_gsl) double_loop_em)
  = concat (imap state_warnings (em_state double_loop_em)).
Proof.
  exact (sumInTrans_warnings (G := scalar_gsl) double_loop_machine None double_loop_em
           double_loop_built).
Defined.

Lemma sumInTrans_identity_witness :
  sumInTrans (G := scalar_gsl) emitting_em
  = ([], invert_and_log (G := scalar_gsl) (identity_matrix (em_nStates emitting_em))).
Proof. apply sumInTrans_identity. repeat constructor. Defined.

Lemma sumInTrans_quiet_state_reaches_nothing_witness :
  exists L row,
    snd (sumInTrans (G := constant_gsl swap_inverse) swap_em) = Ok L /\
    L !! 1 = Some row /\ row !! 0 = Some NInf.
Proof.
  apply (sumInTrans_quiet_state_reaches_nothing (G := constant_gsl swap_inverse)
           swap_machine None swap_em swap_matrix _ swap_inverse 1 0 _
           swap_built swap_matrix_built swap_gsl_returns swap_is_inverse eq_refl eq_refl).
  - cbn. lia.
  - discriminate.
Defined.

Lemma explicitMachine_is_evaluable_witness :
  isAdvancingMachine quarter_loop_explicit = true /\
  Forall (fun t => dest t < nStates quarter_loop_explicit)
         (allTransitions quarter_loop_explicit) /\
  exists em' : EvaluatedMachine ideal,
    EvaluatedMachine_new quarter_loop_explicit None = Ok em'.
Proof.
  exact (explicitMachine_is_evaluable quarter_loop_machine (Some quarter_params)
           quarter_loop_em quarter_loop_explicit quarter_loop_built
           quarter_loop_explicit_built).
Defined.

Lemma explicitMachine_weight_values_witness :
  exists v, leaf_eval (Ref "p") (param quarter_params) = Ok v /\
    weight quarter_loop_explicit_trans = Lit (xexp (xlog v)).
Proof.
  destruct (explicitMachine_weight_values quarter_loop_machine (Some quarter_params)
              quarter_loop_em quarter_loop_explicit 0 _ quarter_loop_explicit_trans
              quarter_loop_built quarter_loop_explicit_built eq_refl)
    as (ms & t & Hms & Ht & _ & _ & _ & v & Hv & Hw).
  - apply list_elem_of_singleton. reflexivity.
  - injection Hms as <-. apply list_elem_of_singleton in Ht as ->.
    exists v. split; [exact Hv|exact Hw].
Defined.

End FurtherWitnesses.

(** ** eval.cpp: the names of unnamed states *)

Section StateNameFacts.
Context {N : Numerics} {W : WeightAlgebra N}.
Variable dump : json N -> string.

(** X16.  In the evaluated machine of a machine, a state the machine leaves
    unnamed is named by its index in decimal, so that two unnamed states
    never share a name; an index past the last state is out of range. *)
Theorem stateNameJson_unnamed (machine : Machine W) params (em : EvaluatedMachine N) :
  EvaluatedMachine_new machine params = Ok em ->
  (forall s ms, state machine !! s = Some ms -> ms_name ms = JNull ->
     stateNameJson dump em s = Ok (pretty s)) /\
  (forall s s' ms ms' x, state machine !! s = Some ms -> state machine !! s' = Some ms' ->
     ms_name ms = JNull -> ms_name ms' = JNull ->
     stateNameJson dump em s = Ok x -> stateNameJson dump em s' = Ok x -> s = s') /\
  (forall s, nStates machine <= s -> stateNameJson dump em s = Fatal OutOfRange).
Proof.
  intros Hnew.
  apply EvaluatedMachine_new_Ok in Hnew as (_ & _ & _ & Hn & _ & ess & Hbuilt).
  assert (Hname : forall s ms, state machine !! s = Some ms -> ms_name ms = JNull ->
            stateNameJson dump em s = Ok (pretty s)).
  { intros s ms Hms Hnull. pose proof Hbuilt as (Hess & _ & Hst).
    destruct (lookup_lt_is_Some_2 ess s) as [es Hes].
    { rewrite <- (Forall2_length _ _ _ Hess). by apply lookup_lt_Some in Hms. }
    destruct (Hst s ms es Hms Hes) as (ems & Hems & Hnm & _).
    unfold stateNameJson. rewrite (proj2 (vec_at_Ok s _ _) Hems).
    cbn [mbind result_bind rbind]. by rewrite Hnm, Hnull. }
  split; [exact Hname|]. split.
  - intros s s' ms ms' x Hms Hms' Hnull Hnull' Hx Hx'.
    rewrite (Hname s ms Hms Hnull) in Hx. rewrite (Hname s' ms' Hms' Hnull') in Hx'.
    injection Hx as <-. injection Hx' as Heq. by apply (inj pretty).
  - intros s Hs. unfold stateNameJson, vec_at.
    rewrite lookup_ge_None_2; [done|]. unfold em_nStates in Hn. lia.
Qed.

End StateNameFacts.

Section StateNameWitness.
Import Ideal Examples.

Lemma stateNameJson_unnamed_witness :
  stateNameJson (fun _ => "null") unit_loop_em 0 = Ok "0" /\
  stateNameJson (fun _ => "null") unit_loop_em 1 = Fatal OutOfRange.
Proof.
  destruct (stateNameJson_unnamed (fun _ => "null") unit_loop_machine None unit_loop_em
              unit_loop_built) as (Hname & _ & Hrange).
  split.
  - exact (Hname 0 _ eq_refl eq_refl).
  - apply Hrange. reflexivity.
Defined.

End StateNameWitness.
